(** * Verification of the ziggba font packer ([assets/font.py])

    A shallow embedding of [pack_font] and of the class [Char], followed by
    the properties of the packed format that the specification states.

    Conventions of the embedding:
    - Python integers are unbounded, so they are [Z]; [|], [&], [<<], [>>]
      are [Z.lor], [Z.land], [Z.shiftl], [Z.shiftr]; a [bool] used as an
      integer is [Z.b2z].
    - A [bytes] object is a [list Z] whose elements the constructor has
      checked to lie in [range(0, 256)].
    - An exception is a value of [exception]; code that may raise returns
      a [result].
    - The loaded image comes in two forms. [pixels] is the ink test of an
      image every pixel of which can be read: the functions over it give
      what the script computes from the pixels it has read. [PIL.pixel_access]
      is the access [im_pixels[x, y]] itself, which may raise; the functions
      of the module [PIL] are the script's with this access, and they agree
      with the former wherever the pixels they visit can be read
      ([PIL_Char_init_reads], [PIL_pack_font_reads]).
    - [math.floor(a / b)] goes through a float. [floor_div] is its value
      where the float quotient has the floor of the exact one, which is so
      for operands below [2 ^ 53] ([float_exact]); statements that depend on
      the computed cell counts carry this bound. *)

From Stdlib Require Import ZArith List Lia Bool ZifyBool.
Import ListNotations.
Local Open Scope Z_scope.

(** ** Exceptions and results *)

Inductive exception : Type :=
| ValueError_size (size_x size_y : Z) (* raise ValueError(...), __init__ *)
| ValueError_bytes                    (* bytes(): must be in range(0, 256) *)
| AssertionError                      (* a failed assert *)
| struct_error                        (* struct.pack: value out of range *)
| ZeroDivisionError                   (* a / 0 *)
| IndexError.                         (* im_pixels[x, y]: outside the image *)

Inductive result (A : Type) : Type :=
| Ok (a : A)
| Raise (e : exception).

Arguments Ok {A} a.
Arguments Raise {A} e.

Definition bind {A B : Type} (m : result A) (k : A -> result B) : result B :=
  match m with
  | Ok a => k a
  | Raise e => Raise e
  end.

Notation "x <- m ;; k" := (bind m (fun x => k))
  (at level 61, m at next level, right associativity).
Notation "m ;;; k" := (bind m (fun _ => k))
  (at level 61, right associativity).

Definition assert_ (b : bool) : result unit :=
  if b then Ok tt else Raise AssertionError.

(** A [for] loop whose body may raise. *)
Fixpoint for_each {A B : Type} (body : A -> B -> result A) (l : list B) (a : A)
  : result A :=
  match l with
  | [] => Ok a
  | x :: l' => a' <- body a x ;; for_each body l' a'
  end.

(** ** Python built-ins used by the script *)

(** [range(a, b)] *)
Definition range (a b : Z) : list Z :=
  map (fun k => a + Z.of_nat k) (seq 0 (Z.to_nat (b - a))).

(** [len] *)
Definition len {A : Type} (l : list A) : Z := Z.of_nat (length l).

Definition is_byte (v : Z) : bool := (0 <=? v) && (v <? 256).
Definition is_ushort (v : Z) : bool := (0 <=? v) && (v <? 65536).

(** [bytes(b)] for a list of integers *)
Definition bytes (b : list Z) : result (list Z) :=
  if forallb is_byte b then Ok b else Raise ValueError_bytes.

(** [struct.pack("<" + "B" * len(vs), *vs)] *)
Definition struct_pack_B (vs : list Z) : result (list Z) :=
  if forallb is_byte vs then Ok vs else Raise struct_error.

(** [struct.pack("<" + "H" * len(vs), *vs)] *)
Definition struct_pack_H (vs : list Z) : result (list Z) :=
  if forallb is_ushort vs
  then Ok (flat_map (fun v => [Z.land v 255; Z.shiftr v 8]) vs)
  else Raise struct_error.

(** [math.floor(a / b)], where the float quotient has the floor of the exact
    quotient (see [float_exact]). *)
Definition floor_div (a b : Z) : result Z :=
  if b =? 0 then Raise ZeroDivisionError else Ok (a / b).

(** ** class Char *)

(** The ink test of an image whose pixels can all be read: the truth value
    of [im_pixels[x, y]]. *)
Definition pixels : Type := Z -> Z -> bool.
Definition rect : Type := (Z * Z * Z * Z)%type.

Record Char : Type := mkChar {
  im_rect_x : Z;
  im_rect_y : Z;
  im_rect_x_size : Z;
  im_rect_y_size : Z;
  im_rect_x_max : Z;
  im_rect_y_max : Z;
  x_min : Z;
  x_max : Z;
  y_min : Z;
  y_max : Z;
  y_min_first : Z;
  y_max_first : Z;
  y_min_last : Z;
  y_max_last : Z;
  rows : list Z
}.

(** Assignments to the attributes that [__init__] updates after their
    initialisation. *)
Definition set_box (xm xM ym yM : Z) (self : Char) : Char :=
  mkChar (im_rect_x self) (im_rect_y self) (im_rect_x_size self)
    (im_rect_y_size self) (im_rect_x_max self) (im_rect_y_max self)
    xm xM ym yM
    (y_min_first self) (y_max_first self) (y_min_last self) (y_max_last self)
    (rows self).

Definition set_first (ym yM : Z) (self : Char) : Char :=
  mkChar (im_rect_x self) (im_rect_y self) (im_rect_x_size self)
    (im_rect_y_size self) (im_rect_x_max self) (im_rect_y_max self)
    (x_min self) (x_max self) (y_min self) (y_max self)
    ym yM (y_min_last self) (y_max_last self)
    (rows self).

Definition set_last (ym yM : Z) (self : Char) : Char :=
  mkChar (im_rect_x self) (im_rect_y self) (im_rect_x_size self)
    (im_rect_y_size self) (im_rect_x_max self) (im_rect_y_max self)
    (x_min self) (x_max self) (y_min self) (y_max self)
    (y_min_first self) (y_max_first self) ym yM
    (rows self).

Definition set_rows (r : list Z) (self : Char) : Char :=
  mkChar (im_rect_x self) (im_rect_y self) (im_rect_x_size self)
    (im_rect_y_size self) (im_rect_x_max self) (im_rect_y_max self)
    (x_min self) (x_max self) (y_min self) (y_max self)
    (y_min_first self) (y_max_first self) (y_min_last self) (y_max_last self)
    r.

(** [__init__], the attribute initialisation before the first loop. *)
Definition Char_attrs (im_rect : rect) : Char :=
  let '(rx, ry, sx, sy) := im_rect in
  let rx_max := rx + sx in
  let ry_max := ry + sy in
  mkChar rx ry sx sy rx_max ry_max
    rx_max rx ry_max ry
    ry_max ry
    ry_max ry
    [].

(** Body of the bounding-box loop. *)
Definition scan_pixel (im_pixels : pixels) (px_x : Z) (self : Char) (px_y : Z)
  : Char :=
  if im_pixels px_x px_y then
    set_box (Z.min (x_min self) px_x) (Z.max (x_max self) (px_x + 1))
            (Z.min (y_min self) px_y) (Z.max (y_max self) (px_y + 1)) self
  else self.

(** The two nested loops over the whole cell. *)
Definition scan_box (im_pixels : pixels) (self : Char) : Char :=
  fold_left
    (fun self px_x =>
       fold_left (scan_pixel im_pixels px_x)
         (range (im_rect_y self) (im_rect_y_max self)) self)
    (range (im_rect_x self) (im_rect_x_max self)) self.

(** The loop over the column [x_min]. *)
Definition scan_first (im_pixels : pixels) (self : Char) : Char :=
  fold_left
    (fun self px_y =>
       if im_pixels (x_min self) px_y then
         set_first (Z.min (y_min_first self) px_y)
                   (Z.max (y_max_first self) (px_y + 1)) self
       else self)
    (range (im_rect_y self) (im_rect_y_max self)) self.

(** The loop over the column [x_max - 1]. *)
Definition scan_last (im_pixels : pixels) (self : Char) : Char :=
  fold_left
    (fun self px_y =>
       if im_pixels (x_max self - 1) px_y then
         set_last (Z.min (y_min_last self) px_y)
                  (Z.max (y_max_last self) (px_y + 1)) self
       else self)
    (range (im_rect_y self) (im_rect_y_max self)) self.

(** The size check that raises [ValueError]. *)
Definition check_size (self : Char) : result unit :=
  if (x_max self - x_min self >? 12) || (y_max self - y_min self >? 12)
  then Raise (ValueError_size (x_max self - x_min self)
                              (y_max self - y_min self))
  else Ok tt.

Definition in_4bit (v : Z) : bool := (0 <=? v) && (v <? 16).

(** The seven assertions, in order. *)
Definition check_asserts (self : Char) : result unit :=
  assert_ (in_4bit (x_max self - x_min self)) ;;;
  assert_ (in_4bit (y_max self - y_min self)) ;;;
  assert_ (in_4bit (y_min_first self - y_min self)) ;;;
  assert_ (in_4bit (y_max_first self - y_min self)) ;;;
  assert_ (in_4bit (y_min_last self - y_min self)) ;;;
  assert_ (in_4bit (y_max_last self - y_min self)) ;;;
  assert_ (in_4bit (y_min self - im_rect_y self)).

(** Inner loop building one row; the state is [(row, i)]. *)
Definition row_step (im_pixels : pixels) (px_y : Z) (st : Z * Z) (px_x : Z)
  : Z * Z :=
  let '(row, i) := st in
  let row := if im_pixels px_x px_y then Z.lor row (Z.shiftl 1 i) else row in
  (row, i + 1).

Definition build_row (im_pixels : pixels) (xm xM : Z) (px_y : Z) : Z :=
  fst (fold_left (row_step im_pixels px_y) (range xm xM) (0, 0)).

(** The loop that fills [self.rows]. *)
Definition build_rows (im_pixels : pixels) (self : Char) : Char :=
  fold_left
    (fun self px_y =>
       set_rows (rows self ++ [build_row im_pixels (x_min self) (x_max self) px_y])
                self)
    (range (y_min self) (y_max self)) self.

(** [Char.__init__] *)
Definition Char_init (im_pixels : pixels) (im_rect : rect) : result Char :=
  let self := Char_attrs im_rect in
  let self := scan_box im_pixels self in
  if x_max self <=? x_min self then Ok self
  else
    let self := scan_first im_pixels self in
    let self := scan_last im_pixels self in
    check_size self ;;;
    check_asserts self ;;;
    Ok (build_rows im_pixels self).

(** [Char.is_blank] *)
Definition is_blank (self : Char) : bool :=
  (x_max self <=? x_min self) || (y_max self <=? y_min self).

(** The two integers that [encode_header] appends to [b]. *)
Definition header_byte0 (self : Char) : Z :=
  Z.lor (Z.max 0 (x_max self - x_min self))
        (Z.shiftl (Z.max 0 (y_max self - y_min self)) 4).

Definition header_byte1 (self : Char) : Z :=
  Z.lor (Z.lor (Z.lor (Z.lor
    (Z.max 0 (y_min self - im_rect_y self))
    (Z.shiftl (Z.b2z ((y_min_last self - im_rect_y self <=? 5) &&
                      (y_min_last self =? y_max_last self - 1))) 4))
    (Z.shiftl (Z.b2z (y_min_first self - im_rect_y self >? 5)) 5))
    (Z.shiftl (Z.b2z ((y_min_first self - im_rect_y self >=? 9) &&
                      (y_min_first self =? y_max_first self - 1))) 6))
    (Z.shiftl (Z.b2z (y_max_last self - im_rect_y self <? 9)) 7).

(** [Char.encode_header] *)
Definition encode_header (self : Char) : result (list Z) :=
  bytes [header_byte0 self; header_byte1 self].

(** [Char.encode_rows] *)
Definition encode_rows (self : Char) : result (list Z) :=
  let wide := x_max self - x_min self >? 8 in
  if wide then struct_pack_H (rows self) else struct_pack_B (rows self).

(** ** pack_font *)

(** The grid loops that fill [ch_list]. *)
Definition ch_list_of (im_pixels : pixels) (ch_size : Z * Z) (im_rect : rect)
  : result (list Char) :=
  let '(im_rect_x, im_rect_y, im_rect_size_x, im_rect_size_y) := im_rect in
  let '(ch_size_x, ch_size_y) := ch_size in
  ch_count_x <- floor_div im_rect_size_x ch_size_x ;;
  ch_count_y <- floor_div im_rect_size_y ch_size_y ;;
  for_each
    (fun ch_list ch_y =>
       for_each
         (fun ch_list ch_x =>
            ch <- Char_init im_pixels
                    (im_rect_x + ch_x * ch_size_x,
                     im_rect_y + ch_y * ch_size_y,
                     ch_size_x, ch_size_y) ;;
            Ok (ch_list ++ [ch]))
         (range 0 ch_count_x) ch_list)
    (range 0 ch_count_y) [].

(** Body of the packing loop; the state is [(ch_headers, ch_rows)]. *)
Definition pack_step (ch_headers_len : Z) (st : list Z * list Z) (ch : Char)
  : result (list Z * list Z) :=
  let '(ch_headers, ch_rows) := st in
  st' <- (if negb (is_blank ch) then
            r <- encode_rows ch ;;
            Ok (len ch_rows + ch_headers_len, ch_rows ++ r)
          else Ok (0, ch_rows)) ;;
  let '(ch_offset, ch_rows) := st' in
  h <- encode_header ch ;;
  o <- bytes [Z.land ch_offset 255; Z.shiftr ch_offset 8] ;;
  Ok ((ch_headers ++ h) ++ o, ch_rows).

(** The packing loop and the assertion after it; the result is the pair
    of byte strings written to the output file, in that order. *)
Definition pack_chars (ch_list : list Char) : result (list Z * list Z) :=
  let ch_headers_len := 4 * len ch_list in
  st <- for_each (pack_step ch_headers_len) ch_list ([], []) ;;
  assert_ (len (fst st) =? ch_headers_len) ;;;
  Ok st.

(** [pack_font]: the content of the output file, or the exception. *)
Definition pack_font (im_pixels : pixels) (ch_size : Z * Z) (im_rect : rect)
  : result (list Z) :=
  ch_list <- ch_list_of im_pixels ch_size im_rect ;;
  st <- pack_chars ch_list ;;
  Ok (fst st ++ snd st).

(** ** The script with an image access that may raise *)

(** [im_pixels[px_x, px_y]] is a call into the image library: it returns the
    pixel, of which the script uses the truth value, or it raises, as it
    does for a position outside the image. The functions of this module are
    [Char.__init__] and [pack_font] with such an access; every read is in
    the place and in the order of the source. *)
Module PIL.

Definition pixel_access : Type := Z -> Z -> result bool.

(** Body of the bounding-box loop. *)
Definition scan_pixel (im_pixels : pixel_access) (px_x : Z) (self : Char)
  (px_y : Z) : result Char :=
  p <- im_pixels px_x px_y ;;
  Ok (if p : bool then
        set_box (Z.min (x_min self) px_x) (Z.max (x_max self) (px_x + 1))
                (Z.min (y_min self) px_y) (Z.max (y_max self) (px_y + 1)) self
      else self).

(** The two nested loops over the whole cell. *)
Definition scan_box (im_pixels : pixel_access) (self : Char) : result Char :=
  for_each
    (fun self px_x =>
       for_each (scan_pixel im_pixels px_x)
         (range (im_rect_y self) (im_rect_y_max self)) self)
    (range (im_rect_x self) (im_rect_x_max self)) self.

(** The loop over the column [x_min]. *)
Definition scan_first (im_pixels : pixel_access) (self : Char) : result Char :=
  for_each
    (fun self px_y =>
       p <- im_pixels (x_min self) px_y ;;
       Ok (if p : bool then
             set_first (Z.min (y_min_first self) px_y)
                       (Z.max (y_max_first self) (px_y + 1)) self
           else self))
    (range (im_rect_y self) (im_rect_y_max self)) self.

(** The loop over the column [x_max - 1]. *)
Definition scan_last (im_pixels : pixel_access) (self : Char) : result Char :=
  for_each
    (fun self px_y =>
       p <- im_pixels (x_max self - 1) px_y ;;
       Ok (if p : bool then
             set_last (Z.min (y_min_last self) px_y)
                      (Z.max (y_max_last self) (px_y + 1)) self
           else self))
    (range (im_rect_y self) (im_rect_y_max self)) self.

(** Inner loop building one row; the state is [(row, i)]. *)
Definition row_step (im_pixels : pixel_access) (px_y : Z) (st : Z * Z)
  (px_x : Z) : result (Z * Z) :=
  let '(row, i) := st in
  p <- im_pixels px_x px_y ;;
  let row := if p : bool then Z.lor row (Z.shiftl 1 i) else row in
  Ok (row, i + 1).

Definition build_row (im_pixels : pixel_access) (xm xM : Z) (px_y : Z)
  : result Z :=
  st <- for_each (row_step im_pixels px_y) (range xm xM) (0, 0) ;;
  Ok (fst st).

(** The loop that fills [self.rows]. *)
Definition build_rows (im_pixels : pixel_access) (self : Char) : result Char :=
  for_each
    (fun self px_y =>
       row <- build_row im_pixels (x_min self) (x_max self) px_y ;;
       Ok (set_rows (rows self ++ [row]) self))
    (range (y_min self) (y_max self)) self.

(** [Char.__init__] *)
Definition Char_init (im_pixels : pixel_access) (im_rect : rect)
  : result Char :=
  let self := Char_attrs im_rect in
  self <- scan_box im_pixels self ;;
  if x_max self <=? x_min self then Ok self
  else
    self <- scan_first im_pixels self ;;
    self <- scan_last im_pixels self ;;
    check_size self ;;;
    check_asserts self ;;;
    build_rows im_pixels self.

(** The grid loops that fill [ch_list]. *)
Definition ch_list_of (im_pixels : pixel_access) (ch_size : Z * Z)
  (im_rect : rect) : result (list Char) :=
  let '(im_rect_x, im_rect_y, im_rect_size_x, im_rect_size_y) := im_rect in
  let '(ch_size_x, ch_size_y) := ch_size in
  ch_count_x <- floor_div im_rect_size_x ch_size_x ;;
  ch_count_y <- floor_div im_rect_size_y ch_size_y ;;
  for_each
    (fun ch_list ch_y =>
       for_each
         (fun ch_list ch_x =>
            ch <- Char_init im_pixels
                    (im_rect_x + ch_x * ch_size_x,
                     im_rect_y + ch_y * ch_size_y,
                     ch_size_x, ch_size_y) ;;
            Ok (ch_list ++ [ch]))
         (range 0 ch_count_x) ch_list)
    (range 0 ch_count_y) [].

(** [pack_font]: the content of the output file, or the exception. *)
Definition pack_font (im_pixels : pixel_access) (ch_size : Z * Z)
  (im_rect : rect) : result (list Z) :=
  ch_list <- ch_list_of im_pixels ch_size im_rect ;;
  st <- pack_chars ch_list ;;
  Ok (fst st ++ snd st).

End PIL.

(** ** A reference decoder, written from the description of the format *)

(** Header byte 0: width in the low nibble, height in the high nibble. *)
Definition decode_size (byte0 : Z) : Z * Z :=
  (Z.land byte0 15, Z.shiftr byte0 4).

(** [n] rows, each one byte, or two bytes little-endian when [wide]. *)
Fixpoint decode_rows (wide : bool) (n : nat) (bitmap : list Z) : list Z :=
  match n with
  | O => []
  | S n' =>
      if wide then
        match bitmap with
        | lo :: hi :: rest => Z.lor lo (Z.shiftl hi 8) :: decode_rows wide n' rest
        | _ => []
        end
      else
        match bitmap with
        | b :: rest => b :: decode_rows wide n' rest
        | [] => []
        end
  end.

(** The decoded glyph: width, height and row bitmasks. *)
Definition decode_glyph (header bitmap : list Z) : option (Z * Z * list Z) :=
  match header with
  | byte0 :: _ =>
      let '(w, h) := decode_size byte0 in
      Some (w, h, decode_rows (w >? 8) (Z.to_nat h) bitmap)
  | [] => None
  end.

(** The offset field of record [i] of a header table: bytes 2 and 3 of the
    record, little-endian. *)
Definition offset_field (ch_headers : list Z) (i : nat) : Z :=
  nth (4 * i + 2) ch_headers 0 + 256 * nth (4 * i + 3) ch_headers 0.

(** ** Notions used to state the properties *)

(** The shape shared by the three scanning loops of [__init__]: the
    elements [b] that satisfy [P] contribute their key [k b] to a running
    minimum and a running exclusive maximum. *)
Definition minmax_step {B : Type} (P : B -> bool) (k : B -> Z)
  (acc : Z * Z) (b : B) : Z * Z :=
  if P b then (Z.min (fst acc) (k b), Z.max (snd acc) (k b + 1)) else acc.

Definition minmax {B : Type} (P : B -> bool) (k : B -> Z)
  (l : list B) (acc : Z * Z) : Z * Z :=
  fold_left (minmax_step P k) l acc.

Definition ink (im_pixels : pixels) (p : Z * Z) : bool :=
  im_pixels (fst p) (snd p).

(** The pixels of the cell, in the order the nested loops visit them. *)
Definition cell_pixels (self : Char) : list (Z * Z) :=
  flat_map
    (fun px_x => map (pair px_x) (range (im_rect_y self) (im_rect_y_max self)))
    (range (im_rect_x self) (im_rect_x_max self)).

Definition in_cell (r : rect) (px py : Z) : Prop :=
  let '(rx, ry, sx, sy) := r in
  rx <= px < rx + sx /\ ry <= py < ry + sy.

Definition ink_at (im_pixels : pixels) (r : rect) (px py : Z) : Prop :=
  in_cell r px py /\ im_pixels px py = true.

Definition no_ink (im_pixels : pixels) (r : rect) : Prop :=
  forall px py, in_cell r px py -> im_pixels px py = false.

(** The attributes of the cell, which no loop of [__init__] assigns. *)
Definition same_rect (c0 self : Char) : Prop :=
  im_rect_x self = im_rect_x c0 /\ im_rect_x_max self = im_rect_x_max c0 /\
  im_rect_y self = im_rect_y c0 /\ im_rect_y_max self = im_rect_y_max c0.

(** The positions inside the cell of a glyph. *)
Definition in_rect_of (c0 : Char) (px py : Z) : Prop :=
  im_rect_x c0 <= px < im_rect_x_max c0 /\
  im_rect_y c0 <= py < im_rect_y_max c0.

(** Every pixel of the rectangle can be read, and reads as [ink] shows it. *)
Definition reads (im_pixels : PIL.pixel_access) (r : rect) (ink : pixels)
  : Prop :=
  forall px py, in_cell r px py -> im_pixels px py = Ok (ink px py).

(** What an access shows where it can be read. *)
Definition ink_of (im_pixels : PIL.pixel_access) : pixels :=
  fun px py =>
    match im_pixels px py with
    | Ok p => p
    | Raise _ => false
    end.

(** Operands for which [math.floor(a / b)], computed through a float, is the
    floor of the exact quotient: both below [2 ^ 53] in magnitude, the
    divisor positive. *)
Definition float_exact (a b : Z) : Prop :=
  Z.abs a < 2 ^ 53 /\ 0 < b < 2 ^ 53.

(** The tight bounding box of the ink of a cell, maxima exclusive. *)
Definition tight_box (im_pixels : pixels) (r : rect) (xm xM ym yM : Z) : Prop :=
  (exists py, ink_at im_pixels r xm py) /\
  (exists py, ink_at im_pixels r (xM - 1) py) /\
  (exists px, ink_at im_pixels r px ym) /\
  (exists px, ink_at im_pixels r px (yM - 1)) /\
  (forall px py, ink_at im_pixels r px py -> xm <= px < xM /\ ym <= py < yM).

(** The vertical extent of the ink of one column of a cell. *)
Definition edge_extent (im_pixels : pixels) (r : rect) (col ym yM : Z) : Prop :=
  ink_at im_pixels r col ym /\
  ink_at im_pixels r col (yM - 1) /\
  (forall py, ink_at im_pixels r col py -> ym <= py < yM).

(** The glyph as it stands after the three scanning loops. *)
Definition scanned (r : rect) (xm xM ym yM mf Mf ml Ml : Z) : Char :=
  let '(rx, ry, sx, sy) := r in
  mkChar rx ry sx sy (rx + sx) (ry + sy) xm xM ym yM mf Mf ml Ml [].

(** The bytes a glyph contributes to the bitmap region: its encoded rows,
    and nothing when it is blank. *)
Definition bitmap_bytes (ch : Char) : list Z :=
  if is_blank ch then []
  else match encode_rows ch with
       | Ok r => r
       | Raise _ => []
       end.

(** The sum of the encoded bitmap lengths of the glyphs of a list. *)
Fixpoint bitmap_len (l : list Char) : Z :=
  match l with
  | [] => 0
  | ch :: l' => len (bitmap_bytes ch) + bitmap_len l'
  end.

(** The 4-byte record of a glyph whose offset field holds [off]. *)
Definition record_of (ch : Char) (off : Z) : list Z :=
  [header_byte0 ch; header_byte1 ch; Z.land off 255; Z.shiftr off 8].

(** The header table of a list of glyphs when the bitmap region already
    holds [pos] bytes and the table is [hl] bytes long. *)
Fixpoint table (hl pos : Z) (l : list Char) : list Z :=
  match l with
  | [] => []
  | ch :: l' =>
      record_of ch (if is_blank ch then 0 else pos + hl) ++
      table hl (pos + len (bitmap_bytes ch)) l'
  end.

(** A loop that constructs one value per element and appends it, or
    raises at the first element whose construction raises. *)
Fixpoint map_result {A B : Type} (f : A -> result B) (l : list A)
  : result (list B) :=
  match l with
  | [] => Ok []
  | x :: l' => c <- f x ;; cs <- map_result f l' ;; Ok (c :: cs)
  end.

(** The cell at column [cx] and row [cy] of the grid. *)
Definition cell_rect (ch_size : Z * Z) (im_rect : rect) (cx cy : Z) : rect :=
  let '(x, y, _, _) := im_rect in
  let '(sx, sy) := ch_size in
  (x + cx * sx, y + cy * sy, sx, sy).

(** The grid positions [(cx, cy)] in row-major order. *)
Definition grid_cells (nx ny : Z) : list (Z * Z) :=
  flat_map (fun cy => map (fun cx => (cx, cy)) (range 0 nx)) (range 0 ny).

(** ** A reader of the packed font, written from the description of the format *)

(** Glyph [i] of a packed font: width and height from byte 0 of its record,
    and, unless the offset field is 0, its rows read at that offset. *)
Definition decode_font_glyph (blob : list Z) (i : nat) : Z * Z * list Z :=
  let '(w, h) := decode_size (nth (4 * i) blob 0) in
  let off := offset_field blob i in
  if off =? 0 then (w, h, [])
  else (w, h, decode_rows (w >? 8) (Z.to_nat h) (skipn (Z.to_nat off) blob)).

(** A function applied to the value of a result. *)
Definition map_ok {A B : Type} (g : A -> B) (m : result A) : result B :=
  match m with
  | Ok a => Ok (g a)
  | Raise e => Raise e
  end.

(** An image moved by [(dx, dy)], and a glyph whose coordinates moved so. *)
Definition shift_image (dx dy : Z) (im_pixels : pixels) : pixels :=
  fun px py => im_pixels (px - dx) (py - dy).

Definition shift_char (dx dy : Z) (self : Char) : Char :=
  mkChar (im_rect_x self + dx) (im_rect_y self + dy)
    (im_rect_x_size self) (im_rect_y_size self)
    (im_rect_x_max self + dx) (im_rect_y_max self + dy)
    (x_min self + dx) (x_max self + dx) (y_min self + dy) (y_max self + dy)
    (y_min_first self + dy) (y_max_first self + dy)
    (y_min_last self + dy) (y_max_last self + dy)
    (rows self).

(** ** Concrete images used in examples *)

Definition blank_image : pixels := fun _ _ => false.
Definition dot_image (x y : Z) : pixels := fun px py => (px =? x) && (py =? y).
Definition dots_image (l : list (Z * Z)) : pixels :=
  fun px py => existsb (fun p => (fst p =? px) && (snd p =? py)) l.

(** The access of a loaded image of [size_x] by [size_y] pixels that shows
    [ink], for indices that fit a machine integer: a negative index counts
    from the far edge, and an index outside the image raises [IndexError]. *)
Definition loaded_image (size_x size_y : Z) (ink : pixels)
  : PIL.pixel_access :=
  fun x y =>
    let x := if x <? 0 then size_x + x else x in
    let y := if y <? 0 then size_y + y else y in
    if (x <? 0) || (size_x <=? x) || (y <? 0) || (size_y <=? y)
    then Raise IndexError
    else Ok (ink x y).

(** * Properties *)

(** ** The model at work *)

(** One ink pixel at the top left of an 8x12 cell: a 1x1 glyph, header
    [11 90], offset 4, one row byte. *)
Example single_pixel_font :
  pack_font (dot_image 0 0) (8, 12) (0, 0, 8, 12) = Ok [17; 144; 4; 0; 1].
Proof. vm_compute. reflexivity. Qed.

(** Ink at the two ends of a diagonal 9 columns wide: rows of two bytes. *)
Example wide_glyph_font :
  pack_font (dots_image [(0, 0); (8, 1)]) (12, 12) (0, 0, 12, 12) =
  Ok [41; 144; 4; 0; 1; 0; 0; 1].
Proof. vm_compute. reflexivity. Qed.

(** A cell of width 0 divides by zero; an oversize glyph is refused. *)
Example zero_cell_font :
  pack_font blank_image (0, 12) (0, 0, 8, 12) = Raise ZeroDivisionError.
Proof. reflexivity. Qed.

Example oversize_glyph_font :
  pack_font (dots_image [(0, 0); (12, 1)]) (16, 16) (0, 0, 16, 16) =
  Raise (ValueError_size 13 2).
Proof. vm_compute. reflexivity. Qed.

(** A region that reaches past the edge of the image: reading the first
    pixel outside raises. *)
Example past_the_edge_font :
  PIL.pack_font (loaded_image 8 12 (dot_image 0 0)) (8, 12) (0, 0, 16, 12) =
  Raise IndexError.
Proof. vm_compute. reflexivity. Qed.

(** ** Lists, ranges and loops *)

Lemma range_length a b : length (range a b) = Z.to_nat (b - a).
Proof. unfold range. now rewrite length_map, length_seq. Qed.

Lemma In_range a b k : In k (range a b) <-> a <= k < b.
Proof.
  unfold range. rewrite in_map_iff. split.
  - intros (n & <- & Hn). apply in_seq in Hn. lia.
  - intros Hk. exists (Z.to_nat (k - a)). split; [lia|].
    apply in_seq. lia.
Qed.

Lemma range_nth a b n d :
  (n < Z.to_nat (b - a))%nat -> nth n (range a b) d = a + Z.of_nat n.
Proof.
  intros Hn. unfold range.
  rewrite nth_indep with (d' := a + Z.of_nat 0)
    by now rewrite length_map, length_seq.
  change (a + Z.of_nat 0) with ((fun k => a + Z.of_nat k) 0%nat).
  rewrite map_nth, seq_nth by assumption. reflexivity.
Qed.

(** A projection that the loop body leaves alone is left alone by the loop. *)
Lemma fold_left_keeps {A B C : Type} (f : A -> B -> A) (p : A -> C) :
  (forall a b, p (f a b) = p a) ->
  forall l a, p (fold_left f l a) = p a.
Proof.
  intros Hf l. induction l as [|b l IH]; intros a; simpl; [reflexivity|].
  now rewrite IH.
Qed.

(** A loop whose body returns, on the states it meets, what a pure step
    gives is the fold of that step. *)
Lemma for_each_pure {A B : Type} (P : A -> Prop) (body : A -> B -> result A)
  (f : A -> B -> A) (l : list B) :
  (forall a x, P a -> In x l -> body a x = Ok (f a x) /\ P (f a x)) ->
  forall a, P a ->
  for_each body l a = Ok (fold_left f l a) /\ P (fold_left f l a).
Proof.
  induction l as [|x l IH]; intros H a Ha; cbn [for_each fold_left];
    [now split|].
  destruct (H a x Ha (or_introl eq_refl)) as [-> Hf]. cbn [bind].
  apply IH; [|exact Hf]. intros a' x' Ha' Hx'. apply H; [exact Ha'|now right].
Qed.

(** A loop that returns has run its body, with a result, on every element. *)
Lemma for_each_Ok_visits {A B : Type} (P : A -> Prop)
  (body : A -> B -> result A) (l : list B) :
  (forall a x a', P a -> In x l -> body a x = Ok a' -> P a') ->
  forall a a', P a -> for_each body l a = Ok a' ->
  P a' /\ forall x, In x l -> exists a0 a1, P a0 /\ body a0 x = Ok a1.
Proof.
  induction l as [|x l IH]; intros H a a' Ha E; cbn [for_each] in E.
  - injection E as <-. split; [exact Ha|intros x []].
  - destruct (body a x) as [a1|e] eqn:Hx; cbn [bind] in E; [|discriminate].
    destruct (IH (fun b y b' Hb Hy => H b y b' Hb (or_intror Hy)) a1 a'
                (H a x a1 Ha (or_introl eq_refl) Hx) E) as [Ha' Hall].
    split; [exact Ha'|]. intros y [<-|Hy]; [now exists a, a1|now apply Hall].
Qed.

(** A loop that raises does so in its body, on one of the elements. *)
Lemma for_each_Raise_inv {A B : Type} (P : A -> Prop)
  (body : A -> B -> result A) (l : list B) (e : exception) :
  (forall a x a', P a -> In x l -> body a x = Ok a' -> P a') ->
  forall a, P a -> for_each body l a = Raise e ->
  exists a0 x, P a0 /\ In x l /\ body a0 x = Raise e.
Proof.
  induction l as [|x l IH]; intros H a Ha E; cbn [for_each] in E;
    [discriminate|].
  destruct (body a x) as [a1|e'] eqn:Hx; cbn [bind] in E.
  - destruct (IH (fun b y b' Hb Hy => H b y b' Hb (or_intror Hy)) a1
                (H a x a1 Ha (or_introl eq_refl) Hx) E)
      as (a0 & y & Ha0 & Hy & Hb).
    exists a0, y. split; [exact Ha0|]. split; [now right|exact Hb].
  - injection E as ->. exists a, x. split; [exact Ha|]. split; [now left|exact Hx].
Qed.

(** Two bodies that agree on the states the loop meets give the same loop. *)
Lemma for_each_ext_inv {A B : Type} (P : A -> Prop)
  (f g : A -> B -> result A) (l : list B) :
  (forall a x, P a -> In x l -> f a x = g a x) ->
  (forall a x a', P a -> In x l -> f a x = Ok a' -> P a') ->
  forall a, P a -> for_each f l a = for_each g l a.
Proof.
  induction l as [|x l IH]; intros Hfg H a Ha; cbn [for_each]; [reflexivity|].
  rewrite <- (Hfg a x Ha (or_introl eq_refl)).
  destruct (f a x) as [a1|e] eqn:Hx; cbn [bind]; [|reflexivity].
  apply IH.
  - intros b y Hb Hy. apply Hfg; [exact Hb|now right].
  - intros b y b' Hb Hy. apply H; [exact Hb|now right].
  - exact (H a x a1 Ha (or_introl eq_refl) Hx).
Qed.

(** ** Accumulating a minimum and an exclusive maximum *)

Section MinMax.
Context {B : Type} (P : B -> bool) (k : B -> Z).

Lemma minmax_step_mono acc b :
  fst (minmax_step P k acc b) <= fst acc /\
  snd acc <= snd (minmax_step P k acc b).
Proof. unfold minmax_step. destruct (P b); simpl; lia. Qed.

Lemma minmax_step_hit acc b :
  P b = true ->
  minmax_step P k acc b = (Z.min (fst acc) (k b), Z.max (snd acc) (k b + 1)).
Proof. unfold minmax_step. now intros ->. Qed.

Lemma minmax_step_miss acc b : P b = false -> minmax_step P k acc b = acc.
Proof. unfold minmax_step. now intros ->. Qed.

Lemma minmax_cons b l acc :
  minmax P k (b :: l) acc = minmax P k l (minmax_step P k acc b).
Proof. reflexivity. Qed.

Lemma minmax_mono l : forall acc,
  fst (minmax P k l acc) <= fst acc /\ snd acc <= snd (minmax P k l acc).
Proof.
  induction l as [|b l IH]; intros acc; [simpl; lia|].
  rewrite minmax_cons.
  pose proof (IH (minmax_step P k acc b)).
  pose proof (minmax_step_mono acc b). lia.
Qed.

Lemma minmax_covers l : forall acc b,
  In b l -> P b = true ->
  fst (minmax P k l acc) <= k b < snd (minmax P k l acc).
Proof.
  induction l as [|b0 l IH]; intros acc b Hin Hb; [easy|].
  rewrite minmax_cons. destruct Hin as [->|Hin]; [|now apply IH].
  pose proof (minmax_mono l (minmax_step P k acc b)) as Hm.
  assert (fst (minmax_step P k acc b) <= k b < snd (minmax_step P k acc b))
    by (rewrite (minmax_step_hit acc b Hb); simpl; lia).
  lia.
Qed.

Lemma minmax_none l : forall acc,
  (forall b, In b l -> P b = false) -> minmax P k l acc = acc.
Proof.
  induction l as [|b l IH]; intros acc Hl; [reflexivity|].
  rewrite minmax_cons, minmax_step_miss by (apply Hl; now left).
  apply IH. intros; apply Hl; now right.
Qed.

Lemma minmax_attained l : forall acc,
  (fst (minmax P k l acc) = fst acc \/
   exists b, In b l /\ P b = true /\ k b = fst (minmax P k l acc)) /\
  (snd (minmax P k l acc) = snd acc \/
   exists b, In b l /\ P b = true /\ k b + 1 = snd (minmax P k l acc)).
Proof.
  induction l as [|b l IH]; intros acc; [simpl; auto|].
  rewrite minmax_cons.
  destruct (IH (minmax_step P k acc b)) as [Hlo Hhi].
  assert (Hin : forall b', In b' l -> In b' (b :: l)) by (intros; now right).
  destruct (P b) eqn:Hb.
  - assert (E1 : fst (minmax_step P k acc b) = Z.min (fst acc) (k b))
      by now rewrite (minmax_step_hit acc b Hb).
    assert (E2 : snd (minmax_step P k acc b) = Z.max (snd acc) (k b + 1))
      by now rewrite (minmax_step_hit acc b Hb).
    split.
    + destruct Hlo as [Hlo|(b' & ? & ? & ?)]; [|right; exists b'; auto].
      rewrite E1 in Hlo.
      destruct (Z.min_spec (fst acc) (k b)) as [[_ E]|[_ E]];
        rewrite E in Hlo; [now left|].
      right; exists b; repeat split; auto. now left.
    + destruct Hhi as [Hhi|(b' & ? & ? & ?)]; [|right; exists b'; auto].
      rewrite E2 in Hhi.
      destruct (Z.max_spec (snd acc) (k b + 1)) as [[_ E]|[_ E]];
        rewrite E in Hhi; [|now left].
      right; exists b; repeat split; auto. now left.
  - rewrite (minmax_step_miss acc b Hb) in *. split.
    + destruct Hlo as [Hlo|(b' & ? & ? & ?)];
        [now left|right; exists b'; auto].
    + destruct Hhi as [Hhi|(b' & ? & ? & ?)];
        [now left|right; exists b'; auto].
Qed.
End MinMax.

(** ** The scanning loops in closed form *)

Lemma In_cell_pixels self px py :
  In (px, py) (cell_pixels self) <->
  im_rect_x self <= px < im_rect_x_max self /\
  im_rect_y self <= py < im_rect_y_max self.
Proof.
  unfold cell_pixels. rewrite in_flat_map. split.
  - intros (x & Hx & Hin). apply in_map_iff in Hin as (y & E & Hy).
    inversion E; subst. apply In_range in Hx, Hy. auto.
  - intros [Hx Hy]. exists px. split; [now apply In_range|].
    apply in_map. now apply In_range.
Qed.

Lemma set_box_id self :
  set_box (x_min self) (x_max self) (y_min self) (y_max self) self = self.
Proof. now destruct self. Qed.

Lemma set_first_id self :
  set_first (y_min_first self) (y_max_first self) self = self.
Proof. now destruct self. Qed.

Lemma set_last_id self :
  set_last (y_min_last self) (y_max_last self) self = self.
Proof. now destruct self. Qed.

Lemma set_rows_id self : set_rows (rows self) self = self.
Proof. now destruct self. Qed.

Section Scans.
Variable im_pixels : pixels.

Lemma scan_pixels_closed (l : list (Z * Z)) : forall self,
  fold_left (fun self p => scan_pixel im_pixels (fst p) self (snd p)) l self =
  set_box
    (fst (minmax (ink im_pixels) fst l (x_min self, x_max self)))
    (snd (minmax (ink im_pixels) fst l (x_min self, x_max self)))
    (fst (minmax (ink im_pixels) snd l (y_min self, y_max self)))
    (snd (minmax (ink im_pixels) snd l (y_min self, y_max self)))
    self.
Proof.
  induction l as [|p l IH]; intros self.
  - simpl. symmetry. apply set_box_id.
  - cbn [fold_left]. rewrite IH, !minmax_cons. unfold scan_pixel.
    destruct (im_pixels (fst p) (snd p)) eqn:Hp.
    + rewrite !minmax_step_hit by exact Hp. reflexivity.
    + rewrite !minmax_step_miss by exact Hp. reflexivity.
Qed.

Lemma scan_column_keeps_rect px_x ys self :
  let self' := fold_left (scan_pixel im_pixels px_x) ys self in
  im_rect_y self' = im_rect_y self /\
  im_rect_y_max self' = im_rect_y_max self.
Proof.
  split.
  - apply (fold_left_keeps _ im_rect_y). intros a b. unfold scan_pixel.
    now destruct (im_pixels px_x b).
  - apply (fold_left_keeps _ im_rect_y_max). intros a b. unfold scan_pixel.
    now destruct (im_pixels px_x b).
Qed.

Lemma scan_columns_flat (xs : list Z) (ry ry_max : Z) : forall self,
  im_rect_y self = ry -> im_rect_y_max self = ry_max ->
  fold_left
    (fun self px_x =>
       fold_left (scan_pixel im_pixels px_x)
         (range (im_rect_y self) (im_rect_y_max self)) self)
    xs self =
  fold_left (fun self p => scan_pixel im_pixels (fst p) self (snd p))
    (flat_map (fun px_x => map (pair px_x) (range ry ry_max)) xs) self.
Proof.
  induction xs as [|px xs IH]; intros self Hy HY; [reflexivity|].
  cbn [fold_left flat_map]. rewrite fold_left_app.
  assert (E : forall ys c,
    fold_left (fun self p => scan_pixel im_pixels (fst p) self (snd p))
      (map (pair px) ys) c =
    fold_left (scan_pixel im_pixels px) ys c).
  { induction ys as [|y ys IHy]; intros c; [reflexivity|]. simpl.
    apply IHy. }
  rewrite E, Hy, HY.
  destruct (scan_column_keeps_rect px (range ry ry_max) self) as [K1 K2].
  apply IH; congruence.
Qed.

Lemma scan_box_closed self :
  scan_box im_pixels self =
  set_box
    (fst (minmax (ink im_pixels) fst (cell_pixels self) (x_min self, x_max self)))
    (snd (minmax (ink im_pixels) fst (cell_pixels self) (x_min self, x_max self)))
    (fst (minmax (ink im_pixels) snd (cell_pixels self) (y_min self, y_max self)))
    (snd (minmax (ink im_pixels) snd (cell_pixels self) (y_min self, y_max self)))
    self.
Proof.
  unfold scan_box.
  rewrite (scan_columns_flat _ (im_rect_y self) (im_rect_y_max self))
    by reflexivity.
  apply scan_pixels_closed.
Qed.

Lemma scan_first_closed self :
  scan_first im_pixels self =
  set_first
    (fst (minmax (im_pixels (x_min self)) (fun y => y)
            (range (im_rect_y self) (im_rect_y_max self))
            (y_min_first self, y_max_first self)))
    (snd (minmax (im_pixels (x_min self)) (fun y => y)
            (range (im_rect_y self) (im_rect_y_max self))
            (y_min_first self, y_max_first self)))
    self.
Proof.
  unfold scan_first.
  generalize (range (im_rect_y self) (im_rect_y_max self)) as l.
  intros l. revert self.
  induction l as [|y l IH]; intros self.
  - simpl. symmetry. apply set_first_id.
  - cbn [fold_left]. rewrite IH, minmax_cons.
    destruct (im_pixels (x_min self) y) eqn:Hy.
    + rewrite minmax_step_hit by exact Hy. reflexivity.
    + rewrite minmax_step_miss by exact Hy. reflexivity.
Qed.

Lemma scan_last_closed self :
  scan_last im_pixels self =
  set_last
    (fst (minmax (im_pixels (x_max self - 1)) (fun y => y)
            (range (im_rect_y self) (im_rect_y_max self))
            (y_min_last self, y_max_last self)))
    (snd (minmax (im_pixels (x_max self - 1)) (fun y => y)
            (range (im_rect_y self) (im_rect_y_max self))
            (y_min_last self, y_max_last self)))
    self.
Proof.
  unfold scan_last.
  generalize (range (im_rect_y self) (im_rect_y_max self)) as l.
  intros l. revert self.
  induction l as [|y l IH]; intros self.
  - simpl. symmetry. apply set_last_id.
  - cbn [fold_left]. rewrite IH, minmax_cons.
    destruct (im_pixels (x_max self - 1) y) eqn:Hy.
    + rewrite minmax_step_hit by exact Hy. reflexivity.
    + rewrite minmax_step_miss by exact Hy. reflexivity.
Qed.

Lemma build_rows_closed self :
  build_rows im_pixels self =
  set_rows
    (rows self ++
     map (build_row im_pixels (x_min self) (x_max self))
       (range (y_min self) (y_max self)))
    self.
Proof.
  unfold build_rows.
  generalize (range (y_min self) (y_max self)) as l.
  intros l. revert self.
  induction l as [|y l IH]; intros self.
  - simpl. rewrite app_nil_r. symmetry. apply set_rows_id.
  - cbn [fold_left map]. rewrite IH. cbn [set_rows rows x_min x_max].
    rewrite <- app_assoc. reflexivity.
Qed.
End Scans.

(** ** What the scans compute, in terms of the image alone *)

Lemma tight_box_unique im_pixels r a b c d a' b' c' d' :
  tight_box im_pixels r a b c d -> tight_box im_pixels r a' b' c' d' ->
  a = a' /\ b = b' /\ c = c' /\ d = d'.
Proof.
  intros ((y1 & H1) & (y2 & H2) & (x3 & H3) & (x4 & H4) & H)
         ((y1' & H1') & (y2' & H2') & (x3' & H3') & (x4' & H4') & H').
  pose proof (H _ _ H1'). pose proof (H _ _ H2').
  pose proof (H _ _ H3'). pose proof (H _ _ H4').
  pose proof (H' _ _ H1). pose proof (H' _ _ H2).
  pose proof (H' _ _ H3). pose proof (H' _ _ H4). lia.
Qed.

Lemma tight_box_bounds im_pixels rx ry sx sy xm xM ym yM :
  tight_box im_pixels (rx, ry, sx, sy) xm xM ym yM ->
  rx <= xm < xM /\ xM <= rx + sx /\ ry <= ym < yM /\ yM <= ry + sy.
Proof.
  intros ((y1 & H1) & (y2 & H2) & (x3 & H3) & (x4 & H4) & H).
  pose proof (H _ _ H1).
  destruct H1 as [[? ?] _], H2 as [[? ?] _], H3 as [[? ?] _], H4 as [[? ?] _].
  lia.
Qed.

Lemma edge_extent_bounds im_pixels r xm xM ym yM col m M :
  tight_box im_pixels r xm xM ym yM ->
  edge_extent im_pixels r col m M ->
  ym <= m < M /\ M <= yM.
Proof.
  intros (_ & _ & _ & _ & H) (H1 & H2 & H3).
  pose proof (H _ _ H1). pose proof (H _ _ H2). pose proof (H3 _ H1). lia.
Qed.

Section ScanSpec.
Variable im_pixels : pixels.

(** The edge loops, started from the inverted full-cell extent. *)
Lemma column_extent rx ry sx sy col :
  (exists py, ink_at im_pixels (rx, ry, sx, sy) col py) ->
  let acc := minmax (im_pixels col) (fun y => y) (range ry (ry + sy))
               (ry + sy, ry) in
  edge_extent im_pixels (rx, ry, sx, sy) col (fst acc) (snd acc).
Proof.
  intros (py & [Hx Hy] & Hpy) acc.
  assert (Hin : In py (range ry (ry + sy))) by now apply In_range.
  pose proof (minmax_covers (im_pixels col) (fun y => y) _ (ry + sy, ry)
                py Hin Hpy) as Hc.
  destruct (minmax_attained (im_pixels col) (fun y => y)
              (range ry (ry + sy)) (ry + sy, ry)) as [Hlo Hhi].
  change (minmax (im_pixels col) (fun y => y) (range ry (ry + sy))
            (ry + sy, ry)) with acc in Hc, Hlo, Hhi.
  cbn [fst snd] in Hlo, Hhi. cbv beta in Hc.
  assert (Hm : ry <= fst acc < ry + sy /\ im_pixels col (fst acc) = true).
  { destruct Hlo as [E|(b & Hb & Hbi & E)]; [lia|].
    apply In_range in Hb. rewrite <- E. split; [lia|exact Hbi]. }
  assert (HM : ry <= snd acc - 1 < ry + sy /\
               im_pixels col (snd acc - 1) = true).
  { destruct Hhi as [E|(b & Hb & Hbi & E)]; [lia|].
    apply In_range in Hb. replace (snd acc - 1) with b by lia.
    split; [lia|exact Hbi]. }
  unfold edge_extent, ink_at, in_cell.
  split; [tauto|]. split; [tauto|].
  intros py0 [[_ Hy0] Hi].
  apply (minmax_covers (im_pixels col) (fun y => y) _ (ry + sy, ry) py0);
    [now apply In_range|exact Hi].
Qed.

(** The bounding-box loops on a freshly initialised glyph. *)
Lemma scan_box_cases (r : rect) :
  let self := scan_box im_pixels (Char_attrs r) in
  (no_ink im_pixels r /\ self = Char_attrs r) \/
  (tight_box im_pixels r (x_min self) (x_max self) (y_min self) (y_max self) /\
   self = set_box (x_min self) (x_max self) (y_min self) (y_max self)
            (Char_attrs r)).
Proof.
  destruct r as [[[rx ry] sx] sy]. intros self.
  set (c0 := Char_attrs (rx, ry, sx, sy)) in *.
  assert (Hcell : forall px py,
    In (px, py) (cell_pixels c0) <-> in_cell (rx, ry, sx, sy) px py).
  { intros. apply In_cell_pixels. }
  pose proof (scan_box_closed im_pixels c0) as Hclosed. fold self in Hclosed.
  set (X := minmax (ink im_pixels) fst (cell_pixels c0) (x_min c0, x_max c0))
    in *.
  set (Y := minmax (ink im_pixels) snd (cell_pixels c0) (y_min c0, y_max c0))
    in *.
  destruct (existsb (ink im_pixels) (cell_pixels c0)) eqn:Hex.
  - right.
    assert (Ex : x_min self = fst X) by now rewrite Hclosed.
    assert (EX : x_max self = snd X) by now rewrite Hclosed.
    assert (Ey : y_min self = fst Y) by now rewrite Hclosed.
    assert (EY : y_max self = snd Y) by now rewrite Hclosed.
    split; [|now rewrite Ex, EX, Ey, EY].
    apply existsb_exists in Hex as ([qx qy] & Hq & Hqi).
    assert (Hcov : forall px py, ink_at im_pixels (rx, ry, sx, sy) px py ->
              fst X <= px < snd X /\ fst Y <= py < snd Y).
    { intros px py [Hc Hi]. apply Hcell in Hc. split.
      - apply (minmax_covers (ink im_pixels) fst _ _ (px, py) Hc Hi).
      - apply (minmax_covers (ink im_pixels) snd _ _ (px, py) Hc Hi). }
    assert (Hqc : ink_at im_pixels (rx, ry, sx, sy) qx qy)
      by (split; [now apply Hcell|exact Hqi]).
    pose proof (Hcov _ _ Hqc) as Hqb. destruct Hqc as [[Hqx Hqy] _].
    destruct (minmax_attained (ink im_pixels) fst (cell_pixels c0)
                (x_min c0, x_max c0)) as [Hxlo Hxhi].
    destruct (minmax_attained (ink im_pixels) snd (cell_pixels c0)
                (y_min c0, y_max c0)) as [Hylo Hyhi].
    fold X in Hxlo, Hxhi. fold Y in Hylo, Hyhi.
    simpl in Hxlo, Hxhi, Hylo, Hyhi.
    rewrite Ex, EX, Ey, EY.
    split; [|split; [|split; [|split]]].
    + destruct Hxlo as [E|([bx by_] & Hb & Hbi & E)]; [lia|].
      simpl in E. subst bx. exists by_. split; [now apply Hcell|exact Hbi].
    + destruct Hxhi as [E|([bx by_] & Hb & Hbi & E)]; [lia|].
      simpl in E. exists by_. replace (snd X - 1) with bx by lia.
      split; [now apply Hcell|exact Hbi].
    + destruct Hylo as [E|([bx by_] & Hb & Hbi & E)]; [lia|].
      simpl in E. subst by_. exists bx. split; [now apply Hcell|exact Hbi].
    + destruct Hyhi as [E|([bx by_] & Hb & Hbi & E)]; [lia|].
      simpl in E. exists bx. replace (snd Y - 1) with by_ by lia.
      split; [now apply Hcell|exact Hbi].
    + exact Hcov.
  - left.
    assert (Hnone : forall p, In p (cell_pixels c0) -> ink im_pixels p = false).
    { intros p Hp. destruct (ink im_pixels p) eqn:Hi; [|reflexivity].
      assert (existsb (ink im_pixels) (cell_pixels c0) = true)
        by (apply existsb_exists; eauto).
      congruence. }
    split.
    + intros px py Hc. apply Hcell in Hc. exact (Hnone _ Hc).
    + rewrite Hclosed. unfold X, Y. rewrite !minmax_none by exact Hnone.
      reflexivity.
Qed.
End ScanSpec.

(** ** The two ways through [__init__] *)

Lemma Char_init_cases (im_pixels : pixels) (rx ry sx sy : Z) :
  let r := (rx, ry, sx, sy) in
  0 <= sx ->
  (no_ink im_pixels r /\ Char_init im_pixels r = Ok (Char_attrs r)) \/
  (exists xm xM ym yM mf Mf ml Ml,
     tight_box im_pixels r xm xM ym yM /\
     edge_extent im_pixels r xm mf Mf /\
     edge_extent im_pixels r (xM - 1) ml Ml /\
     Char_init im_pixels r =
       let self := scanned r xm xM ym yM mf Mf ml Ml in
       check_size self ;;; check_asserts self ;;;
       Ok (build_rows im_pixels self)).
Proof.
  intros r Hsx. unfold Char_init. cbv zeta.
  destruct (scan_box_cases im_pixels r) as [[Hno ->]|[Hbox Hself]].
  - left. split; [exact Hno|]. cbn [Char_attrs r x_max x_min].
    replace (rx <=? rx + sx) with true by (symmetry; apply Z.leb_le; lia).
    reflexivity.
  - right.
    set (self := scan_box im_pixels (Char_attrs r)) in *.
    set (xm := x_min self) in *. set (xM := x_max self) in *.
    set (ym := y_min self) in *. set (yM := y_max self) in *.
    pose proof (tight_box_bounds _ _ _ _ _ _ _ _ _ Hbox) as Hb.
    pose proof Hbox as (H1 & H2 & _).
    pose proof (column_extent im_pixels rx ry sx sy xm H1) as Hf.
    pose proof (column_extent im_pixels rx ry sx sy (xM - 1) H2) as Hl.
    cbv zeta in Hf, Hl.
    exists xm, xM, ym, yM.
    eexists _, _, _, _.
    split; [exact Hbox|].
    split; [exact Hf|]. split; [exact Hl|].
    replace (xM <=? xm) with false by (symmetry; apply Z.leb_gt; lia).
    rewrite scan_last_closed, scan_first_closed, Hself.
    reflexivity.
Qed.

Lemma in_4bit_true v : 0 <= v < 16 -> in_4bit v = true.
Proof. intros H. unfold in_4bit. apply andb_true_iff. split; lia. Qed.

Lemma in_4bit_false v : 16 <= v -> in_4bit v = false.
Proof.
  intros H. unfold in_4bit. apply andb_false_iff. right. lia.
Qed.

Lemma check_size_ok self :
  x_max self - x_min self <= 12 -> y_max self - y_min self <= 12 ->
  check_size self = Ok tt.
Proof.
  intros Hw Hh. unfold check_size.
  replace (x_max self - x_min self >? 12) with false by lia.
  replace (y_max self - y_min self >? 12) with false by lia.
  reflexivity.
Qed.

Lemma check_size_raise self :
  x_max self - x_min self > 12 \/ y_max self - y_min self > 12 ->
  check_size self =
  Raise (ValueError_size (x_max self - x_min self) (y_max self - y_min self)).
Proof.
  intros H. unfold check_size.
  replace ((x_max self - x_min self >? 12) || (y_max self - y_min self >? 12))
    with true; [reflexivity|].
  symmetry. apply orb_true_iff. lia.
Qed.

(** Every way [__init__] can end, for a cell of non-negative width. *)
Lemma Char_init_outcome (im_pixels : pixels) (rx ry sx sy : Z) :
  let r := (rx, ry, sx, sy) in
  0 <= sx ->
  (no_ink im_pixels r /\ Char_init im_pixels r = Ok (Char_attrs r)) \/
  (exists xm xM ym yM mf Mf ml Ml,
     tight_box im_pixels r xm xM ym yM /\
     edge_extent im_pixels r xm mf Mf /\
     edge_extent im_pixels r (xM - 1) ml Ml /\
     ((xM - xm > 12 \/ yM - ym > 12) /\
      Char_init im_pixels r = Raise (ValueError_size (xM - xm) (yM - ym))
      \/
      xM - xm <= 12 /\ yM - ym <= 12 /\ 16 <= ym - ry /\
      Char_init im_pixels r = Raise AssertionError
      \/
      xM - xm <= 12 /\ yM - ym <= 12 /\ ym - ry < 16 /\
      Char_init im_pixels r =
        Ok (set_rows (map (build_row im_pixels xm xM) (range ym yM))
              (scanned r xm xM ym yM mf Mf ml Ml)))).
Proof.
  intros r Hsx.
  destruct (Char_init_cases im_pixels rx ry sx sy Hsx)
    as [H|(xm & xM & ym & yM & mf & Mf & ml & Ml & Hbox & Hf & Hl & E)];
    [now left|right].
  exists xm, xM, ym, yM, mf, Mf, ml, Ml.
  split; [exact Hbox|]. split; [exact Hf|]. split; [exact Hl|].
  fold r in E. rewrite E. cbv zeta.
  pose proof (tight_box_bounds _ _ _ _ _ _ _ _ _ Hbox) as Hb.
  pose proof (edge_extent_bounds _ _ _ _ _ _ _ _ _ Hbox Hf) as Hbf.
  pose proof (edge_extent_bounds _ _ _ _ _ _ _ _ _ Hbox Hl) as Hbl.
  set (self := scanned r xm xM ym yM mf Mf ml Ml).
  destruct (Z_le_gt_dec (xM - xm) 12) as [Hw|Hw];
    [destruct (Z_le_gt_dec (yM - ym) 12) as [Hh|Hh]|].
  - right. rewrite (check_size_ok self Hw Hh). cbn [bind].
    unfold check_asserts. cbn [self scanned r x_max x_min y_max y_min
      y_min_first y_max_first y_min_last y_max_last im_rect_y].
    rewrite !in_4bit_true by lia. cbn [assert_ bind].
    destruct (Z_lt_ge_dec (ym - ry) 16) as [Ho|Ho].
    + right. rewrite in_4bit_true by lia. cbn [assert_].
      repeat split; try assumption.
      rewrite build_rows_closed. reflexivity.
    + left. rewrite in_4bit_false by lia. cbn [assert_].
      repeat split; try assumption; lia.
  - left. split; [now right|]. rewrite check_size_raise by now right.
    reflexivity.
  - left. split; [now left|]. rewrite check_size_raise by now left.
    reflexivity.
Qed.

(** ** Construction with an access that may raise *)

Lemma PIL_scan_pixel_rect im_pixels c0 px_x self px_y self' :
  same_rect c0 self ->
  PIL.scan_pixel im_pixels px_x self px_y = Ok self' ->
  same_rect c0 self'.
Proof.
  unfold PIL.scan_pixel. intros H.
  destruct (im_pixels px_x px_y) as [[|]|e]; cbn [bind]; intros [= <-];
    exact H.
Qed.

Lemma PIL_scan_column_rect im_pixels c0 px_x ys self self' :
  same_rect c0 self ->
  for_each (PIL.scan_pixel im_pixels px_x) ys self = Ok self' ->
  same_rect c0 self'.
Proof.
  intros H E.
  apply (for_each_Ok_visits (same_rect c0) _ ys
           (fun a y a' Ha _ => PIL_scan_pixel_rect im_pixels c0 px_x a y a' Ha)
           self self' H E).
Qed.

(** With every pixel of the cell readable, the bounding-box loops are those
    over the ink that was read. *)
Lemma PIL_scan_box_reads im_pixels ink c0 :
  (forall px py, in_rect_of c0 px py -> im_pixels px py = Ok (ink px py)) ->
  PIL.scan_box im_pixels c0 = Ok (scan_box ink c0).
Proof.
  intros Hr. unfold PIL.scan_box, scan_box.
  refine (proj1 (for_each_pure (same_rect c0) _
           (fun self px_x =>
              fold_left (scan_pixel ink px_x)
                (range (im_rect_y self) (im_rect_y_max self)) self)
           _ _ c0 _)); [|now repeat split].
  intros a px_x Ha Hx. apply In_range in Hx.
  destruct Ha as (Ha1 & Ha2 & Ha3 & Ha4). rewrite Ha3, Ha4.
  apply (for_each_pure (same_rect c0)); [|now repeat split].
  intros b py Hb Hy. apply In_range in Hy.
  unfold PIL.scan_pixel, scan_pixel.
  rewrite (Hr px_x py) by (split; assumption). cbn [bind].
  split; [reflexivity|]. now destruct (ink px_x py).
Qed.

(** When the bounding-box loops return, every pixel of the cell was read. *)
Lemma PIL_scan_box_Ok_reads im_pixels c0 self :
  PIL.scan_box im_pixels c0 = Ok self ->
  forall px py, in_rect_of c0 px py -> exists p, im_pixels px py = Ok p.
Proof.
  intros E px py [Hx Hy]. unfold PIL.scan_box in E.
  assert (H0 : same_rect c0 c0) by now repeat split.
  destruct (for_each_Ok_visits (same_rect c0) _ _
              (fun a x a' Ha _ => PIL_scan_column_rect im_pixels c0 x _ a a' Ha)
              c0 self H0 E) as [_ Hall].
  destruct (Hall px (proj2 (In_range _ _ _) Hx)) as (a0 & a1 & Ha0 & E1).
  pose proof Ha0 as (_ & _ & E3 & E4). rewrite E3, E4 in E1.
  destruct (for_each_Ok_visits (same_rect c0) _ _
              (fun a y a' Ha _ => PIL_scan_pixel_rect im_pixels c0 px a y a' Ha)
              a0 a1 Ha0 E1) as [_ Hall'].
  destruct (Hall' py (proj2 (In_range _ _ _) Hy)) as (b0 & b1 & _ & E2).
  unfold PIL.scan_pixel in E2.
  destruct (im_pixels px py) as [p|e]; [now exists p|discriminate].
Qed.

(** When they raise, reading a pixel of the cell raised. *)
Lemma PIL_scan_box_Raise_inv im_pixels c0 e :
  PIL.scan_box im_pixels c0 = Raise e ->
  exists px py, in_rect_of c0 px py /\ im_pixels px py = Raise e.
Proof.
  intros E. unfold PIL.scan_box in E.
  assert (H0 : same_rect c0 c0) by now repeat split.
  destruct (for_each_Raise_inv (same_rect c0) _ _ e
              (fun a x a' Ha _ => PIL_scan_column_rect im_pixels c0 x _ a a' Ha)
              c0 H0 E) as (a0 & px & Ha0 & Hx & E1).
  pose proof Ha0 as (_ & _ & E3 & E4). rewrite E3, E4 in E1.
  destruct (for_each_Raise_inv (same_rect c0) _ _ e
              (fun a y a' Ha _ => PIL_scan_pixel_rect im_pixels c0 px a y a' Ha)
              a0 Ha0 E1) as (b0 & py & _ & Hy & E2).
  apply In_range in Hx, Hy. exists px, py. split; [now split|].
  unfold PIL.scan_pixel in E2.
  destruct (im_pixels px py) as [p|e']; cbn [bind] in E2; congruence.
Qed.

(** Two accesses that agree on the cell run the bounding-box loops alike. *)
Lemma PIL_scan_box_ext im1 im2 c0 :
  (forall px py, in_rect_of c0 px py -> im1 px py = im2 px py) ->
  PIL.scan_box im1 c0 = PIL.scan_box im2 c0.
Proof.
  intros Hag. unfold PIL.scan_box.
  apply (for_each_ext_inv (same_rect c0)); [| |now repeat split].
  - intros a px Ha Hx. apply In_range in Hx.
    pose proof Ha as (_ & _ & E3 & E4). rewrite E3, E4.
    apply (for_each_ext_inv (same_rect c0)); [| |exact Ha].
    + intros b py _ Hy. apply In_range in Hy. unfold PIL.scan_pixel.
      now rewrite (Hag px py) by (split; assumption).
    + intros b y b' Hb _. apply PIL_scan_pixel_rect. exact Hb.
  - intros a x a' Ha _. apply PIL_scan_column_rect. exact Ha.
Qed.

Lemma PIL_scan_first_reads im_pixels ink self :
  (forall py, im_rect_y self <= py < im_rect_y_max self ->
     im_pixels (x_min self) py = Ok (ink (x_min self) py)) ->
  PIL.scan_first im_pixels self = Ok (scan_first ink self).
Proof.
  intros Hr. unfold PIL.scan_first, scan_first.
  refine (proj1 (for_each_pure (fun a => x_min a = x_min self) _
           (fun a px_y =>
              if ink (x_min a) px_y then
                set_first (Z.min (y_min_first a) px_y)
                          (Z.max (y_max_first a) (px_y + 1)) a
              else a) _ _ self eq_refl)).
  intros a py Ha Hy. apply In_range in Hy. rewrite Ha.
  rewrite (Hr py Hy). cbn [bind]. split; [reflexivity|].
  destruct (ink (x_min self) py); exact Ha.
Qed.

Lemma PIL_scan_last_reads im_pixels ink self :
  (forall py, im_rect_y self <= py < im_rect_y_max self ->
     im_pixels (x_max self - 1) py = Ok (ink (x_max self - 1) py)) ->
  PIL.scan_last im_pixels self = Ok (scan_last ink self).
Proof.
  intros Hr. unfold PIL.scan_last, scan_last.
  refine (proj1 (for_each_pure (fun a => x_max a = x_max self) _
           (fun a px_y =>
              if ink (x_max a - 1) px_y then
                set_last (Z.min (y_min_last a) px_y)
                         (Z.max (y_max_last a) (px_y + 1)) a
              else a) _ _ self eq_refl)).
  intros a py Ha Hy. apply In_range in Hy. rewrite Ha.
  rewrite (Hr py Hy). cbn [bind]. split; [reflexivity|].
  destruct (ink (x_max self - 1) py); exact Ha.
Qed.

Lemma PIL_build_row_reads im_pixels ink xm xM py :
  (forall px, xm <= px < xM -> im_pixels px py = Ok (ink px py)) ->
  PIL.build_row im_pixels xm xM py = Ok (build_row ink xm xM py).
Proof.
  intros Hr. unfold PIL.build_row, build_row.
  rewrite (proj1 (for_each_pure (fun _ => True) (PIL.row_step im_pixels py)
                    (row_step ink py) (range xm xM)
                    ltac:(intros [row i] px _ Hx; apply In_range in Hx;
                          unfold PIL.row_step, row_step;
                          rewrite (Hr px Hx); now split)
                    (0, 0) I)).
  reflexivity.
Qed.

Lemma PIL_build_rows_reads im_pixels ink self :
  (forall px py, x_min self <= px < x_max self ->
     y_min self <= py < y_max self -> im_pixels px py = Ok (ink px py)) ->
  PIL.build_rows im_pixels self = Ok (build_rows ink self).
Proof.
  intros Hr. unfold PIL.build_rows, build_rows.
  refine (proj1 (for_each_pure
           (fun a => x_min a = x_min self /\ x_max a = x_max self) _
           (fun a px_y =>
              set_rows (rows a ++ [build_row ink (x_min a) (x_max a) px_y]) a)
           _ _ self (conj eq_refl eq_refl))).
  intros a py [Ha1 Ha2] Hy. apply In_range in Hy.
  rewrite (PIL_build_row_reads im_pixels ink (x_min a) (x_max a) py)
    by (intros px Hx; apply Hr; [lia|exact Hy]).
  cbn [bind]. split; [reflexivity|]. now split.
Qed.

(** With every pixel of the cell readable, [__init__] is the construction
    from the ink that was read. *)
Lemma PIL_Char_init_reads im_pixels ink rx ry sx sy :
  0 <= sx -> reads im_pixels (rx, ry, sx, sy) ink ->
  PIL.Char_init im_pixels (rx, ry, sx, sy) = Char_init ink (rx, ry, sx, sy).
Proof.
  intros Hsx Hr. unfold PIL.Char_init, Char_init. cbv zeta.
  rewrite (PIL_scan_box_reads im_pixels ink (Char_attrs (rx, ry, sx, sy)))
    by (intros px py Hc; apply Hr; exact Hc).
  cbn [bind].
  destruct (scan_box_cases ink (rx, ry, sx, sy)) as [[Hno E]|[Hbox Hself]].
  - rewrite E. cbn [Char_attrs x_max x_min].
    replace (rx <=? rx + sx) with true by lia. reflexivity.
  - set (s1 := scan_box ink (Char_attrs (rx, ry, sx, sy))) in *.
    pose proof (tight_box_bounds _ _ _ _ _ _ _ _ _ Hbox) as Hb.
    assert (Hy1 : im_rect_y s1 = ry /\ im_rect_y_max s1 = ry + sy)
      by (rewrite Hself; split; reflexivity).
    destruct Hy1 as [Hy1 Hy2].
    replace (x_max s1 <=? x_min s1) with false by lia.
    rewrite (PIL_scan_first_reads im_pixels ink s1)
      by (intros py Hpy; apply Hr; cbn; lia).
    cbn [bind].
    set (s2 := scan_first ink s1).
    assert (H2 : x_min s2 = x_min s1 /\ x_max s2 = x_max s1 /\
                 y_min s2 = y_min s1 /\ y_max s2 = y_max s1 /\
                 im_rect_y s2 = ry /\ im_rect_y_max s2 = ry + sy).
    { unfold s2. rewrite scan_first_closed.
      cbn [set_first x_min x_max y_min y_max im_rect_y im_rect_y_max]. tauto. }
    destruct H2 as (A1 & A2 & A3 & A4 & A5 & A6).
    rewrite (PIL_scan_last_reads im_pixels ink s2)
      by (intros py Hpy; apply Hr; cbn; lia).
    cbn [bind].
    set (s3 := scan_last ink s2).
    assert (H3 : x_min s3 = x_min s1 /\ x_max s3 = x_max s1 /\
                 y_min s3 = y_min s1 /\ y_max s3 = y_max s1).
    { unfold s3. rewrite scan_last_closed.
      cbn [set_last x_min x_max y_min y_max]. tauto. }
    destruct H3 as (B1 & B2 & B3 & B4).
    destruct (check_size s3); cbn [bind]; [|reflexivity].
    destruct (check_asserts s3); cbn [bind]; [|reflexivity].
    apply PIL_build_rows_reads. intros px py Hx Hy. apply Hr. cbn. lia.
Qed.

Lemma reads_ink_of im_pixels r :
  (forall px py, in_cell r px py -> exists p, im_pixels px py = Ok p) ->
  reads im_pixels r (ink_of im_pixels).
Proof.
  intros H px py Hc. destruct (H px py Hc) as [p Hp]. unfold ink_of.
  now rewrite Hp.
Qed.

(** [__init__] either reads the whole cell, and is then the construction
    from what was read, or raises what reading a pixel of the cell raised. *)
Lemma PIL_Char_init_cases im_pixels rx ry sx sy :
  let r := (rx, ry, sx, sy) in
  0 <= sx ->
  (reads im_pixels r (ink_of im_pixels) /\
   PIL.Char_init im_pixels r = Char_init (ink_of im_pixels) r) \/
  (exists px py e,
     in_cell r px py /\ im_pixels px py = Raise e /\
     PIL.Char_init im_pixels r = Raise e).
Proof.
  intros r Hsx.
  destruct (PIL.scan_box im_pixels (Char_attrs r)) as [s|e] eqn:E.
  - left.
    assert (Hr : reads im_pixels r (ink_of im_pixels)).
    { apply reads_ink_of. intros px py Hc.
      exact (PIL_scan_box_Ok_reads im_pixels (Char_attrs r) s E px py Hc). }
    split; [exact Hr|]. now apply PIL_Char_init_reads.
  - right.
    destruct (PIL_scan_box_Raise_inv im_pixels (Char_attrs r) e E)
      as (px & py & Hc & Hp).
    exists px, py, e. split; [exact Hc|]. split; [exact Hp|].
    unfold PIL.Char_init. cbv zeta. now rewrite E.
Qed.

(** Two accesses that agree on the cell construct the same glyph or raise
    the same exception. *)
Lemma PIL_Char_init_ext im1 im2 rx ry sx sy :
  0 <= sx ->
  (forall px py, in_cell (rx, ry, sx, sy) px py -> im1 px py = im2 px py) ->
  PIL.Char_init im1 (rx, ry, sx, sy) = PIL.Char_init im2 (rx, ry, sx, sy).
Proof.
  intros Hsx Hag.
  destruct (PIL_Char_init_cases im1 rx ry sx sy Hsx)
    as [[Hr E]|(px & py & e & Hc & Hp & E)].
  - rewrite E. symmetry. apply PIL_Char_init_reads; [exact Hsx|].
    intros px py Hc. rewrite <- (Hag px py Hc). exact (Hr px py Hc).
  - rewrite E.
    assert (Es : PIL.scan_box im2 (Char_attrs (rx, ry, sx, sy)) =
                 PIL.scan_box im1 (Char_attrs (rx, ry, sx, sy))).
    { symmetry. apply PIL_scan_box_ext. intros qx qy Hq. apply Hag. exact Hq. }
    unfold PIL.Char_init in E |- *. cbv zeta in E |- *. rewrite Es.
    destruct (PIL.scan_box im1 (Char_attrs (rx, ry, sx, sy))) as [s|e'] eqn:E1;
      cbn [bind] in E |- *; [exfalso|now symmetry].
    destruct (PIL_scan_box_Ok_reads im1 _ s E1 px py Hc) as [p Hp'].
    congruence.
Qed.

(** A loaded image can be read inside its bounds. *)
Lemma loaded_image_reads size_x size_y ink rx ry sx sy :
  0 <= rx -> rx + sx <= size_x -> 0 <= ry -> ry + sy <= size_y ->
  reads (loaded_image size_x size_y ink) (rx, ry, sx, sy) ink.
Proof.
  intros H1 H2 H3 H4 px py [Hx Hy]. unfold loaded_image.
  replace (px <? 0) with false by lia. replace (py <? 0) with false by lia.
  cbv zeta.
  replace (px <? 0) with false by lia. replace (py <? 0) with false by lia.
  replace (size_x <=? px) with false by lia.
  replace (size_y <=? py) with false by lia.
  reflexivity.
Qed.

(** ** Row bitmasks *)

Lemma testbit_1_shiftl i j :
  0 <= i -> 0 <= j -> Z.testbit (Z.shiftl 1 i) j = (i =? j).
Proof.
  intros Hi Hj. rewrite Z.shiftl_1_l. now apply Z.pow2_bits_eqb.
Qed.

Lemma below_pow2 a n :
  0 <= a -> 0 <= n -> (forall j, n <= j -> Z.testbit a j = false) -> a < 2 ^ n.
Proof.
  intros Ha Hn Hbits.
  destruct (Z.lt_ge_cases a (2 ^ n)) as [H|H]; [exact H|exfalso].
  assert (Hpos : 0 < a) by (pose proof (Z.pow_pos_nonneg 2 n); lia).
  pose proof (Z.bit_log2 a Hpos) as Hbit.
  apply (Z.log2_le_pow2 a n Hpos) in H.
  rewrite Hbits in Hbit by exact H. discriminate.
Qed.

Section Rows.
Variable im_pixels : pixels.
Variable px_y : Z.

Lemma row_fold_bits (l : list Z) : forall row i,
  0 <= i ->
  let st := fold_left (row_step im_pixels px_y) l (row, i) in
  snd st = i + len l /\
  forall j, 0 <= j ->
    Z.testbit (fst st) j =
    Z.testbit row j ||
    ((i <=? j) && (j <? i + len l) &&
     im_pixels (nth (Z.to_nat (j - i)) l 0) px_y).
Proof.
  induction l as [|x l IH]; intros row i Hi; cbn [fold_left].
  - cbn [fst snd]. split; [unfold len; simpl; lia|].
    intros j Hj. unfold len. cbn [length].
    replace ((i <=? j) && (j <? i + Z.of_nat 0)) with false by lia.
    now rewrite orb_false_r.
  - set (row' := if im_pixels x px_y then Z.lor row (Z.shiftl 1 i) else row).
    change (row_step im_pixels px_y (row, i) x) with (row', i + 1).
    destruct (IH row' (i + 1) ltac:(lia)) as [Hlen Hbits].
    split.
    + rewrite Hlen. unfold len. cbn [length]. lia.
    + intros j Hj. rewrite (Hbits j Hj).
      assert (Hrow' : Z.testbit row' j =
                      Z.testbit row j || ((i =? j) && im_pixels x px_y)).
      { unfold row'. destruct (im_pixels x px_y).
        - rewrite Z.lor_spec, testbit_1_shiftl by lia.
          now rewrite andb_true_r.
        - now rewrite andb_false_r, orb_false_r. }
      rewrite Hrow'. unfold len. cbn [length].
      destruct (Z.eq_dec i j) as [->|Hne].
      * replace (j - j) with 0 by lia. cbn [Z.to_nat nth].
        rewrite Z.eqb_refl.
        replace (j + 1 <=? j) with false by lia.
        replace (j <=? j) with true by lia.
        replace (j <? j + Z.of_nat (S (length l))) with true by lia.
        cbn [andb]. now rewrite orb_false_r.
      * replace (i =? j) with false by lia. cbn [andb].
        rewrite orb_false_r.
        destruct (Z_lt_ge_dec j i) as [Hlt|Hge].
        -- replace (i + 1 <=? j) with false by lia.
           replace (i <=? j) with false by lia. reflexivity.
        -- replace (Z.to_nat (j - i)) with (S (Z.to_nat (j - (i + 1))))
             by lia.
           cbn [nth].
           replace (i + 1 <=? j) with true by lia.
           replace (i <=? j) with true by lia.
           replace (j <? i + 1 + Z.of_nat (length l))
             with (j <? i + Z.of_nat (S (length l))) by lia.
           reflexivity.
Qed.

Lemma row_fold_nonneg (l : list Z) : forall row i,
  0 <= i -> 0 <= row ->
  0 <= fst (fold_left (row_step im_pixels px_y) l (row, i)).
Proof.
  induction l as [|x l IH]; intros row i Hi Hrow; cbn [fold_left];
    [exact Hrow|].
  change (row_step im_pixels px_y (row, i) x)
    with (if im_pixels x px_y then Z.lor row (Z.shiftl 1 i) else row, i + 1).
  apply IH; [lia|].
  destruct (im_pixels x px_y); [|exact Hrow].
  apply Z.lor_nonneg. split; [exact Hrow|]. apply Z.shiftl_nonneg. lia.
Qed.

(** Bit [j] of a row is the ink test at column [xm + j]. *)
Lemma build_row_bit xm xM j :
  0 <= j ->
  Z.testbit (build_row im_pixels xm xM px_y) j =
  (j <? xM - xm) && im_pixels (xm + j) px_y.
Proof.
  intros Hj. unfold build_row.
  destruct (row_fold_bits (range xm xM) 0 0 ltac:(lia)) as [_ Hbits].
  rewrite (Hbits j Hj), Z.bits_0. cbn [orb].
  unfold len. rewrite range_length.
  replace (0 <=? j) with true by lia. cbn [andb]. rewrite Z.sub_0_r.
  destruct (Z_lt_ge_dec j (xM - xm)) as [Hlt|Hge].
  - rewrite range_nth by lia.
    replace (j <? 0 + Z.of_nat (Z.to_nat (xM - xm))) with true by lia.
    replace (j <? xM - xm) with true by lia.
    now rewrite Z2Nat.id.
  - replace (j <? 0 + Z.of_nat (Z.to_nat (xM - xm))) with false by lia.
    replace (j <? xM - xm) with false by lia. reflexivity.
Qed.

Lemma build_row_range xm xM :
  xm <= xM -> 0 <= build_row im_pixels xm xM px_y < 2 ^ (xM - xm).
Proof.
  intros H. split.
  - unfold build_row. apply row_fold_nonneg; lia.
  - apply below_pow2; [unfold build_row; apply row_fold_nonneg; lia|lia|].
    intros j Hj. rewrite build_row_bit by lia.
    replace (j <? xM - xm) with false by lia. reflexivity.
Qed.
End Rows.

(** ** Byte strings *)

Lemma forallb_is_byte_bound (vs : list Z) :
  (forall v, In v vs -> 0 <= v < 256) -> forallb is_byte vs = true.
Proof.
  intros H. apply forallb_forall. intros v Hv. specialize (H v Hv).
  unfold is_byte. apply andb_true_iff. split; lia.
Qed.

Lemma forallb_is_ushort_bound (vs : list Z) :
  (forall v, In v vs -> 0 <= v < 65536) -> forallb is_ushort vs = true.
Proof.
  intros H. apply forallb_forall. intros v Hv. specialize (H v Hv).
  unfold is_ushort. apply andb_true_iff. split; lia.
Qed.

Lemma le16_join v : Z.lor (Z.land v 255) (Z.shiftl (Z.shiftr v 8) 8) = v.
Proof.
  apply Z.bits_inj'. intros j Hj.
  rewrite Z.lor_spec, Z.land_spec, Z.shiftl_spec by exact Hj.
  change 255 with (Z.ones 8). rewrite Z.testbit_ones_nonneg by lia.
  destruct (Z_lt_ge_dec j 8) as [Hlt|Hge].
  - rewrite Z.testbit_neg_r with (n := j - 8) by lia.
    replace (j <? 8) with true by lia.
    now rewrite andb_true_r, orb_false_r.
  - rewrite Z.shiftr_spec by lia.
    replace (j <? 8) with false by lia.
    rewrite andb_false_r. cbn [orb]. f_equal. lia.
Qed.

Lemma decode_rows_narrow (vs : list Z) :
  decode_rows false (length vs) vs = vs.
Proof. induction vs as [|v vs IH]; simpl; [reflexivity|now rewrite IH]. Qed.

Lemma decode_rows_wide (vs : list Z) :
  decode_rows true (length vs)
    (flat_map (fun v => [Z.land v 255; Z.shiftr v 8]) vs) = vs.
Proof.
  induction vs as [|v vs IH]; simpl; [reflexivity|].
  now rewrite IH, le16_join.
Qed.

Lemma flat_map_pair_length (vs : list Z) :
  length (flat_map (fun v => [Z.land v 255; Z.shiftr v 8]) vs) =
  (2 * length vs)%nat.
Proof. induction vs as [|v vs IH]; simpl; [reflexivity|]. rewrite IH. lia. Qed.

(** ** Successful and blank constructions *)

Lemma Char_init_blank im_pixels rx ry sx sy :
  0 <= sx -> no_ink im_pixels (rx, ry, sx, sy) ->
  Char_init im_pixels (rx, ry, sx, sy) = Ok (Char_attrs (rx, ry, sx, sy)).
Proof.
  intros Hsx Hno.
  destruct (Char_init_outcome im_pixels rx ry sx sy Hsx)
    as [[_ E]|(xm & xM & ym & yM & mf & Mf & ml & Ml & Hbox & _)];
    [exact E|exfalso].
  destruct Hbox as ((py & Hc & Hi) & _). rewrite (Hno _ _ Hc) in Hi.
  discriminate.
Qed.

Lemma Char_init_Ok_inv im_pixels rx ry sx sy self :
  let r := (rx, ry, sx, sy) in
  0 <= sx ->
  Char_init im_pixels r = Ok self ->
  (no_ink im_pixels r /\ self = Char_attrs r) \/
  (exists xm xM ym yM mf Mf ml Ml,
     tight_box im_pixels r xm xM ym yM /\
     edge_extent im_pixels r xm mf Mf /\
     edge_extent im_pixels r (xM - 1) ml Ml /\
     xM - xm <= 12 /\ yM - ym <= 12 /\ ym - ry < 16 /\
     self = set_rows (map (build_row im_pixels xm xM) (range ym yM))
              (scanned r xm xM ym yM mf Mf ml Ml)).
Proof.
  intros r Hsx E.
  destruct (Char_init_outcome im_pixels rx ry sx sy Hsx)
    as [[Hno E']|(xm & xM & ym & yM & mf & Mf & ml & Ml & Hbox & Hf & Hl & H)].
  - left. split; [exact Hno|]. fold r in E'. congruence.
  - right. exists xm, xM, ym, yM, mf, Mf, ml, Ml. fold r in H.
    destruct H as [[_ E']|[(_ & _ & _ & E')|(Hw & Hh & Ho & E')]];
      try congruence.
    repeat (split; [assumption|]). congruence.
Qed.

Lemma is_blank_attrs rx ry sx sy :
  0 <= sx -> is_blank (Char_attrs (rx, ry, sx, sy)) = true.
Proof.
  intros H. unfold is_blank. cbn [Char_attrs x_max x_min].
  apply orb_true_iff. left. lia.
Qed.

(** Blank glyphs are exactly those of cells without ink. *)
Lemma is_blank_iff_no_ink im_pixels rx ry sx sy self :
  0 <= sx ->
  Char_init im_pixels (rx, ry, sx, sy) = Ok self ->
  (is_blank self = true <-> no_ink im_pixels (rx, ry, sx, sy)) /\
  (is_blank self = true -> self = Char_attrs (rx, ry, sx, sy)).
Proof.
  intros Hsx E.
  destruct (Char_init_Ok_inv im_pixels rx ry sx sy self Hsx E)
    as [[Hno ->]|(xm & xM & ym & yM & mf & Mf & ml & Ml & Hbox & _ & _ & _
                  & _ & _ & ->)].
  - pose proof (is_blank_attrs rx ry sx sy Hsx). tauto.
  - pose proof (tight_box_bounds _ _ _ _ _ _ _ _ _ Hbox) as Hb.
    assert (Hnb : is_blank
      (set_rows (map (build_row im_pixels xm xM) (range ym yM))
         (scanned (rx, ry, sx, sy) xm xM ym yM mf Mf ml Ml)) = false).
    { unfold is_blank. cbn [set_rows scanned x_max x_min y_max y_min].
      apply orb_false_iff. lia. }
    rewrite Hnb. split; [split|]; try discriminate.
    intros Hno. destruct Hbox as ((py & Hc & Hi) & _).
    rewrite (Hno _ _ Hc) in Hi. discriminate.
Qed.

(** ** Header bytes *)

Lemma forallb_range (f : Z -> bool) a b v :
  forallb f (range a b) = true -> a <= v < b -> f v = true.
Proof.
  intros H Hv. rewrite forallb_forall in H. apply H. now apply In_range.
Qed.

Lemma byte0_layout w h :
  0 <= w < 16 -> 0 <= h < 16 ->
  let b := Z.lor w (Z.shiftl h 4) in
  Z.land b 15 = w /\ Z.shiftr b 4 = h /\ 0 <= b < 256.
Proof.
  intros Hw Hh.
  assert (H : forallb (fun w => forallb (fun h =>
                let b := Z.lor w (Z.shiftl h 4) in
                (Z.land b 15 =? w) && (Z.shiftr b 4 =? h) &&
                (0 <=? b) && (b <? 256)) (range 0 16)) (range 0 16) = true)
    by (vm_compute; reflexivity).
  pose proof (forallb_range _ _ _ h (forallb_range _ _ _ w H Hw) Hh) as Hb.
  cbv zeta in Hb |- *.
  apply andb_true_iff in Hb as [Hb Hhi]. apply andb_true_iff in Hb as [Hb Hlo].
  apply andb_true_iff in Hb as [Hb Hh']. 
  apply Z.eqb_eq in Hb, Hh'. apply Z.leb_le in Hlo. apply Z.ltb_lt in Hhi.
  repeat split; assumption.
Qed.

Lemma byte1_layout v f4 f5 f6 f7 :
  0 <= v < 16 ->
  let b := Z.lor (Z.lor (Z.lor (Z.lor v (Z.shiftl (Z.b2z f4) 4))
             (Z.shiftl (Z.b2z f5) 5)) (Z.shiftl (Z.b2z f6) 6))
             (Z.shiftl (Z.b2z f7) 7) in
  Z.land b 15 = v /\
  Z.testbit b 4 = f4 /\ Z.testbit b 5 = f5 /\
  Z.testbit b 6 = f6 /\ Z.testbit b 7 = f7 /\
  0 <= b < 256.
Proof.
  intros Hv.
  assert (H : forallb (fun v =>
    forallb (fun f4 => forallb (fun f5 => forallb (fun f6 => forallb (fun f7 =>
      let b := Z.lor (Z.lor (Z.lor (Z.lor v (Z.shiftl (Z.b2z f4) 4))
                 (Z.shiftl (Z.b2z f5) 5)) (Z.shiftl (Z.b2z f6) 6))
                 (Z.shiftl (Z.b2z f7) 7) in
      (Z.land b 15 =? v) && eqb (Z.testbit b 4) f4 && eqb (Z.testbit b 5) f5 &&
      eqb (Z.testbit b 6) f6 && eqb (Z.testbit b 7) f7 &&
      (0 <=? b) && (b <? 256))
      [true; false]) [true; false]) [true; false]) [true; false])
    (range 0 16) = true) by (vm_compute; reflexivity).
  pose proof (forallb_range _ _ _ v H Hv) as Hb. cbv beta in Hb.
  assert (Hin : forall x : bool, In x [true; false])
    by (intros [|]; simpl; auto).
  rewrite forallb_forall in Hb. specialize (Hb f4 (Hin f4)).
  rewrite forallb_forall in Hb. specialize (Hb f5 (Hin f5)).
  rewrite forallb_forall in Hb. specialize (Hb f6 (Hin f6)).
  rewrite forallb_forall in Hb. specialize (Hb f7 (Hin f7)).
  cbv zeta in Hb |- *.
  apply andb_true_iff in Hb as [Hb Hhi]. apply andb_true_iff in Hb as [Hb Hlo].
  apply andb_true_iff in Hb as [Hb H7]. apply andb_true_iff in Hb as [Hb H6].
  apply andb_true_iff in Hb as [Hb H5]. apply andb_true_iff in Hb as [Hb H4].
  apply eqb_prop in H4, H5, H6, H7.
  apply Z.eqb_eq in Hb. apply Z.leb_le in Hlo. apply Z.ltb_lt in Hhi.
  repeat split; assumption.
Qed.

Lemma Char_init_nonblank_inv im_pixels rx ry sx sy self :
  let r := (rx, ry, sx, sy) in
  0 <= sx ->
  Char_init im_pixels r = Ok self ->
  is_blank self = false ->
  exists xm xM ym yM mf Mf ml Ml,
    tight_box im_pixels r xm xM ym yM /\
    edge_extent im_pixels r xm mf Mf /\
    edge_extent im_pixels r (xM - 1) ml Ml /\
    xM - xm <= 12 /\ yM - ym <= 12 /\ ym - ry < 16 /\
    self = mkChar rx ry sx sy (rx + sx) (ry + sy) xm xM ym yM mf Mf ml Ml
             (map (build_row im_pixels xm xM) (range ym yM)).
Proof.
  intros r Hsx E Hnb.
  destruct (Char_init_Ok_inv im_pixels rx ry sx sy self Hsx E)
    as [[_ ->]|H].
  - rewrite is_blank_attrs in Hnb by exact Hsx. discriminate.
  - exact H.
Qed.

Lemma header_layout (self : Char) :
  Z.max 0 (x_max self - x_min self) < 16 ->
  Z.max 0 (y_max self - y_min self) < 16 ->
  Z.max 0 (y_min self - im_rect_y self) < 16 ->
  encode_header self = Ok [header_byte0 self; header_byte1 self] /\
  decode_size (header_byte0 self) =
    (Z.max 0 (x_max self - x_min self), Z.max 0 (y_max self - y_min self)) /\
  Z.land (header_byte1 self) 15 = Z.max 0 (y_min self - im_rect_y self) /\
  Z.testbit (header_byte1 self) 4 =
    (y_min_last self - im_rect_y self <=? 5) &&
    (y_min_last self =? y_max_last self - 1) /\
  Z.testbit (header_byte1 self) 5 = (y_min_first self - im_rect_y self >? 5) /\
  Z.testbit (header_byte1 self) 6 =
    (y_min_first self - im_rect_y self >=? 9) &&
    (y_min_first self =? y_max_first self - 1) /\
  Z.testbit (header_byte1 self) 7 = (y_max_last self - im_rect_y self <? 9).
Proof.
  intros Hw Hh Ho.
  destruct (byte0_layout (Z.max 0 (x_max self - x_min self))
              (Z.max 0 (y_max self - y_min self)) ltac:(lia) ltac:(lia))
    as (H0a & H0b & H0c).
  destruct (byte1_layout (Z.max 0 (y_min self - im_rect_y self))
              ((y_min_last self - im_rect_y self <=? 5) &&
               (y_min_last self =? y_max_last self - 1))
              (y_min_first self - im_rect_y self >? 5)
              ((y_min_first self - im_rect_y self >=? 9) &&
               (y_min_first self =? y_max_first self - 1))
              (y_max_last self - im_rect_y self <? 9) ltac:(lia))
    as (H1a & H4 & H5 & H6 & H7 & H1c).
  fold (header_byte0 self) in H0a, H0b, H0c.
  fold (header_byte1 self) in H1a, H4, H5, H6, H7, H1c.
  repeat split; try assumption.
  - unfold encode_header, bytes.
    rewrite forallb_is_byte_bound; [reflexivity|].
    intros v [<-|[<-|[]]]; assumption.
  - unfold decode_size. now rewrite H0a, H0b.
Qed.

(** ** Blank glyphs and the flag byte *)

(** C1, counterexample: for the single blank 16x16 cell of an image without
    ink the output is not four zero bytes: the second byte of the record has
    the two reduced-gap flags. *)
Lemma blank_cell_16_header_not_zero :
  pack_font blank_image (16, 16) (0, 0, 16, 16) = Ok [0; 176; 0; 0] /\
  pack_font blank_image (16, 16) (0, 0, 16, 16) <> Ok [0; 0; 0; 0].
Proof. split; [vm_compute; reflexivity|vm_compute; discriminate]. Qed.

(** C1, amended: for a grid of one 16x16 cell every pixel of which is read
    and shows no ink, [pack_font] extracts one blank glyph and writes one
    4-byte record and no bitmap byte, 4 bytes in all. Byte 0 and the offset
    field are zero; byte 1 is not: the reduced-gap-before flag (bit 5) and
    the reduced-gap-after flag (bit 7), computed from the untouched edge
    extents, are set, and the trailing-kern flag (bit 6) is clear. Nothing
    is stated about bits 0-4 of byte 1. *)
Theorem blank_cell_16_output (im_pixels : PIL.pixel_access) (x y : Z) :
  reads im_pixels (x, y, 16, 16) blank_image ->
  exists ch b1,
    PIL.ch_list_of im_pixels (16, 16) (x, y, 16, 16) = Ok [ch] /\
    is_blank ch = true /\
    pack_chars [ch] = Ok ([0; b1; 0; 0], []) /\
    PIL.pack_font im_pixels (16, 16) (x, y, 16, 16) = Ok [0; b1; 0; 0] /\
    Z.testbit b1 5 = true /\ Z.testbit b1 6 = false /\ Z.testbit b1 7 = true.
Proof.
  intros Hr. exists (Char_attrs (x, y, 16, 16)), 176.
  assert (Hlist : PIL.ch_list_of im_pixels (16, 16) (x, y, 16, 16) =
                  Ok [Char_attrs (x, y, 16, 16)]).
  { unfold PIL.ch_list_of.
    change (floor_div 16 16) with (Ok (A:=Z) 1). cbn [bind].
    change (range 0 1) with [0]. cbn [for_each bind].
    replace (x + 0 * 16) with x by lia. replace (y + 0 * 16) with y by lia.
    rewrite (PIL_Char_init_reads im_pixels blank_image) by (lia || exact Hr).
    rewrite Char_init_blank; [reflexivity|lia|].
    intros px py _. reflexivity. }
  assert (Hpack : pack_chars [Char_attrs (x, y, 16, 16)] =
                  Ok ([0; 176; 0; 0], [])).
  { unfold pack_chars. cbn [for_each len length]. unfold pack_step.
    unfold is_blank, encode_header, header_byte0, header_byte1.
    cbn [Char_attrs x_max x_min y_max y_min y_min_first y_max_first
         y_min_last y_max_last im_rect_y].
    replace (x <=? x + 16) with true by lia.
    replace (x - (x + 16)) with (-16) by lia.
    replace (y - (y + 16)) with (-16) by lia.
    replace (y + 16 - y) with 16 by lia.
    replace (y - y) with 0 by lia.
    replace (y + 16 =? y - 1) with false by lia.
    reflexivity. }
  split; [exact Hlist|]. split; [apply is_blank_attrs; lia|].
  split; [exact Hpack|]. split; [|repeat split].
  unfold PIL.pack_font. rewrite Hlist. cbn [bind]. rewrite Hpack. reflexivity.
Qed.

(** C1, instance: a loaded image of 16x16 pixels without any ink. *)
Lemma blank_cell_16_output_witness :
  reads (loaded_image 16 16 blank_image) (0, 0, 16, 16) blank_image /\
  exists ch b1,
    PIL.ch_list_of (loaded_image 16 16 blank_image) (16, 16) (0, 0, 16, 16) =
      Ok [ch] /\
    is_blank ch = true /\
    pack_chars [ch] = Ok ([0; b1; 0; 0], []) /\
    PIL.pack_font (loaded_image 16 16 blank_image) (16, 16) (0, 0, 16, 16) =
      Ok [0; b1; 0; 0] /\
    Z.testbit b1 5 = true /\ Z.testbit b1 6 = false /\ Z.testbit b1 7 = true.
Proof.
  assert (H : reads (loaded_image 16 16 blank_image) (0, 0, 16, 16) blank_image)
    by (apply loaded_image_reads; lia).
  split; [exact H|].
  exact (blank_cell_16_output (loaded_image 16 16 blank_image) 0 0 H).
Defined.

(** C2, counterexample: the blank glyph of a 16x16 cell has the edge
    extents [y_min = 16], [y_max = 0], not the span from 0 to 16. *)
Lemma blank_extent_not_full_span :
  exists ch,
    Char_init blank_image (0, 0, 16, 16) = Ok ch /\
    is_blank ch = true /\
    ~ (y_min_first ch = im_rect_y ch /\
       y_max_first ch = im_rect_y ch + im_rect_y_size ch) /\
    ~ (y_min_last ch = im_rect_y ch /\
       y_max_last ch = im_rect_y ch + im_rect_y_size ch).
Proof.
  exists (Char_attrs (0, 0, 16, 16)).
  split; [vm_compute; reflexivity|]. split; [reflexivity|].
  split; intros [H _]; vm_compute in H; discriminate.
Qed.

(** C2, amended: for every blank glyph (the glyph of a cell without ink)
    both edge extents keep their initial, inverted values: the extent's yMin
    equals [cellBounds.y + cellHeight] and its exclusive yMax equals
    [cellBounds.y]. *)
Theorem blank_extent_inverted (im_pixels : pixels) (rx ry sx sy : Z) (ch : Char) :
  0 <= sx ->
  Char_init im_pixels (rx, ry, sx, sy) = Ok ch ->
  is_blank ch = true ->
  no_ink im_pixels (rx, ry, sx, sy) /\
  im_rect_y ch = ry /\ im_rect_y_size ch = sy /\
  y_min_first ch = im_rect_y ch + im_rect_y_size ch /\
  y_max_first ch = im_rect_y ch /\
  y_min_last ch = im_rect_y ch + im_rect_y_size ch /\
  y_max_last ch = im_rect_y ch.
Proof.
  intros Hsx E Hb.
  destruct (is_blank_iff_no_ink im_pixels rx ry sx sy ch Hsx E) as [Hiff Hattrs].
  split; [now apply Hiff|]. rewrite (Hattrs Hb). repeat split.
Qed.

(** C2, instance: the blank glyph of an 8x12 cell has extents [12, 0). *)
Lemma blank_extent_inverted_witness :
  y_min_first (Char_attrs (0, 0, 8, 12)) = 12 /\
  y_max_first (Char_attrs (0, 0, 8, 12)) = 0 /\
  y_min_last (Char_attrs (0, 0, 8, 12)) = 12 /\
  y_max_last (Char_attrs (0, 0, 8, 12)) = 0.
Proof.
  destruct (blank_extent_inverted blank_image 0 0 8 12
              (Char_attrs (0, 0, 8, 12)) ltac:(lia) eq_refl eq_refl)
    as (_ & _ & _ & H1 & H2 & H3 & H4).
  repeat split; assumption.
Defined.

(** C3, at the failing input: the blank glyph of a 16x16 cell keeps
    [y_min] at the bottom of the cell, since [__init__] returns before its
    assertion on the y-offset; the y-offset 16 does not fit bits 0-3 of the
    flag byte, so these bits are 0, not the offset, and bit 4 is set
    although the condition of its flag is false. *)
Lemma blank_16_offset_spills_into_flag :
  exists ch,
    Char_init blank_image (0, 0, 16, 16) = Ok ch /\
    encode_header ch = Ok [0; 176] /\
    Z.max 0 (y_min ch - im_rect_y ch) = 16 /\
    Z.land (header_byte1 ch) 15 <> Z.max 0 (y_min ch - im_rect_y ch) /\
    Z.testbit (header_byte1 ch) 4 = true /\
    (y_min_last ch - im_rect_y ch <=? 5) &&
    (y_min_last ch =? y_max_last ch - 1) = false.
Proof.
  exists (Char_attrs (0, 0, 16, 16)).
  repeat split; try (vm_compute; reflexivity). vm_compute. discriminate.
Qed.

(** The fields of the flag byte of a glyph whose y-offset is below 16, as
    it is for every non-blank glyph and for the blank glyph of a cell less
    than 16 rows tall: bits 0-3 hold the y-offset and bits 4 to 7 the four
    flags, each as its expression in [encode_header] gives it. *)
Lemma header_byte1_fields (im_pixels : pixels) (rx ry sx sy : Z) (ch : Char) :
  0 < sx -> 0 < sy ->
  Char_init im_pixels (rx, ry, sx, sy) = Ok ch ->
  is_blank ch = false \/ sy < 16 ->
  encode_header ch = Ok [header_byte0 ch; header_byte1 ch] /\
  0 <= Z.max 0 (y_min ch - im_rect_y ch) < 16 /\
  Z.land (header_byte1 ch) 15 = Z.max 0 (y_min ch - im_rect_y ch) /\
  Z.testbit (header_byte1 ch) 4 =
    (y_min_last ch - im_rect_y ch <=? 5) &&
    (y_min_last ch =? y_max_last ch - 1) /\
  Z.testbit (header_byte1 ch) 5 = (y_min_first ch - im_rect_y ch >? 5) /\
  Z.testbit (header_byte1 ch) 6 =
    (y_min_first ch - im_rect_y ch >=? 9) &&
    (y_min_first ch =? y_max_first ch - 1) /\
  Z.testbit (header_byte1 ch) 7 = (y_max_last ch - im_rect_y ch <? 9).
Proof.
  intros Hsx Hsy E Hcase.
  assert (Hr : Z.max 0 (x_max ch - x_min ch) < 16 /\
               Z.max 0 (y_max ch - y_min ch) < 16 /\
               Z.max 0 (y_min ch - im_rect_y ch) < 16).
  { destruct (is_blank ch) eqn:Hb.
    - destruct Hcase as [Hcase|Hcase]; [discriminate|].
      destruct (is_blank_iff_no_ink im_pixels rx ry sx sy ch ltac:(lia) E)
        as [_ Hattrs].
      rewrite (Hattrs Hb).
      cbn [Char_attrs x_max x_min y_max y_min im_rect_y]. lia.
    - destruct (Char_init_nonblank_inv im_pixels rx ry sx sy ch ltac:(lia) E Hb)
        as (xm & xM & ym & yM & mf & Mf & ml & Ml & Hbox & _ & _ & Hw & Hh
            & Ho & ->).
      cbn [x_max x_min y_max y_min im_rect_y]. lia. }
  destruct Hr as (Hw & Hh & Ho).
  destruct (header_layout ch Hw Hh Ho) as (H1 & _ & H2 & H4 & H5 & H6 & H7).
  repeat split; try assumption; lia.
Qed.

(** ** Rows of an extracted glyph *)

Lemma rows_bound im_pixels xm xM ym yM v :
  xm <= xM ->
  In v (map (build_row im_pixels xm xM) (range ym yM)) ->
  0 <= v < 2 ^ (xM - xm).
Proof.
  intros Hx Hin. apply in_map_iff in Hin as (py & <- & _).
  now apply build_row_range.
Qed.

Lemma rows_nth im_pixels xm xM ym yM r :
  0 <= r < yM - ym ->
  nth (Z.to_nat r) (map (build_row im_pixels xm xM) (range ym yM)) 0 =
  build_row im_pixels xm xM (ym + r).
Proof.
  intros Hr.
  rewrite nth_indep with (d' := build_row im_pixels xm xM 0)
    by (rewrite length_map, range_length; lia).
  rewrite map_nth, range_nth by lia. f_equal. lia.
Qed.

Lemma encode_rows_cases im_pixels (rx ry sx sy xm xM ym yM mf Mf ml Ml : Z) :
  let rs := map (build_row im_pixels xm xM) (range ym yM) in
  let ch := mkChar rx ry sx sy (rx + sx) (ry + sy) xm xM ym yM mf Mf ml Ml rs in
  xm <= xM -> xM - xm <= 12 ->
  (xM - xm <= 8 -> encode_rows ch = Ok rs) /\
  (8 < xM - xm ->
   encode_rows ch = Ok (flat_map (fun v => [Z.land v 255; Z.shiftr v 8]) rs)).
Proof.
  intros rs ch Hx Hw. unfold encode_rows. cbn [ch x_max x_min rows]. split.
  - intros H8. replace (xM - xm >? 8) with false by lia.
    unfold struct_pack_B. rewrite forallb_is_byte_bound; [reflexivity|].
    intros v Hv. apply rows_bound in Hv; [|exact Hx].
    assert (2 ^ (xM - xm) <= 2 ^ 8) by (apply Z.pow_le_mono_r; lia). lia.
  - intros H8. replace (xM - xm >? 8) with true by lia.
    unfold struct_pack_H. rewrite forallb_is_ushort_bound; [reflexivity|].
    intros v Hv. apply rows_bound in Hv; [|exact Hx].
    assert (2 ^ (xM - xm) <= 2 ^ 12) by (apply Z.pow_le_mono_r; lia). lia.
Qed.

(** C6: for every non-blank glyph, [encode_rows] emits each row as one byte
    when the width is at most 8 and as two bytes, low byte first, when the
    width exceeds 8 (so width 8 gives 1-byte rows and width 9 gives 2-byte
    rows); the bitmap is [height] times 1 or 2 bytes long. *)
Theorem encode_rows_width (im_pixels : pixels) (rx ry sx sy : Z) (ch : Char) :
  0 <= sx ->
  Char_init im_pixels (rx, ry, sx, sy) = Ok ch ->
  is_blank ch = false ->
  len (rows ch) = y_max ch - y_min ch /\
  (x_max ch - x_min ch <= 8 ->
   encode_rows ch = Ok (rows ch) /\
   len (rows ch) = (y_max ch - y_min ch) * 1) /\
  (8 < x_max ch - x_min ch ->
   encode_rows ch =
     Ok (flat_map (fun v => [Z.land v 255; Z.shiftr v 8]) (rows ch)) /\
   len (flat_map (fun v => [Z.land v 255; Z.shiftr v 8]) (rows ch)) =
     (y_max ch - y_min ch) * 2) /\
  (exists bitmap,
     encode_rows ch = Ok bitmap /\
     len bitmap =
       (y_max ch - y_min ch) * (if x_max ch - x_min ch <=? 8 then 1 else 2)).
Proof.
  intros Hsx E Hnb.
  destruct (Char_init_nonblank_inv im_pixels rx ry sx sy ch Hsx E Hnb)
    as (xm & xM & ym & yM & mf & Mf & ml & Ml & Hbox & _ & _ & Hw & Hh
        & Ho & ->).
  pose proof (tight_box_bounds _ _ _ _ _ _ _ _ _ Hbox) as Hb.
  destruct (encode_rows_cases im_pixels rx ry sx sy xm xM ym yM mf Mf ml Ml
              ltac:(lia) Hw) as [Hn Hwd].
  cbn [x_max x_min y_max y_min rows].
  set (rs := map (build_row im_pixels xm xM) (range ym yM)) in *.
  assert (Hlen : len rs = yM - ym).
  { unfold len, rs. rewrite length_map, range_length. lia. }
  assert (Hlen2 : len (flat_map (fun v => [Z.land v 255; Z.shiftr v 8]) rs) =
                  (yM - ym) * 2).
  { unfold len in *. rewrite flat_map_pair_length. lia. }
  split; [exact Hlen|]. split; [|split].
  - intros H8. split; [now apply Hn|lia].
  - intros H8. split; [now apply Hwd|exact Hlen2].
  - destruct (Z_le_gt_dec (xM - xm) 8) as [H8|H8].
    + exists rs. replace (xM - xm <=? 8) with true by lia.
      split; [now apply Hn|lia].
    + eexists. replace (xM - xm <=? 8) with false by lia.
      split; [apply Hwd; lia|exact Hlen2].
Qed.

(** C6, instance: a glyph 9 wide and 2 high with rows [0x001] and [0x100]
    encodes as [01 00 00 01]. *)
Lemma encode_rows_width_witness :
  Char_init (dots_image [(0, 0); (8, 1)]) (0, 0, 12, 12) =
    Ok (mkChar 0 0 12 12 12 12 0 9 0 2 0 1 1 2 [1; 256]) /\
  encode_rows (mkChar 0 0 12 12 12 12 0 9 0 2 0 1 1 2 [1; 256]) =
    Ok [1; 0; 0; 1].
Proof.
  assert (E : Char_init (dots_image [(0, 0); (8, 1)]) (0, 0, 12, 12) =
              Ok (mkChar 0 0 12 12 12 12 0 9 0 2 0 1 1 2 [1; 256]))
    by (vm_compute; reflexivity).
  split; [exact E|].
  destruct (encode_rows_width (dots_image [(0, 0); (8, 1)]) 0 0 12 12 _
              ltac:(lia) E eq_refl) as (_ & _ & H & _).
  exact (proj1 (H ltac:(cbn; lia))).
Defined.

(** C5: for every non-blank glyph, decoding its header and its bitmap gives
    back the width [xMax - xMin], the height [yMax - yMin] and the rows that
    extraction produced, and bit [i] of decoded row [r] is the ink test at
    pixel [(xMin + i, yMin + r)] for [0 <= i < width], [0 <= r < height]. *)
Theorem glyph_roundtrip (im_pixels : pixels) (rx ry sx sy : Z) (ch : Char) :
  0 <= sx ->
  Char_init im_pixels (rx, ry, sx, sy) = Ok ch ->
  is_blank ch = false ->
  exists header bitmap rows',
    encode_header ch = Ok header /\
    encode_rows ch = Ok bitmap /\
    decode_glyph header bitmap =
      Some (x_max ch - x_min ch, y_max ch - y_min ch, rows') /\
    rows' = rows ch /\
    len rows' = y_max ch - y_min ch /\
    forall i r,
      0 <= i < x_max ch - x_min ch -> 0 <= r < y_max ch - y_min ch ->
      Z.testbit (nth (Z.to_nat r) rows' 0) i =
      im_pixels (x_min ch + i) (y_min ch + r).
Proof.
  intros Hsx E Hnb.
  destruct (Char_init_nonblank_inv im_pixels rx ry sx sy ch Hsx E Hnb)
    as (xm & xM & ym & yM & mf & Mf & ml & Ml & Hbox & _ & _ & Hw & Hh
        & Ho & ->).
  pose proof (tight_box_bounds _ _ _ _ _ _ _ _ _ Hbox) as Hb.
  destruct (encode_rows_cases im_pixels rx ry sx sy xm xM ym yM mf Mf ml Ml
              ltac:(lia) Hw) as [Hn Hwd].
  set (rs := map (build_row im_pixels xm xM) (range ym yM)) in *.
  set (ch := mkChar rx ry sx sy (rx + sx) (ry + sy) xm xM ym yM mf Mf ml Ml rs)
    in *.
  destruct (header_layout ch) as (Hhd & Hsize & _);
    [cbn [ch x_max x_min y_max y_min im_rect_y]; lia..|].
  assert (Hlen : length rs = Z.to_nat (yM - ym)).
  { unfold rs. now rewrite length_map, range_length. }
  exists [header_byte0 ch; header_byte1 ch].
  exists (if xM - xm <=? 8 then rs
          else flat_map (fun v => [Z.land v 255; Z.shiftr v 8]) rs).
  exists rs. cbn [ch x_max x_min y_max y_min rows].
  split; [exact Hhd|]. split; [|split; [|split; [reflexivity|split]]].
  - destruct (Z_le_gt_dec (xM - xm) 8) as [H8|H8].
    + replace (xM - xm <=? 8) with true by lia. now apply Hn.
    + replace (xM - xm <=? 8) with false by lia. apply Hwd. lia.
  - unfold decode_glyph. rewrite Hsize.
    cbn [ch x_max x_min y_max y_min].
    rewrite !Z.max_r by lia. rewrite <- Hlen.
    destruct (Z_le_gt_dec (xM - xm) 8) as [H8|H8].
    + replace (xM - xm <=? 8) with true by lia.
      replace (xM - xm >? 8) with false by lia.
      now rewrite decode_rows_narrow.
    + replace (xM - xm <=? 8) with false by lia.
      replace (xM - xm >? 8) with true by lia.
      now rewrite decode_rows_wide.
  - unfold len. lia.
  - intros i r Hi Hr. unfold rs. rewrite rows_nth by lia.
    rewrite build_row_bit by lia. replace (i <? xM - xm) with true by lia.
    reflexivity.
Qed.

(** C5, instance: the same 9x2 glyph decodes to [(9, 2, [1; 256])]. *)
Lemma glyph_roundtrip_witness :
  Char_init (dots_image [(0, 0); (8, 1)]) (0, 0, 12, 12) =
    Ok (mkChar 0 0 12 12 12 12 0 9 0 2 0 1 1 2 [1; 256]) /\
  exists header bitmap rows',
    encode_header (mkChar 0 0 12 12 12 12 0 9 0 2 0 1 1 2 [1; 256]) =
      Ok header /\
    encode_rows (mkChar 0 0 12 12 12 12 0 9 0 2 0 1 1 2 [1; 256]) =
      Ok bitmap /\
    decode_glyph header bitmap = Some (9, 2, rows') /\
    rows' = [1; 256].
Proof.
  assert (E : Char_init (dots_image [(0, 0); (8, 1)]) (0, 0, 12, 12) =
              Ok (mkChar 0 0 12 12 12 12 0 9 0 2 0 1 1 2 [1; 256]))
    by (vm_compute; reflexivity).
  split; [exact E|].
  destruct (glyph_roundtrip (dots_image [(0, 0); (8, 1)]) 0 0 12 12 _
              ltac:(lia) E eq_refl)
    as (header & bitmap & rows' & H1 & H2 & H3 & H4 & _).
  exists header, bitmap, rows'. repeat split; assumption.
Defined.

(** ** The packing loop *)

Lemma le16_sum off : Z.land off 255 + 256 * Z.shiftr off 8 = off.
Proof.
  change 255 with (Z.ones 8). rewrite Z.land_ones by lia.
  rewrite Z.shiftr_div_pow2 by lia. change (2 ^ 8) with 256.
  pose proof (Z.div_mod off 256 ltac:(lia)). lia.
Qed.

Lemma offset_bytes_ok off :
  bytes [Z.land off 255; Z.shiftr off 8] =
  if (0 <=? off) && (off <? 65536)
  then Ok [Z.land off 255; Z.shiftr off 8]
  else Raise ValueError_bytes.
Proof.
  unfold bytes. cbn [forallb]. unfold is_byte.
  change 255 with (Z.ones 8). rewrite Z.land_ones by lia.
  rewrite Z.shiftr_div_pow2 by lia. change (2 ^ 8) with 256.
  pose proof (Z.mod_pos_bound off 256 ltac:(lia)).
  pose proof (Z.div_mod off 256 ltac:(lia)).
  destruct (Z_lt_ge_dec off 0) as [Hneg|Hpos].
  - assert (off / 256 < 0) by (apply Z.div_lt_upper_bound; lia).
    replace (0 <=? off / 256) with false by lia.
    replace (0 <=? off) with false by lia.
    now rewrite !andb_false_r.
  - assert (0 <= off / 256) by (apply Z.div_pos; lia).
    destruct (Z_lt_ge_dec off 65536) as [Hlt|Hge].
    + assert (off / 256 < 256) by (apply Z.div_lt_upper_bound; lia).
      replace ((0 <=? off mod 256) && (off mod 256 <? 256) &&
               ((0 <=? off / 256) && (off / 256 <? 256) && true))
        with true by lia.
      replace ((0 <=? off) && (off <? 65536)) with true by lia. reflexivity.
    + assert (256 <= off / 256) by (apply Z.div_le_lower_bound; lia).
      replace ((0 <=? off mod 256) && (off mod 256 <? 256) &&
               ((0 <=? off / 256) && (off / 256 <? 256) && true))
        with false by lia.
      replace ((0 <=? off) && (off <? 65536)) with false by lia. reflexivity.
Qed.

Lemma encode_header_Ok_inv ch h :
  encode_header ch = Ok h -> h = [header_byte0 ch; header_byte1 ch].
Proof.
  unfold encode_header, bytes.
  destruct (forallb is_byte [header_byte0 ch; header_byte1 ch]);
    [intros [= <-]; reflexivity|discriminate].
Qed.

Lemma len_app {A : Type} (l1 l2 : list A) : len (l1 ++ l2) = len l1 + len l2.
Proof. unfold len. rewrite length_app. lia. Qed.

Lemma len_nonneg {A : Type} (l : list A) : 0 <= len l.
Proof. unfold len. lia. Qed.

(** One iteration, when it does not raise. *)
Lemma pack_step_Ok_inv hl hs rs ch hs' rs' :
  pack_step hl (hs, rs) ch = Ok (hs', rs') ->
  let off := if is_blank ch then 0 else len rs + hl in
  hs' = hs ++ record_of ch off /\
  rs' = rs ++ bitmap_bytes ch /\
  0 <= off < 65536 /\
  (is_blank ch = false -> encode_rows ch = Ok (bitmap_bytes ch)).
Proof.
  unfold pack_step, bitmap_bytes.
  destruct (is_blank ch) eqn:Hb; cbn [negb bind].
  - destruct (encode_header ch) as [h|e] eqn:Hh; cbn [bind]; [|discriminate].
    apply encode_header_Ok_inv in Hh. subst h.
    rewrite offset_bytes_ok. cbn [bind]. intros [= <- <-].
    rewrite app_nil_r. repeat split; try lia; try discriminate.
    unfold record_of. now rewrite <- app_assoc.
  - destruct (encode_rows ch) as [r|e] eqn:Hr; cbn [bind]; [|discriminate].
    destruct (encode_header ch) as [h|e] eqn:Hh; cbn [bind]; [|discriminate].
    apply encode_header_Ok_inv in Hh. subst h.
    rewrite offset_bytes_ok.
    destruct ((0 <=? len rs + hl) && (len rs + hl <? 65536)) eqn:Ho;
      cbn [bind]; [|discriminate].
    intros [= <- <-]. repeat split; try lia.
    unfold record_of. now rewrite <- app_assoc.
Qed.

(** One iteration, when nothing stands in its way. *)
Lemma pack_step_Ok_intro hl hs rs ch :
  let off := if is_blank ch then 0 else len rs + hl in
  (exists h, encode_header ch = Ok h) ->
  (is_blank ch = false -> exists r, encode_rows ch = Ok r) ->
  0 <= off < 65536 ->
  pack_step hl (hs, rs) ch = Ok (hs ++ record_of ch off, rs ++ bitmap_bytes ch).
Proof.
  intros off [h Hh] Hr Ho. unfold pack_step, bitmap_bytes. subst off.
  pose proof (encode_header_Ok_inv _ _ Hh) as ->.
  destruct (is_blank ch) eqn:Hb; cbn [negb bind].
  - rewrite Hh. cbn [bind]. rewrite offset_bytes_ok.
    change ((0 <=? 0) && (0 <? 65536)) with true. cbn [bind].
    rewrite app_nil_r. unfold record_of. now rewrite <- app_assoc.
  - destruct (Hr eq_refl) as [r Er]. rewrite Er, Hh. cbn [bind].
    rewrite offset_bytes_ok.
    replace ((0 <=? len rs + hl) && (len rs + hl <? 65536)) with true by lia.
    cbn [bind]. unfold record_of. now rewrite <- app_assoc.
Qed.

Lemma bitmap_len_flat_map l : len (flat_map bitmap_bytes l) = bitmap_len l.
Proof.
  induction l as [|ch l IH]; [reflexivity|].
  cbn [flat_map bitmap_len]. now rewrite len_app, IH.
Qed.

Lemma bitmap_len_nonneg l : 0 <= bitmap_len l.
Proof.
  induction l as [|ch l IH]; cbn [bitmap_len]; [lia|].
  pose proof (len_nonneg (bitmap_bytes ch)). lia.
Qed.

Lemma bitmap_len_firstn_mono l : forall i j,
  (i <= j)%nat -> bitmap_len (firstn i l) <= bitmap_len (firstn j l).
Proof.
  induction l as [|ch l IH]; intros i j Hij.
  - rewrite !firstn_nil. lia.
  - destruct i as [|i]; [cbn [firstn bitmap_len]; apply bitmap_len_nonneg|].
    destruct j as [|j]; [lia|]. cbn [firstn bitmap_len].
    specialize (IH i j ltac:(lia)). lia.
Qed.

Lemma table_length hl l : forall pos,
  length (table hl pos l) = (4 * length l)%nat.
Proof.
  induction l as [|ch l IH]; intros pos; [reflexivity|].
  cbn [table record_of app length]. rewrite IH. lia.
Qed.

(** The four bytes of record [i] of a table. *)
Lemma table_record hl l : forall pos i ch,
  nth_error l i = Some ch ->
  let off := if is_blank ch then 0
             else pos + bitmap_len (firstn i l) + hl in
  nth (4 * i) (table hl pos l) 0 = header_byte0 ch /\
  nth (4 * i + 1) (table hl pos l) 0 = header_byte1 ch /\
  nth (4 * i + 2) (table hl pos l) 0 = Z.land off 255 /\
  nth (4 * i + 3) (table hl pos l) 0 = Z.shiftr off 8.
Proof.
  induction l as [|ch0 l IH]; intros pos i ch Hi; [now destruct i|].
  destruct i as [|i].
  - cbn in Hi. injection Hi as ->. cbn [firstn bitmap_len table].
    rewrite Z.add_0_r. cbv zeta. unfold record_of. cbn. auto.
  - cbn [nth_error] in Hi. specialize (IH (pos + len (bitmap_bytes ch0)) i ch Hi).
    cbv zeta in IH |- *. cbn [firstn bitmap_len table].
    replace (4 * S i)%nat with (S (S (S (S (4 * i))))) by lia.
    unfold record_of at 1 2 3 4. cbn [app nth Nat.add].
    replace (pos + (len (bitmap_bytes ch0) + bitmap_len (firstn i l)) + hl)
      with (pos + len (bitmap_bytes ch0) + bitmap_len (firstn i l) + hl) by lia.
    exact IH.
Qed.

Lemma table_offset_field hl l pos i ch :
  nth_error l i = Some ch ->
  offset_field (table hl pos l) i =
  if is_blank ch then 0 else pos + bitmap_len (firstn i l) + hl.
Proof.
  intros Hi. destruct (table_record hl l pos i ch Hi) as (_ & _ & H2 & H3).
  unfold offset_field. cbv zeta in H2, H3. rewrite H2, H3. apply le16_sum.
Qed.

(** The whole loop, when it does not raise. *)
Lemma pack_loop_Ok_inv hl l : forall hs rs hs' rs',
  for_each (pack_step hl) l (hs, rs) = Ok (hs', rs') ->
  hs' = hs ++ table hl (len rs) l /\
  rs' = rs ++ flat_map bitmap_bytes l /\
  forall i ch, nth_error l i = Some ch -> is_blank ch = false ->
    0 <= len rs + bitmap_len (firstn i l) + hl < 65536 /\
    encode_rows ch = Ok (bitmap_bytes ch).
Proof.
  induction l as [|ch0 l IH]; intros hs rs hs' rs' E.
  - cbn in E. injection E as <- <-. rewrite !app_nil_r.
    split; [reflexivity|]. split; [reflexivity|]. intros [|i] ch Hi; discriminate.
  - cbn [for_each] in E.
    destruct (pack_step hl (hs, rs) ch0) as [[hs1 rs1]|e] eqn:Hstep;
      cbn [bind] in E; [|discriminate].
    apply pack_step_Ok_inv in Hstep. cbv zeta in Hstep.
    destruct Hstep as (-> & -> & Ho & Hr).
    apply IH in E as (-> & -> & Hrest). rewrite len_app in *.
    cbn [table flat_map]. rewrite <- !app_assoc.
    split; [reflexivity|]. split; [reflexivity|].
    intros [|i] ch Hi Hb.
    + cbn in Hi. injection Hi as ->. rewrite Hb in Ho.
      cbn [firstn bitmap_len]. split; [lia|now apply Hr].
    + cbn [nth_error] in Hi. destruct (Hrest i ch Hi Hb) as [Hlt Henc].
      cbn [firstn bitmap_len]. split; [lia|exact Henc].
Qed.

(** The whole loop, when nothing stands in its way. *)
Lemma pack_loop_total hl l : forall hs rs,
  (forall ch, In ch l -> exists h, encode_header ch = Ok h) ->
  (forall ch, In ch l -> is_blank ch = false ->
              exists r, encode_rows ch = Ok r) ->
  (forall i ch, nth_error l i = Some ch -> is_blank ch = false ->
     0 <= len rs + bitmap_len (firstn i l) + hl < 65536) ->
  for_each (pack_step hl) l (hs, rs) =
  Ok (hs ++ table hl (len rs) l, rs ++ flat_map bitmap_bytes l).
Proof.
  induction l as [|ch0 l IH]; intros hs rs Hh Hr Ho.
  - cbn. now rewrite !app_nil_r.
  - cbn [for_each].
    rewrite pack_step_Ok_intro.
    + cbn [bind]. rewrite IH.
      * rewrite len_app. cbn [table flat_map]. now rewrite <- !app_assoc.
      * intros ch Hin. apply Hh. now right.
      * intros ch Hin. apply Hr. now right.
      * intros i ch Hi Hb. specialize (Ho (S i) ch Hi Hb).
        cbn [firstn bitmap_len] in Ho. rewrite len_app. lia.
    + apply Hh. now left.
    + apply Hr. now left.
    + destruct (is_blank ch0) eqn:Hb; [lia|].
      specialize (Ho 0%nat ch0 eq_refl Hb). cbn [firstn bitmap_len] in Ho. lia.
Qed.

(** The assertion after the loop never fails. *)
Lemma pack_chars_loop l :
  pack_chars l = for_each (pack_step (4 * len l)) l ([], []).
Proof.
  unfold pack_chars.
  destruct (for_each (pack_step (4 * len l)) l ([], [])) as [[hs rs]|e] eqn:E;
    cbn [bind]; [|reflexivity].
  apply pack_loop_Ok_inv in E as (-> & _ & _). cbn [fst app].
  unfold len at 1. rewrite table_length.
  replace (Z.of_nat (4 * length l) =? 4 * len l) with true
    by (unfold len; lia).
  reflexivity.
Qed.

Lemma pack_chars_Ok_inv l hs rs :
  pack_chars l = Ok (hs, rs) ->
  hs = table (4 * len l) 0 l /\
  rs = flat_map bitmap_bytes l /\
  forall i ch, nth_error l i = Some ch -> is_blank ch = false ->
    0 <= 4 * len l + bitmap_len (firstn i l) < 65536 /\
    encode_rows ch = Ok (bitmap_bytes ch).
Proof.
  rewrite pack_chars_loop. intros E.
  apply pack_loop_Ok_inv in E as (-> & -> & H).
  change (len (@nil Z)) with 0 in *. cbn [app].
  split; [reflexivity|]. split; [reflexivity|].
  intros i ch Hi Hb. destruct (H i ch Hi Hb) as [Ho Hr].
  split; [lia|exact Hr].
Qed.

(** C4: whenever [pack_chars] returns, every blank glyph's record has
    offset field 0 and the glyph adds no byte to the bitmap region; every
    non-blank glyph's offset field is 4 * glyphCount plus the sum of the
    encoded bitmap lengths of the earlier non-blank glyphs; so the offsets
    of non-blank glyphs never decrease along the sequence, and the output
    is 4 * glyphCount bytes of headers followed by the bitmap region. *)
Theorem pack_offsets (ch_list : list Char) (ch_headers ch_rows : list Z) :
  pack_chars ch_list = Ok (ch_headers, ch_rows) ->
  len ch_headers = 4 * len ch_list /\
  ch_rows = flat_map bitmap_bytes ch_list /\
  len ch_rows = bitmap_len ch_list /\
  (forall i ch, nth_error ch_list i = Some ch -> is_blank ch = true ->
     offset_field ch_headers i = 0 /\ bitmap_bytes ch = []) /\
  (forall i ch, nth_error ch_list i = Some ch -> is_blank ch = false ->
     encode_rows ch = Ok (bitmap_bytes ch) /\
     offset_field ch_headers i =
       4 * len ch_list + bitmap_len (firstn i ch_list)) /\
  (forall i j ci cj, (i <= j)%nat ->
     nth_error ch_list i = Some ci -> nth_error ch_list j = Some cj ->
     is_blank ci = false -> is_blank cj = false ->
     offset_field ch_headers i <= offset_field ch_headers j) /\
  len (ch_headers ++ ch_rows) = 4 * len ch_list + len ch_rows.
Proof.
  intros E. apply pack_chars_Ok_inv in E as (-> & -> & H).
  assert (Hlen : len (table (4 * len ch_list) 0 ch_list) = 4 * len ch_list).
  { unfold len. rewrite table_length. lia. }
  assert (Hoff : forall i ch, nth_error ch_list i = Some ch ->
            is_blank ch = false ->
            offset_field (table (4 * len ch_list) 0 ch_list) i =
            4 * len ch_list + bitmap_len (firstn i ch_list)).
  { intros i ch Hi Hb. rewrite (table_offset_field _ _ _ _ _ Hi), Hb. lia. }
  split; [exact Hlen|]. split; [reflexivity|].
  split; [apply bitmap_len_flat_map|]. split; [|split; [|split]].
  - intros i ch Hi Hb. split.
    + now rewrite (table_offset_field _ _ _ _ _ Hi), Hb.
    + unfold bitmap_bytes. now rewrite Hb.
  - intros i ch Hi Hb. split; [now apply (H i ch)|exact (Hoff i ch Hi Hb)].
  - intros i j ci cj Hij Hi Hj Hbi Hbj.
    rewrite (Hoff i ci Hi Hbi), (Hoff j cj Hj Hbj).
    pose proof (bitmap_len_firstn_mono ch_list i j Hij). lia.
  - rewrite len_app, Hlen. reflexivity.
Qed.

(** C4, instance: three 8x12 cells, ink only in the middle one; its record
    holds offset 12 and the output is 13 bytes long. *)
Lemma pack_offsets_witness :
  ch_list_of (dot_image 8 0) (8, 12) (0, 0, 24, 12) =
    Ok [Char_attrs (0, 0, 8, 12);
        mkChar 8 0 8 12 16 12 8 9 0 1 0 1 0 1 [1];
        Char_attrs (16, 0, 8, 12)] /\
  pack_chars [Char_attrs (0, 0, 8, 12);
              mkChar 8 0 8 12 16 12 8 9 0 1 0 1 0 1 [1];
              Char_attrs (16, 0, 8, 12)] =
    Ok ([0; 172; 0; 0; 17; 144; 12; 0; 0; 172; 0; 0], [1]) /\
  offset_field [0; 172; 0; 0; 17; 144; 12; 0; 0; 172; 0; 0] 1 = 4 * 3 + 0 /\
  len ([0; 172; 0; 0; 17; 144; 12; 0; 0; 172; 0; 0] ++ [1]) = 4 * 3 + 1.
Proof.
  split; [vm_compute; reflexivity|].
  assert (E : pack_chars [Char_attrs (0, 0, 8, 12);
                          mkChar 8 0 8 12 16 12 8 9 0 1 0 1 0 1 [1];
                          Char_attrs (16, 0, 8, 12)] =
              Ok ([0; 172; 0; 0; 17; 144; 12; 0; 0; 172; 0; 0], [1]))
    by (vm_compute; reflexivity).
  split; [exact E|].
  destruct (pack_offsets _ _ _ E) as (_ & _ & _ & _ & Hoff & _ & Hlen).
  split; [|exact Hlen].
  exact (proj2 (Hoff 1%nat _ eq_refl eq_refl)).
Defined.

(** C8: when some non-blank glyph's computed offset (4 * glyphCount plus
    the bitmap bytes of the earlier glyphs) is 65536 or more, [pack_chars]
    raises and so does [pack_font], which then writes nothing; when
    [pack_chars] returns, every record's offset field is in the 16-bit range
    and its two bytes are the computed offset, low byte first (0 for a blank
    glyph); and glyphs that encode, with offsets below 65536, always pack. *)
Theorem offset_overflow (ch_list : list Char) :
  (forall i ch, nth_error ch_list i = Some ch -> is_blank ch = false ->
     65536 <= 4 * len ch_list + bitmap_len (firstn i ch_list) ->
     (exists e, pack_chars ch_list = Raise e) /\
     forall im_pixels ch_size im_rect,
       ch_list_of im_pixels ch_size im_rect = Ok ch_list ->
       exists e, pack_font im_pixels ch_size im_rect = Raise e) /\
  (forall ch_headers ch_rows,
     pack_chars ch_list = Ok (ch_headers, ch_rows) ->
     forall i ch, nth_error ch_list i = Some ch ->
       let off := if is_blank ch then 0
                  else 4 * len ch_list + bitmap_len (firstn i ch_list) in
       0 <= off < 65536 /\
       nth (4 * i + 2) ch_headers 0 = Z.land off 255 /\
       nth (4 * i + 3) ch_headers 0 = Z.shiftr off 8 /\
       offset_field ch_headers i = off) /\
  ((forall ch, In ch ch_list -> exists h, encode_header ch = Ok h) ->
   (forall ch, In ch ch_list -> is_blank ch = false ->
               exists r, encode_rows ch = Ok r) ->
   (forall i ch, nth_error ch_list i = Some ch -> is_blank ch = false ->
      4 * len ch_list + bitmap_len (firstn i ch_list) < 65536) ->
   exists ch_headers ch_rows, pack_chars ch_list = Ok (ch_headers, ch_rows)).
Proof.
  split; [|split].
  - intros i ch Hi Hb Hbig.
    assert (Hraise : exists e, pack_chars ch_list = Raise e).
    { destruct (pack_chars ch_list) as [[hs rs]|e] eqn:E; [|now exists e].
      apply pack_chars_Ok_inv in E as (_ & _ & H).
      destruct (H i ch Hi Hb) as [Hlt _]. lia. }
    split; [exact Hraise|].
    intros im_pixels ch_size im_rect El. destruct Hraise as [e He].
    exists e. unfold pack_font. rewrite El. cbn [bind]. now rewrite He.
  - intros hs rs E i ch Hi. cbv zeta.
    apply pack_chars_Ok_inv in E as (-> & _ & H).
    destruct (table_record (4 * len ch_list) ch_list 0 i ch Hi)
      as (_ & _ & H2 & H3).
    cbv zeta in H2, H3.
    rewrite (table_offset_field _ _ _ _ _ Hi), H2, H3.
    destruct (is_blank ch) eqn:Hb.
    + repeat split; lia.
    + destruct (H i ch Hi Hb) as [Hr _].
      replace (0 + bitmap_len (firstn i ch_list) + 4 * len ch_list)
        with (4 * len ch_list + bitmap_len (firstn i ch_list)) by lia.
      repeat split; lia.
  - intros Hh Hr Ho. rewrite pack_chars_loop.
    rewrite pack_loop_total; [eauto|assumption|assumption|].
    intros i ch Hi Hb. specialize (Ho i ch Hi Hb).
    change (len (@nil Z)) with 0.
    pose proof (bitmap_len_nonneg (firstn i ch_list)).
    pose proof (len_nonneg ch_list). lia.
Qed.

(** C8, instance: 16384 one-pixel glyphs make a 65536-byte header table, so
    the first offset already overflows. *)
Lemma offset_overflow_witness :
  (exists e,
     pack_chars (repeat (mkChar 0 0 8 12 8 12 0 1 0 1 0 1 0 1 [1])
                   (Z.to_nat 16384)) = Raise e) /\
  pack_chars (repeat (mkChar 0 0 8 12 8 12 0 1 0 1 0 1 0 1 [1])
                (Z.to_nat 16384)) = Raise ValueError_bytes.
Proof.
  split.
  - refine (proj1 (proj1 (offset_overflow
                     (repeat (mkChar 0 0 8 12 8 12 0 1 0 1 0 1 0 1 [1])
                        (Z.to_nat 16384))) 0%nat
                     (mkChar 0 0 8 12 8 12 0 1 0 1 0 1 0 1 [1]) _ eq_refl _)).
    + vm_compute. reflexivity.
    + vm_compute. discriminate.
  - vm_compute. reflexivity.
Defined.

(** ** The grid loops *)

Lemma range_nth_error a b k :
  0 <= k < b - a -> nth_error (range a b) (Z.to_nat k) = Some (a + k).
Proof.
  intros Hk.
  rewrite (nth_error_nth' _ 0) by (rewrite range_length; lia).
  rewrite range_nth by lia. f_equal. lia.
Qed.

Lemma map_result_map {A B C : Type} (g : A -> B) (f : B -> result C) l :
  map_result f (map g l) = map_result (fun x => f (g x)) l.
Proof.
  induction l as [|x l IH]; [reflexivity|]. cbn [map map_result].
  now rewrite IH.
Qed.

Lemma map_result_app {A B : Type} (f : A -> result B) l1 l2 :
  map_result f (l1 ++ l2) =
  cs1 <- map_result f l1 ;; cs2 <- map_result f l2 ;; Ok (cs1 ++ cs2).
Proof.
  induction l1 as [|x l1 IH]; cbn [app map_result bind].
  - now destruct (map_result f l2).
  - destruct (f x) as [c|e]; cbn [bind]; [|reflexivity]. rewrite IH.
    destruct (map_result f l1) as [cs1|e]; cbn [bind]; [|reflexivity].
    now destruct (map_result f l2).
Qed.

Lemma for_each_append {A B : Type} (f : A -> result B) xs : forall acc,
  for_each (fun acc x => c <- f x ;; Ok (acc ++ [c])) xs acc =
  cs <- map_result f xs ;; Ok (acc ++ cs).
Proof.
  induction xs as [|x xs IH]; intros acc; cbn [for_each map_result bind].
  - now rewrite app_nil_r.
  - destruct (f x) as [c|e]; cbn [bind]; [|reflexivity]. rewrite IH.
    destruct (map_result f xs) as [cs|e]; cbn [bind]; [|reflexivity].
    now rewrite <- app_assoc.
Qed.

Lemma for_each_nested {A B C : Type} (f : A * B -> result C) xs ys :
  forall acc,
  for_each
    (fun acc y => for_each (fun acc x => c <- f (x, y) ;; Ok (acc ++ [c])) xs acc)
    ys acc =
  cs <- map_result f (flat_map (fun y => map (fun x => (x, y)) xs) ys) ;;
  Ok (acc ++ cs).
Proof.
  induction ys as [|y ys IH]; intros acc; cbn [for_each flat_map].
  - cbn. now rewrite app_nil_r.
  - rewrite (for_each_append (fun x => f (x, y))), map_result_app,
      map_result_map.
    destruct (map_result (fun x => f (x, y)) xs) as [cs1|e]; cbn [bind];
      [|reflexivity].
    rewrite IH.
    destruct (map_result f (flat_map (fun y => map (fun x => (x, y)) xs) ys))
      as [cs2|e]; cbn [bind]; [|reflexivity].
    now rewrite app_assoc.
Qed.

Lemma map_result_Ok_inv {A B : Type} (f : A -> result B) l : forall cs,
  map_result f l = Ok cs -> Forall2 (fun x c => f x = Ok c) l cs.
Proof.
  induction l as [|x l IH]; intros cs E; cbn [map_result] in E.
  - injection E as <-. constructor.
  - destruct (f x) as [c|e] eqn:Hx; cbn [bind] in E; [|discriminate].
    destruct (map_result f l) as [cs'|e]; cbn [bind] in E; [|discriminate].
    injection E as <-. constructor; [exact Hx|now apply IH].
Qed.

Lemma map_result_total {A B : Type} (f : A -> result B) l :
  (forall x, In x l -> exists c, f x = Ok c) ->
  exists cs, map_result f l = Ok cs.
Proof.
  induction l as [|x l IH]; intros H; cbn [map_result]; [now exists []|].
  destruct (H x (or_introl eq_refl)) as [c ->].
  destruct IH as [cs ->]; [intros; apply H; now right|].
  now exists (c :: cs).
Qed.

Lemma map_result_Raise_inv {A B : Type} (f : A -> result B) l e :
  map_result f l = Raise e -> exists x, In x l /\ f x = Raise e.
Proof.
  induction l as [|x l IH]; intros E; cbn [map_result] in E; [discriminate|].
  destruct (f x) as [c|e'] eqn:Hx; cbn [bind] in E.
  - destruct (map_result f l) as [cs|e'']; cbn [bind] in E; [discriminate|].
    destruct IH as (x' & Hin & Hx'); [exact E|].
    exists x'. split; [now right|exact Hx'].
  - injection E as ->. exists x. split; [now left|exact Hx].
Qed.

Lemma map_result_Raise_intro {A B : Type} (f : A -> result B) l x e :
  In x l -> f x = Raise e -> exists e', map_result f l = Raise e'.
Proof.
  intros Hin Hx. induction l as [|a l IH]; [destruct Hin|].
  cbn [map_result]. destruct (f a) as [c|e'] eqn:Ha; cbn [bind];
    [|now exists e'].
  destruct Hin as [->|Hin]; [congruence|].
  destruct (IH Hin) as [e' ->]. now exists e'.
Qed.

Lemma nth_error_flat_map_rows {A B : Type} (g : A -> list B) (n : nat) l :
  (forall a, length (g a) = n) ->
  forall j i a, nth_error l j = Some a -> (i < n)%nat ->
  nth_error (flat_map g l) (j * n + i) = nth_error (g a) i.
Proof.
  intros Hg. induction l as [|a0 l IH]; intros j i a Hj Hi; [now destruct j|].
  cbn [flat_map]. destruct j as [|j].
  - cbn in Hj. injection Hj as ->. cbn [Nat.mul Nat.add].
    apply nth_error_app1. now rewrite Hg.
  - cbn [nth_error] in Hj. rewrite nth_error_app2 by (rewrite Hg; lia).
    rewrite Hg. replace (S j * n + i - n)%nat with (j * n + i)%nat by lia.
    now apply IH.
Qed.

Lemma grid_cells_length nx ny :
  length (grid_cells nx ny) = (Z.to_nat nx * Z.to_nat ny)%nat.
Proof.
  unfold grid_cells.
  assert (H : forall l : list Z,
    length (flat_map (fun cy => map (fun cx => (cx, cy)) (range 0 nx)) l) =
    (Z.to_nat nx * length l)%nat).
  { induction l as [|cy l IH]; cbn [flat_map length]; [lia|].
    rewrite length_app, IH, length_map, range_length. lia. }
  rewrite H, range_length. f_equal; lia.
Qed.

Lemma grid_cells_nth nx ny cx cy :
  0 <= cx < nx -> 0 <= cy < ny ->
  nth_error (grid_cells nx ny) (Z.to_nat (cy * nx + cx)) = Some (cx, cy).
Proof.
  intros Hx Hy. unfold grid_cells.
  replace (Z.to_nat (cy * nx + cx))
    with (Z.to_nat cy * Z.to_nat nx + Z.to_nat cx)%nat by nia.
  rewrite (nth_error_flat_map_rows _ (Z.to_nat nx) _
             ltac:(intros; now rewrite length_map, range_length, Z.sub_0_r)
             _ _ cy).
  - rewrite nth_error_map, range_nth_error by lia. reflexivity.
  - rewrite range_nth_error by lia. reflexivity.
  - lia.
Qed.

Lemma In_grid_cells nx ny cx cy :
  In (cx, cy) (grid_cells nx ny) <-> 0 <= cx < nx /\ 0 <= cy < ny.
Proof.
  unfold grid_cells. rewrite in_flat_map. split.
  - intros (y & Hy & Hin). apply in_map_iff in Hin as (x & E & Hx).
    inversion E; subst. apply In_range in Hx, Hy. lia.
  - intros [Hx Hy]. exists cy. split; [apply In_range; lia|].
    apply in_map_iff. exists cx. split; [reflexivity|apply In_range; lia].
Qed.

(** The grid loops construct the glyphs of the cells in row-major order. *)
Lemma ch_list_of_grid im_pixels cw ch x y w h :
  cw <> 0 -> ch <> 0 ->
  ch_list_of im_pixels (cw, ch) (x, y, w, h) =
  map_result
    (fun p => Char_init im_pixels
                (cell_rect (cw, ch) (x, y, w, h) (fst p) (snd p)))
    (grid_cells (w / cw) (h / ch)).
Proof.
  intros Hcw Hch. unfold ch_list_of, floor_div.
  replace (cw =? 0) with false by lia. replace (ch =? 0) with false by lia.
  cbn [bind].
  rewrite (for_each_nested
             (fun p => Char_init im_pixels
                         (cell_rect (cw, ch) (x, y, w, h) (fst p) (snd p)))).
  unfold grid_cells.
  now destruct (map_result _ _).
Qed.

Lemma Forall2_nth_error_left {A B : Type} (R : A -> B -> Prop) l cs :
  Forall2 R l cs ->
  forall i x, nth_error l i = Some x ->
  exists c, nth_error cs i = Some c /\ R x c.
Proof.
  induction 1 as [|x0 c0 l cs HR _ IH]; intros i x Hi; [now destruct i|].
  destruct i as [|i].
  - cbn in Hi. injection Hi as <-. now exists c0.
  - cbn [nth_error] in Hi |- *. now apply IH.
Qed.

Lemma Forall2_In_right {A B : Type} (R : A -> B -> Prop) l cs :
  Forall2 R l cs -> forall c, In c cs -> exists x, In x l /\ R x c.
Proof.
  induction 1 as [|x0 c0 l cs HR _ IH]; intros c Hc; [destruct Hc|].
  destruct Hc as [<-|Hc].
  - exists x0. split; [now left|exact HR].
  - destruct (IH c Hc) as (x & Hx & HRx). exists x. split; [now right|exact HRx].
Qed.

Lemma map_result_ext_in {A B : Type} (f g : A -> result B) l :
  (forall x, In x l -> f x = g x) -> map_result f l = map_result g l.
Proof.
  induction l as [|x l IH]; intros H; cbn [map_result]; [reflexivity|].
  rewrite (H x (or_introl eq_refl)), IH; [reflexivity|].
  intros; apply H; now right.
Qed.

Lemma map_result_Ok_intro {A B : Type} (f : A -> result B) l cs :
  Forall2 (fun x c => f x = Ok c) l cs -> map_result f l = Ok cs.
Proof.
  induction 1 as [|x c l cs Hx _ IH]; cbn [map_result]; [reflexivity|].
  now rewrite Hx, IH.
Qed.

(** A cell of the grid lies inside the part of the region that whole cells
    cover. *)
Lemma cell_in_covered cw ch x y w h cx cy px py :
  0 < cw -> 0 < ch -> 0 <= cx < w / cw -> 0 <= cy < h / ch ->
  in_cell (x + cx * cw, y + cy * ch, cw, ch) px py ->
  in_cell (x, y, w / cw * cw, h / ch * ch) px py.
Proof.
  intros Hcw Hch Hx Hy [Hpx Hpy]. cbn. nia.
Qed.

(** The same for the access that may raise. *)
Lemma PIL_ch_list_of_grid im_pixels cw ch x y w h :
  cw <> 0 -> ch <> 0 ->
  PIL.ch_list_of im_pixels (cw, ch) (x, y, w, h) =
  map_result
    (fun p => PIL.Char_init im_pixels
                (cell_rect (cw, ch) (x, y, w, h) (fst p) (snd p)))
    (grid_cells (w / cw) (h / ch)).
Proof.
  intros Hcw Hch. unfold PIL.ch_list_of, floor_div.
  replace (cw =? 0) with false by lia. replace (ch =? 0) with false by lia.
  cbn [bind].
  rewrite (for_each_nested
             (fun p => PIL.Char_init im_pixels
                         (cell_rect (cw, ch) (x, y, w, h) (fst p) (snd p)))).
  unfold grid_cells.
  now destruct (map_result _ _).
Qed.

(** With every pixel of the cells readable, extraction and [pack_font] are
    those from the ink that was read. *)
Lemma PIL_ch_list_of_reads im_pixels ink cw ch x y w h :
  0 < cw -> 0 < ch ->
  reads im_pixels (x, y, w / cw * cw, h / ch * ch) ink ->
  PIL.ch_list_of im_pixels (cw, ch) (x, y, w, h) =
  ch_list_of ink (cw, ch) (x, y, w, h).
Proof.
  intros Hcw Hch Hr.
  rewrite PIL_ch_list_of_grid, ch_list_of_grid by lia.
  apply map_result_ext_in. intros [cx cy] Hin.
  apply In_grid_cells in Hin as [Hx Hy]. cbn [cell_rect fst snd].
  apply PIL_Char_init_reads; [lia|].
  intros px py Hc. apply Hr.
  exact (cell_in_covered cw ch x y w h cx cy px py Hcw Hch Hx Hy Hc).
Qed.

Lemma PIL_pack_font_reads im_pixels ink cw ch x y w h :
  0 < cw -> 0 < ch ->
  reads im_pixels (x, y, w / cw * cw, h / ch * ch) ink ->
  PIL.pack_font im_pixels (cw, ch) (x, y, w, h) =
  pack_font ink (cw, ch) (x, y, w, h).
Proof.
  intros Hcw Hch Hr. unfold PIL.pack_font, pack_font.
  now rewrite (PIL_ch_list_of_reads im_pixels ink) by assumption.
Qed.

(** What extraction returns, it returns from the ink that was read. *)
Lemma PIL_ch_list_of_Ok_ideal im_pixels cw ch x y w h ch_list :
  0 < cw -> 0 < ch ->
  PIL.ch_list_of im_pixels (cw, ch) (x, y, w, h) = Ok ch_list ->
  ch_list_of (ink_of im_pixels) (cw, ch) (x, y, w, h) = Ok ch_list.
Proof.
  intros Hcw Hch E. rewrite PIL_ch_list_of_grid in E by lia.
  rewrite ch_list_of_grid by lia.
  apply map_result_Ok_inv in E. apply map_result_Ok_intro.
  revert E. apply Forall2_impl.
  intros [cx cy] c Hinit. cbn [cell_rect fst snd] in Hinit |- *.
  destruct (PIL_Char_init_cases im_pixels (x + cx * cw) (y + cy * ch) cw ch
              ltac:(lia)) as [[_ E']|(px & py & e & _ & _ & E')];
    congruence.
Qed.

Lemma float_exact_pos a b : float_exact a b -> 0 < b.
Proof. now intros [_ [H _]]. Qed.

(** C9: for a positive cell size, with the region and the cell size in the
    range where the float quotients of [pack_font] have the floor of the
    exact ones (below [2 ^ 53]), the grid loops produce one glyph per cell
    of the [floor(width / cellWidth)] by [floor(height / cellHeight)] grid,
    rows outermost: the glyph at index [cy * cellCountX + cx] is the one
    constructed from the cell with origin
    [(x + cx * cellWidth, y + cy * cellHeight)]; and the loops return as
    soon as every cell's construction returns. *)
Theorem grid_order (im_pixels : PIL.pixel_access) (cw ch x y w h : Z) :
  float_exact w cw -> float_exact h ch ->
  (forall ch_list,
     PIL.ch_list_of im_pixels (cw, ch) (x, y, w, h) = Ok ch_list ->
     length ch_list = (Z.to_nat (w / cw) * Z.to_nat (h / ch))%nat /\
     (0 <= w -> 0 <= h -> len ch_list = (w / cw) * (h / ch)) /\
     forall cx cy, 0 <= cx < w / cw -> 0 <= cy < h / ch ->
       exists c,
         nth_error ch_list (Z.to_nat (cy * (w / cw) + cx)) = Some c /\
         PIL.Char_init im_pixels (x + cx * cw, y + cy * ch, cw, ch) = Ok c) /\
  ((forall cx cy, 0 <= cx < w / cw -> 0 <= cy < h / ch ->
      exists c,
        PIL.Char_init im_pixels (x + cx * cw, y + cy * ch, cw, ch) = Ok c) ->
   exists ch_list,
     PIL.ch_list_of im_pixels (cw, ch) (x, y, w, h) = Ok ch_list).
Proof.
  intros Hfw Hfh.
  pose proof (float_exact_pos _ _ Hfw) as Hcw.
  pose proof (float_exact_pos _ _ Hfh) as Hch.
  rewrite PIL_ch_list_of_grid by lia. split.
  - intros ch_list E. apply map_result_Ok_inv in E.
    pose proof (Forall2_length E) as Hlen. rewrite grid_cells_length in Hlen.
    split; [now rewrite <- Hlen|]. split.
    + intros Hw Hh. unfold len. rewrite <- Hlen.
      assert (0 <= w / cw) by (apply Z.div_pos; lia).
      assert (0 <= h / ch) by (apply Z.div_pos; lia).
      rewrite Nat2Z.inj_mul, !Z2Nat.id by assumption. reflexivity.
    + intros cx cy Hx Hy.
      destruct (Forall2_nth_error_left _ _ _ E _ _
                  (grid_cells_nth (w / cw) (h / ch) cx cy Hx Hy))
        as (c & Hc & Hinit).
      exists c. split; [exact Hc|exact Hinit].
  - intros Hall. apply map_result_total. intros [cx cy] Hin.
    apply In_grid_cells in Hin as [Hx Hy]. exact (Hall cx cy Hx Hy).
Qed.

(** C9, instance: a 24x25 region of a loaded image of 24x25 pixels, cut into
    8x12 cells, gives 3 columns and 2 rows; index 4 is the cell at column 1
    of row 1. *)
Lemma grid_order_witness :
  float_exact 24 8 /\ float_exact 25 12 /\
  exists ch_list,
    PIL.ch_list_of (loaded_image 24 25 (dot_image 8 0)) (8, 12) (0, 0, 24, 25) =
      Ok ch_list /\
    length ch_list = 6%nat /\
    exists c,
      nth_error ch_list 4 = Some c /\
      PIL.Char_init (loaded_image 24 25 (dot_image 8 0))
        (0 + 1 * 8, 0 + 1 * 12, 8, 12) = Ok c.
Proof.
  assert (Hfw : float_exact 24 8) by (unfold float_exact; lia).
  assert (Hfh : float_exact 25 12) by (unfold float_exact; lia).
  split; [exact Hfw|]. split; [exact Hfh|].
  destruct (PIL.ch_list_of (loaded_image 24 25 (dot_image 8 0)) (8, 12)
              (0, 0, 24, 25))
    as [ch_list|e] eqn:E; [|vm_compute in E; discriminate].
  exists ch_list. split; [reflexivity|].
  destruct (proj1 (grid_order (loaded_image 24 25 (dot_image 8 0))
                     8 12 0 0 24 25 Hfw Hfh) ch_list E) as (Hlen & _ & Hnth).
  split; [exact Hlen|].
  exact (Hnth 1 1 ltac:(cbn; lia) ltac:(cbn; lia)).
Defined.

(** ** When construction raises *)

Lemma Char_init_Raise_iff im_pixels rx ry sx sy :
  0 <= sx ->
  (exists e, Char_init im_pixels (rx, ry, sx, sy) = Raise e) <->
  (exists xm xM ym yM,
     tight_box im_pixels (rx, ry, sx, sy) xm xM ym yM /\
     (xM - xm > 12 \/ yM - ym > 12 \/ 16 <= ym - ry)).
Proof.
  intros Hsx.
  destruct (Char_init_outcome im_pixels rx ry sx sy Hsx)
    as [[Hno E]|(xm & xM & ym & yM & mf & Mf & ml & Ml & Hbox & _ & _ & H)].
  - split.
    + intros [e He]. congruence.
    + intros (xm & xM & ym & yM & ((py & Hc & Hi) & _) & _).
      rewrite (Hno _ _ Hc) in Hi. discriminate.
  - split.
    + intros [e He]. exists xm, xM, ym, yM. split; [exact Hbox|].
      destruct H as [[Hbig _]|[(_ & _ & Hlow & _)|(_ & _ & _ & E)]];
        [tauto|tauto|congruence].
    + intros (xm' & xM' & ym' & yM' & Hbox' & Hbad).
      destruct (tight_box_unique _ _ _ _ _ _ _ _ _ _ Hbox Hbox')
        as (<- & <- & <- & <-).
      destruct H as [[_ E]|[(_ & _ & _ & E)|(Hw & Hh & Ho & _)]];
        [eauto|eauto|lia].
Qed.

Lemma Char_init_sizes im_pixels rx ry sx sy self :
  0 <= sx -> 0 <= sy ->
  Char_init im_pixels (rx, ry, sx, sy) = Ok self ->
  0 <= Z.max 0 (x_max self - x_min self) <= 12 /\
  0 <= Z.max 0 (y_max self - y_min self) <= 12 /\
  (is_blank self = true ->
   Z.max 0 (x_max self - x_min self) = 0 /\
   Z.max 0 (y_max self - y_min self) = 0) /\
  (is_blank self = false ->
   1 <= x_max self - x_min self <= 12 /\ 1 <= y_max self - y_min self <= 12).
Proof.
  intros Hsx Hsy E.
  destruct (Char_init_Ok_inv im_pixels rx ry sx sy self Hsx E)
    as [[_ ->]|(xm & xM & ym & yM & mf & Mf & ml & Ml & Hbox & _ & _ & Hw
                & Hh & _ & ->)].
  - rewrite is_blank_attrs by exact Hsx.
    cbn [Char_attrs x_max x_min y_max y_min].
    repeat split; try lia; discriminate.
  - pose proof (tight_box_bounds _ _ _ _ _ _ _ _ _ Hbox) as Hb.
    assert (Hnb : is_blank
      (set_rows (map (build_row im_pixels xm xM) (range ym yM))
         (scanned (rx, ry, sx, sy) xm xM ym yM mf Mf ml Ml)) = false).
    { unfold is_blank. cbn [set_rows scanned x_max x_min y_max y_min].
      apply orb_false_iff. lia. }
    rewrite Hnb. cbn [set_rows scanned x_max x_min y_max y_min].
    repeat split; try lia; discriminate.
Qed.

(** C7, counterexample: a cell 32 rows tall whose only ink pixel is in
    row 20 has a 1x1 ink box, yet extraction raises. *)
Lemma low_ink_raises_without_oversize :
  ch_list_of (dot_image 3 20) (8, 32) (0, 0, 8, 32) = Raise AssertionError /\
  tight_box (dot_image 3 20) (0, 0, 8, 32) 3 4 20 21 /\
  ~ (exists cx cy xm xM ym yM,
       0 <= cx < 8 / 8 /\ 0 <= cy < 32 / 32 /\
       tight_box (dot_image 3 20) (0 + cx * 8, 0 + cy * 32, 8, 32)
         xm xM ym yM /\
       (xM - xm > 12 \/ yM - ym > 12)).
Proof.
  assert (Hink : ink_at (dot_image 3 20) (0, 0, 8, 32) 3 20)
    by (split; [cbn; lia|reflexivity]).
  assert (Hbox : tight_box (dot_image 3 20) (0, 0, 8, 32) 3 4 20 21).
  { split; [now exists 20|]. split; [now exists 20|].
    split; [now exists 3|]. split; [now exists 3|].
    intros px py [_ Hi]. unfold dot_image in Hi. lia. }
  split; [vm_compute; reflexivity|]. split; [exact Hbox|].
  intros (cx & cy & xm & xM & ym & yM & Hx & Hy & Hbox' & Hbig).
  change (8 / 8) with 1 in Hx. change (32 / 32) with 1 in Hy.
  assert (cx = 0) by lia. assert (cy = 0) by lia. subst cx cy.
  cbn [Z.mul Z.add] in Hbox'.
  destruct (tight_box_unique _ _ _ _ _ _ _ _ _ _ Hbox Hbox')
    as (<- & <- & <- & <-).
  lia.
Qed.

(** Extraction from readable ink, for a positive cell size. *)
Lemma ch_list_of_raises_iff (im_pixels : pixels) (cw ch x y w h : Z) :
  0 < cw -> 0 < ch ->
  ((exists e, ch_list_of im_pixels (cw, ch) (x, y, w, h) = Raise e) <->
   (exists cx cy xm xM ym yM,
      0 <= cx < w / cw /\ 0 <= cy < h / ch /\
      tight_box im_pixels (x + cx * cw, y + cy * ch, cw, ch) xm xM ym yM /\
      (xM - xm > 12 \/ yM - ym > 12 \/ 16 <= ym - (y + cy * ch)))) /\
  (forall ch_list,
     ch_list_of im_pixels (cw, ch) (x, y, w, h) = Ok ch_list ->
     forall c, In c ch_list ->
       0 <= Z.max 0 (x_max c - x_min c) <= 12 /\
       0 <= Z.max 0 (y_max c - y_min c) <= 12 /\
       (is_blank c = true ->
        Z.max 0 (x_max c - x_min c) = 0 /\ Z.max 0 (y_max c - y_min c) = 0) /\
       (is_blank c = false ->
        1 <= x_max c - x_min c <= 12 /\ 1 <= y_max c - y_min c <= 12)).
Proof.
  intros Hcw Hch. split.
  - rewrite ch_list_of_grid by lia. split.
    + intros [e He]. apply map_result_Raise_inv in He as ([cx cy] & Hin & He).
      apply In_grid_cells in Hin as [Hx Hy]. cbn [cell_rect fst snd] in He.
      destruct (proj1 (Char_init_Raise_iff im_pixels _ _ cw ch ltac:(lia))
                  (ex_intro _ e He)) as (xm & xM & ym & yM & Hbox & Hbad).
      exists cx, cy, xm, xM, ym, yM. auto.
    + intros (cx & cy & xm & xM & ym & yM & Hx & Hy & Hbox & Hbad).
      destruct (proj2 (Char_init_Raise_iff im_pixels _ _ cw ch ltac:(lia))
                  (ex_intro _ xm (ex_intro _ xM (ex_intro _ ym
                     (ex_intro _ yM (conj Hbox Hbad)))))) as [e He].
      apply (map_result_Raise_intro _ _ (cx, cy) e);
        [now apply In_grid_cells|exact He].
  - intros ch_list E c Hc. rewrite ch_list_of_grid in E by lia.
    apply map_result_Ok_inv in E.
    destruct (Forall2_In_right _ _ _ E c Hc) as ([cx cy] & _ & Hinit).
    cbn [cell_rect fst snd] in Hinit.
    apply (Char_init_sizes im_pixels _ _ cw ch c ltac:(lia) ltac:(lia) Hinit).
Qed.

(** C7, amended: for a positive cell size, with the region and the cell
    size below [2 ^ 53] and every pixel of the cells of the grid readable
    (the cells lie inside the image), extraction raises exactly when some
    cell's tight ink bounding box has width > 12 or height > 12, or starts 16
    or more rows below the top of its cell (which needs a cell more than 16
    rows tall, so for cells of height at most 16 the size limit alone
    decides); when it raises, [pack_font] raises the same exception and
    writes nothing; when it returns, every glyph's recorded (clamped) width
    and height lie in [0, 12], they are 0 for a blank glyph, and a non-blank
    glyph has width and height in [1, 12]. *)
Theorem extraction_raises_iff (im_pixels : PIL.pixel_access) (ink : pixels)
  (cw ch x y w h : Z) :
  float_exact w cw -> float_exact h ch ->
  reads im_pixels (x, y, w / cw * cw, h / ch * ch) ink ->
  ((exists e, PIL.ch_list_of im_pixels (cw, ch) (x, y, w, h) = Raise e) <->
   (exists cx cy xm xM ym yM,
      0 <= cx < w / cw /\ 0 <= cy < h / ch /\
      tight_box ink (x + cx * cw, y + cy * ch, cw, ch) xm xM ym yM /\
      (xM - xm > 12 \/ yM - ym > 12 \/ 16 <= ym - (y + cy * ch)))) /\
  (ch <= 16 ->
   ((exists e, PIL.ch_list_of im_pixels (cw, ch) (x, y, w, h) = Raise e) <->
    (exists cx cy xm xM ym yM,
       0 <= cx < w / cw /\ 0 <= cy < h / ch /\
       tight_box ink (x + cx * cw, y + cy * ch, cw, ch) xm xM ym yM /\
       (xM - xm > 12 \/ yM - ym > 12)))) /\
  (forall e,
     PIL.ch_list_of im_pixels (cw, ch) (x, y, w, h) = Raise e ->
     PIL.pack_font im_pixels (cw, ch) (x, y, w, h) = Raise e) /\
  (forall ch_list,
     PIL.ch_list_of im_pixels (cw, ch) (x, y, w, h) = Ok ch_list ->
     forall c, In c ch_list ->
       0 <= Z.max 0 (x_max c - x_min c) <= 12 /\
       0 <= Z.max 0 (y_max c - y_min c) <= 12 /\
       (is_blank c = true ->
        Z.max 0 (x_max c - x_min c) = 0 /\ Z.max 0 (y_max c - y_min c) = 0) /\
       (is_blank c = false ->
        1 <= x_max c - x_min c <= 12 /\ 1 <= y_max c - y_min c <= 12)).
Proof.
  intros Hfw Hfh Hr.
  pose proof (float_exact_pos _ _ Hfw) as Hcw.
  pose proof (float_exact_pos _ _ Hfh) as Hch.
  rewrite (PIL_ch_list_of_reads im_pixels ink) by assumption.
  destruct (ch_list_of_raises_iff ink cw ch x y w h Hcw Hch) as [Hmain Hsizes].
  split; [exact Hmain|]. split; [|split].
  - intros H16. rewrite Hmain. split.
    + intros (cx & cy & xm & xM & ym & yM & Hx & Hy & Hbox & Hbad).
      exists cx, cy, xm, xM, ym, yM.
      pose proof (tight_box_bounds _ _ _ _ _ _ _ _ _ Hbox) as Hb.
      repeat (split; [assumption|]). lia.
    + intros (cx & cy & xm & xM & ym & yM & Hx & Hy & Hbox & Hbad).
      exists cx, cy, xm, xM, ym, yM.
      repeat (split; [assumption|]). tauto.
  - intros e He. unfold PIL.pack_font.
    rewrite (PIL_ch_list_of_reads im_pixels ink) by assumption.
    now rewrite He.
  - exact Hsizes.
Qed.

(** C7, instance: a loaded image of 32x16 pixels with a 13-column ink box in
    the first of its two 16x16 cells. *)
Lemma extraction_raises_iff_witness :
  float_exact 32 16 /\ float_exact 16 16 /\
  reads (loaded_image 32 16 (dots_image [(0, 0); (12, 1)]))
    (0, 0, 32 / 16 * 16, 16 / 16 * 16) (dots_image [(0, 0); (12, 1)]) /\
  (exists e,
     PIL.ch_list_of (loaded_image 32 16 (dots_image [(0, 0); (12, 1)]))
       (16, 16) (0, 0, 32, 16) = Raise e) /\
  PIL.pack_font (loaded_image 32 16 (dots_image [(0, 0); (12, 1)]))
    (16, 16) (0, 0, 32, 16) = Raise (ValueError_size 13 2).
Proof.
  assert (Hfw : float_exact 32 16) by (unfold float_exact; lia).
  assert (Hfh : float_exact 16 16) by (unfold float_exact; lia).
  assert (Hr : reads (loaded_image 32 16 (dots_image [(0, 0); (12, 1)]))
                 (0, 0, 32 / 16 * 16, 16 / 16 * 16)
                 (dots_image [(0, 0); (12, 1)]))
    by (apply loaded_image_reads; cbn; lia).
  split; [exact Hfw|]. split; [exact Hfh|]. split; [exact Hr|].
  pose proof (extraction_raises_iff
                (loaded_image 32 16 (dots_image [(0, 0); (12, 1)]))
                (dots_image [(0, 0); (12, 1)])
                16 16 0 0 32 16 Hfw Hfh Hr) as (Hiff & _ & Hpack & _).
  assert (E : PIL.ch_list_of (loaded_image 32 16 (dots_image [(0, 0); (12, 1)]))
                (16, 16) (0, 0, 32, 16) = Raise (ValueError_size 13 2))
    by (vm_compute; reflexivity).
  split; [|exact (Hpack _ E)].
  apply (proj2 Hiff). exists 0, 0, 0, 13, 0, 2.
  split; [cbn; lia|]. split; [cbn; lia|]. split; [|lia].
  assert (H1 : ink_at (dots_image [(0, 0); (12, 1)]) (0, 0, 16, 16) 0 0)
    by (split; [cbn; lia|reflexivity]).
  assert (H2 : ink_at (dots_image [(0, 0); (12, 1)]) (0, 0, 16, 16) 12 1)
    by (split; [cbn; lia|reflexivity]).
  split; [now exists 0|]. split; [now exists 1|].
  split; [now exists 0|]. split; [now exists 12|].
  intros px py [_ Hi]. unfold dots_image in Hi. cbn [existsb fst snd] in Hi.
  lia.
Defined.

(** C10: for a cell of non-negative width and of height at most 16,
    construction never fails an assertion; and in every non-blank glyph the
    leftmost ink column [x_min] and the rightmost ink column [x_max - 1]
    each hold an ink pixel of the cell, both edge extents are non-empty and
    lie within the rows of the ink box, and all seven assertions of
    [__init__] (width, height, the four edge-extent values and the y-offset,
    each in the 4-bit range) hold. *)
Theorem edge_columns_have_ink (im_pixels : pixels) (rx ry sx sy : Z) :
  0 <= sx -> sy <= 16 ->
  Char_init im_pixels (rx, ry, sx, sy) <> Raise AssertionError /\
  forall ch,
    Char_init im_pixels (rx, ry, sx, sy) = Ok ch ->
    is_blank ch = false ->
    (exists py, ink_at im_pixels (rx, ry, sx, sy) (x_min ch) py) /\
    (exists py, ink_at im_pixels (rx, ry, sx, sy) (x_max ch - 1) py) /\
    edge_extent im_pixels (rx, ry, sx, sy) (x_min ch)
      (y_min_first ch) (y_max_first ch) /\
    edge_extent im_pixels (rx, ry, sx, sy) (x_max ch - 1)
      (y_min_last ch) (y_max_last ch) /\
    y_min ch <= y_min_first ch < y_max_first ch /\
    y_max_first ch <= y_max ch /\
    y_min ch <= y_min_last ch < y_max_last ch /\
    y_max_last ch <= y_max ch /\
    in_4bit (x_max ch - x_min ch) = true /\
    in_4bit (y_max ch - y_min ch) = true /\
    in_4bit (y_min_first ch - y_min ch) = true /\
    in_4bit (y_max_first ch - y_min ch) = true /\
    in_4bit (y_min_last ch - y_min ch) = true /\
    in_4bit (y_max_last ch - y_min ch) = true /\
    in_4bit (y_min ch - im_rect_y ch) = true /\
    check_asserts ch = Ok tt.
Proof.
  intros Hsx Hsy. split.
  - destruct (Char_init_outcome im_pixels rx ry sx sy Hsx)
      as [[_ E]|(xm & xM & ym & yM & mf & Mf & ml & Ml & Hbox & _ & _ & H)].
    + congruence.
    + pose proof (tight_box_bounds _ _ _ _ _ _ _ _ _ Hbox) as Hb.
      destruct H as [[_ E]|[(_ & _ & Hlow & _)|(_ & _ & _ & E)]];
        [congruence|lia|congruence].
  - intros c E Hnb.
    destruct (Char_init_nonblank_inv im_pixels rx ry sx sy c Hsx E Hnb)
      as (xm & xM & ym & yM & mf & Mf & ml & Ml & Hbox & Hf & Hl & Hw & Hh
          & Ho & ->).
    pose proof (tight_box_bounds _ _ _ _ _ _ _ _ _ Hbox) as Hb.
    pose proof (edge_extent_bounds _ _ _ _ _ _ _ _ _ Hbox Hf) as Hbf.
    pose proof (edge_extent_bounds _ _ _ _ _ _ _ _ _ Hbox Hl) as Hbl.
    unfold check_asserts.
    cbn [x_max x_min y_max y_min y_min_first y_max_first y_min_last
         y_max_last im_rect_y].
    rewrite !in_4bit_true by lia. cbn [assert_ bind].
    destruct Hbox as (H1 & H2 & _).
    repeat (split; [first [assumption|lia|reflexivity]|]). reflexivity.
Qed.

(** C10, instance: the 9x2 glyph of a 12x12 cell. *)
Lemma edge_columns_have_ink_witness :
  Char_init (dots_image [(0, 0); (8, 1)]) (0, 0, 12, 12) =
    Ok (mkChar 0 0 12 12 12 12 0 9 0 2 0 1 1 2 [1; 256]) /\
  Char_init (dots_image [(0, 0); (8, 1)]) (0, 0, 12, 12) <>
    Raise AssertionError /\
  edge_extent (dots_image [(0, 0); (8, 1)]) (0, 0, 12, 12) 0 0 1 /\
  edge_extent (dots_image [(0, 0); (8, 1)]) (0, 0, 12, 12) (9 - 1) 1 2.
Proof.
  assert (E : Char_init (dots_image [(0, 0); (8, 1)]) (0, 0, 12, 12) =
              Ok (mkChar 0 0 12 12 12 12 0 9 0 2 0 1 1 2 [1; 256]))
    by (vm_compute; reflexivity).
  destruct (edge_columns_have_ink (dots_image [(0, 0); (8, 1)]) 0 0 12 12
              ltac:(lia) ltac:(lia)) as [Hno Hall].
  destruct (Hall _ E eq_refl) as (_ & _ & Hf & Hl & _).
  split; [exact E|]. split; [exact Hno|]. split; [exact Hf|exact Hl].
Defined.

(** ** Packing what extraction produced *)

Lemma testbit_above a n j :
  0 <= a < 2 ^ n -> n <= j -> Z.testbit a j = false.
Proof.
  intros [Ha Hlt] Hj. destruct (Z.eq_dec a 0) as [->|Hne]; [apply Z.bits_0|].
  apply Z.bits_above_log2; [exact Ha|].
  assert (Z.log2 a < n) by (apply Z.log2_lt_pow2; lia). lia.
Qed.

Lemma lor_byte a b : 0 <= a < 256 -> 0 <= b < 256 -> 0 <= Z.lor a b < 256.
Proof.
  intros Ha Hb.
  assert (Hnn : 0 <= Z.lor a b) by (apply Z.lor_nonneg; lia).
  split; [exact Hnn|]. change 256 with (2 ^ 8).
  apply below_pow2; [exact Hnn|lia|].
  intros j Hj. rewrite Z.lor_spec.
  rewrite (testbit_above a 8 j), (testbit_above b 8 j) by (simpl; lia).
  reflexivity.
Qed.

Lemma flag_byte (f : bool) k : 0 <= k <= 7 -> 0 <= Z.shiftl (Z.b2z f) k < 256.
Proof.
  intros Hk. rewrite Z.shiftl_mul_pow2 by lia.
  assert (0 < 2 ^ k <= 2 ^ 7)
    by (split; [apply Z.pow_pos_nonneg; lia|apply Z.pow_le_mono_r; lia]).
  destruct f; cbn [Z.b2z]; lia.
Qed.

(** A glyph extracted from a cell fewer than 256 rows tall always encodes. *)
Lemma extracted_glyph_encodes im_pixels rx ry sx sy ch :
  0 < sx -> 0 < sy < 256 ->
  Char_init im_pixels (rx, ry, sx, sy) = Ok ch ->
  (exists h, encode_header ch = Ok h) /\
  (is_blank ch = false -> exists r, encode_rows ch = Ok r).
Proof.
  intros Hsx Hsy E.
  assert (Hr : Z.max 0 (x_max ch - x_min ch) < 16 /\
               Z.max 0 (y_max ch - y_min ch) < 16 /\
               Z.max 0 (y_min ch - im_rect_y ch) < 256).
  { destruct (Char_init_Ok_inv im_pixels rx ry sx sy ch ltac:(lia) E)
      as [[_ ->]|(xm & xM & ym & yM & mf & Mf & ml & Ml & Hbox & _ & _ & Hw
                  & Hh & Ho & ->)].
    - cbn [Char_attrs x_max x_min y_max y_min im_rect_y]. lia.
    - cbn [set_rows scanned x_max x_min y_max y_min im_rect_y]. lia. }
  destruct Hr as (Hw & Hh & Ho). split.
  - exists [header_byte0 ch; header_byte1 ch]. unfold encode_header, bytes.
    rewrite forallb_is_byte_bound; [reflexivity|].
    intros v [<-|[<-|[]]].
    + apply (byte0_layout (Z.max 0 (x_max ch - x_min ch))
               (Z.max 0 (y_max ch - y_min ch))); lia.
    + unfold header_byte1.
      repeat (apply lor_byte; [|apply flag_byte; lia]). lia.
  - intros Hnb.
    destruct (Char_init_nonblank_inv im_pixels rx ry sx sy ch ltac:(lia) E Hnb)
      as (xm & xM & ym & yM & mf & Mf & ml & Ml & Hbox & _ & _ & Hw' & _ & _
          & ->).
    pose proof (tight_box_bounds _ _ _ _ _ _ _ _ _ Hbox) as Hb.
    destruct (encode_rows_cases im_pixels rx ry sx sy xm xM ym yM mf Mf ml Ml
                ltac:(lia) Hw') as [Hn Hwd].
    destruct (Z_le_gt_dec (xM - xm) 8) as [H8|H8]; eexists;
      [apply Hn; exact H8|apply Hwd; lia].
Qed.

(** With cells fewer than 256 rows tall, [pack_font] writes its output as
    soon as extraction returns and no offset leaves the 16-bit range. *)
Lemma pack_font_total im_pixels cw ch x y w h ch_list :
  0 < cw -> 0 < ch < 256 ->
  ch_list_of im_pixels (cw, ch) (x, y, w, h) = Ok ch_list ->
  (forall i c, nth_error ch_list i = Some c -> is_blank c = false ->
     4 * len ch_list + bitmap_len (firstn i ch_list) < 65536) ->
  exists out,
    pack_font im_pixels (cw, ch) (x, y, w, h) = Ok out /\
    len out = 4 * len ch_list + bitmap_len ch_list.
Proof.
  intros Hcw Hch El Hoff.
  assert (Henc : forall c, In c ch_list ->
            (exists hd, encode_header c = Ok hd) /\
            (is_blank c = false -> exists r, encode_rows c = Ok r)).
  { intros c Hc. pose proof El as El'. rewrite ch_list_of_grid in El' by lia.
    apply map_result_Ok_inv in El'.
    destruct (Forall2_In_right _ _ _ El' c Hc) as ([cx cy] & _ & Hinit).
    cbn [cell_rect fst snd] in Hinit.
    exact (extracted_glyph_encodes im_pixels _ _ cw ch c Hcw Hch Hinit). }
  unfold pack_font. rewrite El. cbn [bind]. rewrite pack_chars_loop.
  rewrite pack_loop_total.
  - cbn [bind fst snd app]. eexists. split; [reflexivity|].
    rewrite len_app, bitmap_len_flat_map. unfold len at 1.
    rewrite table_length. unfold len. lia.
  - intros c Hc. apply (Henc c Hc).
  - intros c Hc. apply (Henc c Hc).
  - intros i c Hi Hb. specialize (Hoff i c Hi Hb).
    change (len (@nil Z)) with 0.
    pose proof (bitmap_len_nonneg (firstn i ch_list)).
    pose proof (len_nonneg ch_list). lia.
Qed.

(** * Further properties of the packed format *)

(** ** The parts of a successful run *)

Lemma pack_step_header_ok hl st ch st' :
  pack_step hl st ch = Ok st' ->
  encode_header ch = Ok [header_byte0 ch; header_byte1 ch].
Proof.
  destruct st as [hs rs]. unfold pack_step.
  destruct (if negb (is_blank ch)
            then r <- encode_rows ch;; Ok (len rs + hl, rs ++ r)
            else Ok (0, rs)) as [[off rs1]|e]; cbn [bind]; [|discriminate].
  destruct (encode_header ch) as [h|e] eqn:Hh; cbn [bind]; [|discriminate].
  intros _. now rewrite (encode_header_Ok_inv _ _ Hh) at 1.
Qed.

Lemma pack_font_Ok_inv im_pixels ch_size im_rect out :
  pack_font im_pixels ch_size im_rect = Ok out ->
  exists ch_list ch_headers ch_rows,
    ch_list_of im_pixels ch_size im_rect = Ok ch_list /\
    pack_chars ch_list = Ok (ch_headers, ch_rows) /\
    out = ch_headers ++ ch_rows.
Proof.
  unfold pack_font.
  destruct (ch_list_of im_pixels ch_size im_rect) as [l|e]; cbn [bind];
    [|discriminate].
  destruct (pack_chars l) as [[hs rs]|e] eqn:Hp; cbn [bind]; [|discriminate].
  intros [= <-]. exists l, hs, rs. repeat split. exact Hp.
Qed.

(** ** Reading a packed font *)

Lemma offset_zero_iff_blank_aux ch_list ch_headers ch_rows i ch :
  pack_chars ch_list = Ok (ch_headers, ch_rows) ->
  nth_error ch_list i = Some ch ->
  (offset_field ch_headers i = 0 <-> is_blank ch = true).
Proof.
  intros E Hi. apply pack_chars_Ok_inv in E as (-> & _ & _).
  rewrite (table_offset_field _ _ _ _ _ Hi).
  assert (Hlen : 1 <= len ch_list).
  { destruct ch_list; [now destruct i|]. unfold len. cbn [length]. lia. }
  pose proof (bitmap_len_nonneg (firstn i ch_list)).
  destruct (is_blank ch); split; intros; try reflexivity; try discriminate; lia.
Qed.

(** X2: in a packed font the offset field of a record is 0 exactly when the
    glyph is blank: a glyph with ink is never placed at offset 0. *)
Theorem offset_zero_iff_blank (ch_list : list Char) (ch_headers ch_rows : list Z)
  (i : nat) (ch : Char) :
  pack_chars ch_list = Ok (ch_headers, ch_rows) ->
  nth_error ch_list i = Some ch ->
  (offset_field ch_headers i = 0 <-> is_blank ch = true).
Proof. exact (offset_zero_iff_blank_aux ch_list ch_headers ch_rows i ch). Qed.

(** X2, instance: a blank cell, a cell with one ink pixel, a blank cell. *)
Lemma offset_zero_iff_blank_witness :
  offset_field [0; 172; 0; 0; 17; 144; 12; 0; 0; 172; 0; 0] 0 = 0 /\
  offset_field [0; 172; 0; 0; 17; 144; 12; 0; 0; 172; 0; 0] 1 <> 0.
Proof.
  assert (E : pack_chars [Char_attrs (0, 0, 8, 12);
                          mkChar 8 0 8 12 16 12 8 9 0 1 0 1 0 1 [1];
                          Char_attrs (16, 0, 8, 12)] =
              Ok ([0; 172; 0; 0; 17; 144; 12; 0; 0; 172; 0; 0], [1]))
    by (vm_compute; reflexivity).
  split.
  - exact (proj2 (offset_zero_iff_blank _ _ _ 0%nat _ E eq_refl) eq_refl).
  - intros H0.
    pose proof (proj1 (offset_zero_iff_blank _ _ _ 1%nat _ E eq_refl) H0) as Hb.
    discriminate Hb.
Defined.

Lemma nth_error_split_firstn {A : Type} (l : list A) i a :
  nth_error l i = Some a -> l = firstn i l ++ a :: skipn (S i) l.
Proof.
  revert i. induction l as [|x l IH]; intros [|i] Hi; try discriminate.
  - cbn in Hi. now injection Hi as ->.
  - cbn [nth_error] in Hi. cbn [firstn skipn app]. f_equal. now apply IH.
Qed.

Lemma skipn_app_exact {A : Type} (l1 l2 : list A) n :
  n = length l1 -> skipn n (l1 ++ l2) = l2.
Proof.
  intros ->. rewrite skipn_app, skipn_all, Nat.sub_diag. reflexivity.
Qed.

(** The bitmap of a non-blank glyph starts at its recorded offset. *)
Lemma bitmap_located ch_list ch_headers ch_rows i ch :
  pack_chars ch_list = Ok (ch_headers, ch_rows) ->
  nth_error ch_list i = Some ch ->
  is_blank ch = false ->
  skipn (Z.to_nat (offset_field ch_headers i)) (ch_headers ++ ch_rows) =
  bitmap_bytes ch ++ flat_map bitmap_bytes (skipn (S i) ch_list).
Proof.
  intros E Hi Hb. apply pack_chars_Ok_inv in E as (-> & -> & _).
  rewrite (table_offset_field _ _ _ _ _ Hi), Hb.
  assert (Hfm : flat_map bitmap_bytes ch_list =
                flat_map bitmap_bytes (firstn i ch_list) ++
                bitmap_bytes ch ++
                flat_map bitmap_bytes (skipn (S i) ch_list)).
  { rewrite (nth_error_split_firstn _ _ _ Hi) at 1.
    rewrite flat_map_app. reflexivity. }
  rewrite Hfm, app_assoc. apply skipn_app_exact.
  rewrite length_app, table_length.
  pose proof (bitmap_len_flat_map (firstn i ch_list)) as Hl.
  unfold len in *. lia.
Qed.

(** X3: in the output of the packing loop, the bytes that start at the
    recorded offset of a non-blank glyph, counted from the start of the
    header table, are the encoded rows of that glyph. *)
Theorem bitmap_at_offset (ch_list : list Char) (ch_headers ch_rows : list Z)
  (i : nat) (ch : Char) :
  pack_chars ch_list = Ok (ch_headers, ch_rows) ->
  nth_error ch_list i = Some ch ->
  is_blank ch = false ->
  encode_rows ch = Ok (bitmap_bytes ch) /\
  firstn (length (bitmap_bytes ch))
    (skipn (Z.to_nat (offset_field ch_headers i)) (ch_headers ++ ch_rows)) =
  bitmap_bytes ch.
Proof.
  intros E Hi Hb. split.
  - apply pack_chars_Ok_inv in E as (_ & _ & H). now apply (H i ch).
  - rewrite (bitmap_located _ _ _ _ _ E Hi Hb).
    rewrite firstn_app, firstn_all, Nat.sub_diag. cbn [firstn].
    apply app_nil_r.
Qed.

(** X3, instance: two glyphs with ink; the second one's row is at offset 9. *)
Lemma bitmap_at_offset_witness :
  pack_chars [mkChar 0 0 8 12 8 12 0 1 0 1 0 1 0 1 [1];
              mkChar 8 0 8 12 16 12 9 11 3 4 3 4 3 4 [3]] =
    Ok ([17; 144; 8; 0; 18; 147; 9; 0], [1; 3]) /\
  firstn 1 (skipn 9 ([17; 144; 8; 0; 18; 147; 9; 0] ++ [1; 3])) = [3].
Proof.
  assert (E : pack_chars [mkChar 0 0 8 12 8 12 0 1 0 1 0 1 0 1 [1];
                          mkChar 8 0 8 12 16 12 9 11 3 4 3 4 3 4 [3]] =
              Ok ([17; 144; 8; 0; 18; 147; 9; 0], [1; 3]))
    by (vm_compute; reflexivity).
  split; [exact E|].
  exact (proj2 (bitmap_at_offset _ _ _ 1%nat _ E eq_refl eq_refl)).
Defined.

Lemma decode_rows_narrow_app (vs rest : list Z) :
  decode_rows false (length vs) (vs ++ rest) = vs.
Proof. induction vs as [|v vs IH]; simpl; [reflexivity|now rewrite IH]. Qed.

Lemma decode_rows_wide_app (vs rest : list Z) :
  decode_rows true (length vs)
    (flat_map (fun v => [Z.land v 255; Z.shiftr v 8]) vs ++ rest) = vs.
Proof.
  induction vs as [|v vs IH]; simpl; [reflexivity|].
  now rewrite IH, le16_join.
Qed.

(** What the reader of the format finds for one extracted glyph. *)
Lemma extracted_glyph_decodes im_pixels rx ry sx sy ch rest :
  0 <= sx -> 0 <= sy ->
  Char_init im_pixels (rx, ry, sx, sy) = Ok ch ->
  decode_size (header_byte0 ch) =
    (Z.max 0 (x_max ch - x_min ch), Z.max 0 (y_max ch - y_min ch)) /\
  (is_blank ch = true -> rows ch = []) /\
  (is_blank ch = false ->
   decode_rows (Z.max 0 (x_max ch - x_min ch) >? 8)
     (Z.to_nat (Z.max 0 (y_max ch - y_min ch)))
     (bitmap_bytes ch ++ rest) = rows ch).
Proof.
  intros Hsx Hsy E.
  destruct (Char_init_sizes im_pixels rx ry sx sy ch Hsx Hsy E)
    as (Hw & Hh & _ & _).
  split; [|split].
  - destruct (byte0_layout (Z.max 0 (x_max ch - x_min ch))
                (Z.max 0 (y_max ch - y_min ch)) ltac:(lia) ltac:(lia))
      as (H1 & H2 & _).
    unfold decode_size, header_byte0. now rewrite H1, H2.
  - intros Hb.
    destruct (is_blank_iff_no_ink im_pixels rx ry sx sy ch Hsx E) as [_ Ha].
    now rewrite (Ha Hb).
  - intros Hb.
    destruct (Char_init_nonblank_inv im_pixels rx ry sx sy ch Hsx E Hb)
      as (xm & xM & ym & yM & mf & Mf & ml & Ml & Hbox & _ & _ & Hw' & Hh'
          & _ & ->).
    pose proof (tight_box_bounds _ _ _ _ _ _ _ _ _ Hbox) as Hbd.
    destruct (encode_rows_cases im_pixels rx ry sx sy xm xM ym yM mf Mf ml Ml
                ltac:(lia) Hw') as [Hn Hwd].
    unfold bitmap_bytes. rewrite Hb.
    cbn [x_max x_min y_max y_min rows] in *.
    rewrite !Z.max_r by lia.
    replace (Z.to_nat (yM - ym))
      with (length (map (build_row im_pixels xm xM) (range ym yM)))
      by now rewrite length_map, range_length.
    destruct (Z_le_gt_dec (xM - xm) 8) as [H8|H8].
    + rewrite (Hn H8). replace (xM - xm >? 8) with false by lia.
      apply decode_rows_narrow_app.
    + rewrite (Hwd ltac:(lia)). replace (xM - xm >? 8) with true by lia.
      apply decode_rows_wide_app.
Qed.

(** X4: reading glyph [i] back from the bytes that [pack_font] wrote, by the
    layout of the format alone (record [i] of the header table, rows at the
    recorded offset), gives the clamped width and height and the rows of the
    [i]-th extracted glyph; a blank glyph reads back as [(0, 0, [])]. *)
Theorem packed_font_roundtrip (im_pixels : pixels) (cw ch x y w h : Z)
  (ch_list : list Char) (out : list Z) :
  0 < cw -> 0 < ch ->
  ch_list_of im_pixels (cw, ch) (x, y, w, h) = Ok ch_list ->
  pack_font im_pixels (cw, ch) (x, y, w, h) = Ok out ->
  forall i c, nth_error ch_list i = Some c ->
    decode_font_glyph out i =
      (Z.max 0 (x_max c - x_min c), Z.max 0 (y_max c - y_min c), rows c) /\
    (is_blank c = true -> decode_font_glyph out i = (0, 0, [])).
Proof.
  intros Hcw Hch El Eo i c Hi.
  apply pack_font_Ok_inv in Eo as (l & hs & rs & El' & Hp & ->).
  assert (l = ch_list) by congruence. subst l. clear El'.
  assert (Hinit : exists cx cy,
            Char_init im_pixels (x + cx * cw, y + cy * ch, cw, ch) = Ok c).
  { pose proof El as El'. rewrite ch_list_of_grid in El' by lia.
    apply map_result_Ok_inv in El'.
    destruct (Forall2_In_right _ _ _ El' c (nth_error_In _ _ Hi))
      as ([cx cy] & _ & Hc).
    now exists cx, cy. }
  destruct Hinit as (cx & cy & Hinit).
  assert (Hhs : hs = table (4 * len ch_list) 0 ch_list)
    by apply (pack_chars_Ok_inv _ _ _ Hp).
  assert (Hlt : (4 * i + 3 < length hs)%nat).
  { rewrite Hhs, table_length.
    assert (i < length ch_list)%nat by (apply nth_error_Some; congruence).
    lia. }
  assert (H0 : nth (4 * i) (hs ++ rs) 0 = header_byte0 c).
  { rewrite app_nth1 by lia. rewrite Hhs.
    now destruct (table_record (4 * len ch_list) ch_list 0 i c Hi)
      as (H0 & _). }
  assert (Hoff : offset_field (hs ++ rs) i = offset_field hs i).
  { unfold offset_field. now rewrite !app_nth1 by lia. }
  destruct (extracted_glyph_decodes im_pixels _ _ cw ch c
              (flat_map bitmap_bytes (skipn (S i) ch_list))
              ltac:(lia) ltac:(lia) Hinit) as (Hsize & Hblank & Hrows).
  destruct (Char_init_sizes im_pixels _ _ cw ch c ltac:(lia) ltac:(lia) Hinit)
    as (_ & _ & Hzero & _).
  unfold decode_font_glyph. rewrite H0, Hsize, Hoff.
  destruct (is_blank c) eqn:Hb.
  - rewrite (proj2 (offset_zero_iff_blank_aux _ _ _ _ _ Hp Hi) Hb).
    cbn [Z.eqb]. rewrite (Hblank eq_refl).
    destruct (Hzero eq_refl) as [-> ->]. now split.
  - assert (Hnz : offset_field hs i <> 0).
    { intros H. apply (offset_zero_iff_blank_aux _ _ _ _ _ Hp Hi) in H.
      congruence. }
    replace (offset_field hs i =? 0) with false by lia.
    rewrite (bitmap_located _ _ _ _ _ Hp Hi Hb), (Hrows eq_refl).
    split; [reflexivity|discriminate].
Qed.

(** X4, instance: a 9x2 glyph followed by a blank cell. *)
Lemma packed_font_roundtrip_witness :
  pack_font (dots_image [(0, 0); (8, 1)]) (12, 12) (0, 0, 24, 12) =
    Ok [41; 144; 8; 0; 0; 172; 0; 0; 1; 0; 0; 1] /\
  decode_font_glyph [41; 144; 8; 0; 0; 172; 0; 0; 1; 0; 0; 1] 0 =
    (9, 2, [1; 256]) /\
  decode_font_glyph [41; 144; 8; 0; 0; 172; 0; 0; 1; 0; 0; 1] 1 = (0, 0, []).
Proof.
  assert (El : ch_list_of (dots_image [(0, 0); (8, 1)]) (12, 12) (0, 0, 24, 12) =
               Ok [mkChar 0 0 12 12 12 12 0 9 0 2 0 1 1 2 [1; 256];
                   Char_attrs (12, 0, 12, 12)]) by (vm_compute; reflexivity).
  assert (Eo : pack_font (dots_image [(0, 0); (8, 1)]) (12, 12) (0, 0, 24, 12) =
               Ok [41; 144; 8; 0; 0; 172; 0; 0; 1; 0; 0; 1])
    by (vm_compute; reflexivity).
  pose proof (packed_font_roundtrip _ 12 12 0 0 24 12 _ _
                ltac:(lia) ltac:(lia) El Eo) as H.
  split; [exact Eo|]. split.
  - exact (proj1 (H 0%nat _ eq_refl)).
  - exact (proj2 (H 1%nat _ eq_refl) eq_refl).
Defined.

(** ** Which exception construction raises *)

(** What construction from readable ink raises. *)
Lemma Char_init_errors (im_pixels : pixels) (rx ry sx sy : Z) :
  0 <= sx ->
  (forall w h,
     Char_init im_pixels (rx, ry, sx, sy) = Raise (ValueError_size w h) <->
     exists xm xM ym yM,
       tight_box im_pixels (rx, ry, sx, sy) xm xM ym yM /\
       w = xM - xm /\ h = yM - ym /\ (w > 12 \/ h > 12)) /\
  (Char_init im_pixels (rx, ry, sx, sy) = Raise AssertionError <->
   exists xm xM ym yM,
     tight_box im_pixels (rx, ry, sx, sy) xm xM ym yM /\
     xM - xm <= 12 /\ yM - ym <= 12 /\ 16 <= ym - ry) /\
  (forall e,
     Char_init im_pixels (rx, ry, sx, sy) = Raise e ->
     e = AssertionError \/ exists w h, e = ValueError_size w h).
Proof.
  intros Hsx.
  destruct (Char_init_outcome im_pixels rx ry sx sy Hsx)
    as [[Hno E]|(xm & xM & ym & yM & mf & Mf & ml & Ml & Hbox & _ & _ & H)].
  - assert (Hnobox : forall a b c d,
              ~ tight_box im_pixels (rx, ry, sx, sy) a b c d).
    { intros a b c d ((py & Hc & Hi) & _). rewrite (Hno _ _ Hc) in Hi.
      discriminate. }
    rewrite E. split; [|split].
    + intros w h. split; [discriminate|].
      intros (a & b & c & d & Hb & _). now apply Hnobox in Hb.
    + split; [discriminate|].
      intros (a & b & c & d & Hb & _). now apply Hnobox in Hb.
    + discriminate.
  - assert (Huniq : forall a b c d,
              tight_box im_pixels (rx, ry, sx, sy) a b c d ->
              a = xm /\ b = xM /\ c = ym /\ d = yM).
    { intros a b c d Hb.
      destruct (tight_box_unique _ _ _ _ _ _ _ _ _ _ Hbox Hb)
        as (-> & -> & -> & ->). auto. }
    destruct H as [[Hbig E]|[(Hw & Hh & Hlow & E)|(Hw & Hh & Ho & E)]];
      rewrite E; (split; [|split]).
    + intros w h. split.
      * intros [= <- <-]. exists xm, xM, ym, yM. auto.
      * intros (a & b & c & d & Hb & -> & -> & _).
        apply Huniq in Hb as (-> & -> & -> & ->). reflexivity.
    + split; [discriminate|].
      intros (a & b & c & d & Hb & Hw & Hh & _).
      apply Huniq in Hb as (-> & -> & -> & ->). lia.
    + intros e [= <-]. right. eauto.
    + intros w h. split; [discriminate|].
      intros (a & b & c & d & Hb & -> & -> & Hbig).
      apply Huniq in Hb as (-> & -> & -> & ->). lia.
    + split; [|reflexivity]. intros _. exists xm, xM, ym, yM. auto.
    + intros e [= <-]. now left.
    + intros w h. split; [discriminate|].
      intros (a & b & c & d & Hb & -> & -> & Hbig).
      apply Huniq in Hb as (-> & -> & -> & ->). lia.
    + split; [discriminate|].
      intros (a & b & c & d & Hb & _ & _ & Hlow).
      apply Huniq in Hb as (-> & -> & -> & ->). lia.
    + discriminate.
Qed.

(** X5: for a cell of non-negative width, [Char.__init__] raises its own
    [ValueError], an [AssertionError], or what reading a pixel of the cell
    raised, and nothing else. When every pixel of the cell can be read, it
    raises the [ValueError] exactly when the tight ink box is wider or
    taller than 12, and the error then reports the width and height of that
    box; and it fails an assertion exactly when the box is within 12x12 but
    starts 16 or more rows below the top of the cell (so the size check
    comes first). *)
Theorem init_error_reports_ink_box (im_pixels : PIL.pixel_access)
  (ink : pixels) (rx ry sx sy : Z) :
  0 <= sx ->
  (forall e,
     PIL.Char_init im_pixels (rx, ry, sx, sy) = Raise e ->
     e = AssertionError \/ (exists w h, e = ValueError_size w h) \/
     exists px py,
       in_cell (rx, ry, sx, sy) px py /\ im_pixels px py = Raise e) /\
  (reads im_pixels (rx, ry, sx, sy) ink ->
   (forall w h,
      PIL.Char_init im_pixels (rx, ry, sx, sy) = Raise (ValueError_size w h)
      <->
      exists xm xM ym yM,
        tight_box ink (rx, ry, sx, sy) xm xM ym yM /\
        w = xM - xm /\ h = yM - ym /\ (w > 12 \/ h > 12)) /\
   (PIL.Char_init im_pixels (rx, ry, sx, sy) = Raise AssertionError <->
    exists xm xM ym yM,
      tight_box ink (rx, ry, sx, sy) xm xM ym yM /\
      xM - xm <= 12 /\ yM - ym <= 12 /\ 16 <= ym - ry)).
Proof.
  intros Hsx. split.
  - intros e E.
    destruct (PIL_Char_init_cases im_pixels rx ry sx sy Hsx)
      as [[_ E']|(px & py & e' & Hc & Hp & E')].
    + rewrite E' in E.
      destruct (proj2 (proj2 (Char_init_errors (ink_of im_pixels) rx ry sx sy
                                Hsx)) e E) as [H|H]; auto.
    + right. right. exists px, py. split; [exact Hc|congruence].
  - intros Hr. rewrite (PIL_Char_init_reads im_pixels ink) by assumption.
    destruct (Char_init_errors ink rx ry sx sy Hsx) as (H1 & H2 & _).
    split; [exact H1|exact H2].
Qed.

(** X5, instance: in a loaded image of 16x32 pixels, ink 13 columns wide
    that also starts in row 20 of the 32-row cell is reported as oversize,
    not as an assertion failure. *)
Lemma init_error_reports_ink_box_witness :
  PIL.Char_init (loaded_image 16 32 (dots_image [(0, 20); (12, 21)]))
    (0, 0, 16, 32) = Raise (ValueError_size 13 2) /\
  exists xm xM ym yM,
    tight_box (dots_image [(0, 20); (12, 21)]) (0, 0, 16, 32) xm xM ym yM /\
    13 = xM - xm /\ 2 = yM - ym /\ (13 > 12 \/ 2 > 12).
Proof.
  assert (E : PIL.Char_init (loaded_image 16 32 (dots_image [(0, 20); (12, 21)]))
                (0, 0, 16, 32) = Raise (ValueError_size 13 2))
    by (vm_compute; reflexivity).
  split; [exact E|].
  exact (proj1 (proj1 (proj2 (init_error_reports_ink_box
                         (loaded_image 16 32 (dots_image [(0, 20); (12, 21)]))
                         (dots_image [(0, 20); (12, 21)]) 0 0 16 32
                         ltac:(lia))
                         ltac:(apply loaded_image_reads; lia)) 13 2) E).
Defined.

(** ** The output depends on the ink of the cells, relative to the region *)

Lemma edge_extent_unique im_pixels r col m M m' M' :
  edge_extent im_pixels r col m M -> edge_extent im_pixels r col m' M' ->
  m = m' /\ M = M'.
Proof.
  intros (H1 & H2 & H) (H1' & H2' & H').
  pose proof (H _ H1'). pose proof (H _ H2').
  pose proof (H' _ H1). pose proof (H' _ H2). lia.
Qed.

Lemma range_shift a b d :
  range (a + d) (b + d) = map (fun k => k + d) (range a b).
Proof.
  unfold range. replace (b + d - (a + d)) with (b - a) by lia.
  rewrite map_map. apply map_ext. intros k. lia.
Qed.

Section Moved.
Variables (im1 im2 : pixels) (rx ry sx sy dx dy : Z).
Hypothesis Hmoved :
  forall px py, in_cell (rx, ry, sx, sy) px py ->
                im2 (px + dx) (py + dy) = im1 px py.

Lemma ink_at_moved px py :
  ink_at im2 (rx + dx, ry + dy, sx, sy) px py ->
  ink_at im1 (rx, ry, sx, sy) (px - dx) (py - dy).
Proof.
  intros [[Hx Hy] Hi].
  assert (Hc : in_cell (rx, ry, sx, sy) (px - dx) (py - dy))
    by (cbn; lia).
  split; [exact Hc|]. rewrite <- (Hmoved _ _ Hc).
  now replace (px - dx + dx) with px by lia;
      replace (py - dy + dy) with py by lia.
Qed.

Lemma ink_at_moved_back px py :
  ink_at im1 (rx, ry, sx, sy) px py ->
  ink_at im2 (rx + dx, ry + dy, sx, sy) (px + dx) (py + dy).
Proof.
  intros [Hc Hi]. split; [destruct Hc; cbn; lia|].
  now rewrite (Hmoved _ _ Hc).
Qed.

Lemma tight_box_moved a b c d :
  tight_box im2 (rx + dx, ry + dy, sx, sy) a b c d ->
  tight_box im1 (rx, ry, sx, sy) (a - dx) (b - dx) (c - dy) (d - dy).
Proof.
  intros ((y1 & H1) & (y2 & H2) & (x3 & H3) & (x4 & H4) & H).
  apply ink_at_moved in H1, H2, H3, H4.
  split; [now exists (y1 - dy)|].
  split; [exists (y2 - dy); now replace (b - dx - 1) with (b - 1 - dx) by lia|].
  split; [now exists (x3 - dx)|].
  split; [exists (x4 - dx); now replace (d - dy - 1) with (d - 1 - dy) by lia|].
  intros px py Hi. apply ink_at_moved_back in Hi. specialize (H _ _ Hi). lia.
Qed.

Lemma edge_extent_moved col m M :
  edge_extent im2 (rx + dx, ry + dy, sx, sy) col m M ->
  edge_extent im1 (rx, ry, sx, sy) (col - dx) (m - dy) (M - dy).
Proof.
  intros (H1 & H2 & H). apply ink_at_moved in H1, H2.
  split; [exact H1|].
  split; [now replace (M - dy - 1) with (M - 1 - dy) by lia|].
  intros py Hi. apply ink_at_moved_back in Hi.
  replace (col - dx + dx) with col in Hi by lia. specialize (H _ Hi). lia.
Qed.

Lemma build_row_moved xm xM py :
  rx <= xm -> xM <= rx + sx -> ry <= py < ry + sy ->
  build_row im2 (xm + dx) (xM + dx) (py + dy) = build_row im1 xm xM py.
Proof.
  intros Hlo Hhi Hy. apply Z.bits_inj'. intros j Hj.
  rewrite !build_row_bit by exact Hj.
  replace (xM + dx - (xm + dx)) with (xM - xm) by lia.
  destruct (Z_lt_ge_dec j (xM - xm)) as [Hlt|Hge].
  - replace (xm + dx + j) with (xm + j + dx) by lia.
    rewrite Hmoved by (cbn; lia). reflexivity.
  - replace (j <? xM - xm) with false by lia. reflexivity.
Qed.

Lemma rows_moved xm xM ym yM :
  rx <= xm -> xM <= rx + sx -> ry <= ym -> yM <= ry + sy ->
  map (build_row im2 (xm + dx) (xM + dx)) (range (ym + dy) (yM + dy)) =
  map (build_row im1 xm xM) (range ym yM).
Proof.
  intros Hxl Hxh Hyl Hyh. rewrite range_shift, map_map.
  apply map_ext_in. intros py Hpy. apply In_range in Hpy.
  apply build_row_moved; lia.
Qed.

(** Construction on the moved image and cell is construction on the
    original, moved. *)
Lemma Char_init_moved :
  0 <= sx ->
  Char_init im2 (rx + dx, ry + dy, sx, sy) =
  map_ok (shift_char dx dy) (Char_init im1 (rx, ry, sx, sy)).
Proof.
  intros Hsx.
  destruct (Char_init_outcome im1 rx ry sx sy Hsx)
    as [[Hno1 E1]|(xm & xM & ym & yM & mf & Mf & ml & Ml & Hbox1 & Hf1 & Hl1
                   & H1)];
  destruct (Char_init_outcome im2 (rx + dx) (ry + dy) sx sy Hsx)
    as [[Hno2 E2]|(xm' & xM' & ym' & yM' & mf' & Mf' & ml' & Ml' & Hbox2 & Hf2
                   & Hl2 & H2)].
  - rewrite E1, E2. unfold shift_char.
    cbn [map_ok Char_attrs im_rect_x im_rect_y im_rect_x_size
         im_rect_y_size im_rect_x_max im_rect_y_max x_min x_max y_min y_max
         y_min_first y_max_first y_min_last y_max_last rows].
    do 2 f_equal; lia.
  - exfalso. apply tight_box_moved in Hbox2.
    destruct Hbox2 as ((py & Hc & Hi) & _). rewrite (Hno1 _ _ Hc) in Hi.
    discriminate.
  - exfalso. destruct Hbox1 as ((py & Hi) & _).
    apply ink_at_moved_back in Hi. destruct Hi as [Hc Hi].
    rewrite (Hno2 _ _ Hc) in Hi. discriminate.
  - pose proof (tight_box_bounds _ _ _ _ _ _ _ _ _ Hbox1) as Hb.
    apply tight_box_moved in Hbox2.
    destruct (tight_box_unique _ _ _ _ _ _ _ _ _ _ Hbox1 Hbox2)
      as (Ea & Eb & Ec & Ed).
    apply edge_extent_moved in Hf2, Hl2.
    replace (xm' - dx) with xm in Hf2 by lia.
    replace (xM' - 1 - dx) with (xM - 1) in Hl2 by lia.
    destruct (edge_extent_unique _ _ _ _ _ _ _ Hf1 Hf2) as (Ef & EF).
    destruct (edge_extent_unique _ _ _ _ _ _ _ Hl1 Hl2) as (El & EL).
    assert (xm' = xm + dx) by lia. assert (xM' = xM + dx) by lia.
    assert (ym' = ym + dy) by lia. assert (yM' = yM + dy) by lia.
    assert (mf' = mf + dy) by lia. assert (Mf' = Mf + dy) by lia.
    assert (ml' = ml + dy) by lia. assert (Ml' = Ml + dy) by lia.
    subst xm' xM' ym' yM' mf' Mf' ml' Ml'.
    destruct H1 as [[Hbig1 E1]|[(Hw1 & Hh1 & Hlow1 & E1)|(Hw1 & Hh1 & Ho1 & E1)]];
    destruct H2 as [[Hbig2 E2]|[(Hw2 & Hh2 & Hlow2 & E2)|(Hw2 & Hh2 & Ho2 & E2)]];
      try lia; rewrite E1, E2; cbn [map_ok].
    + do 2 f_equal; lia.
    + reflexivity.
    + rewrite rows_moved by lia. unfold shift_char, set_rows, scanned.
      cbn [im_rect_x im_rect_y im_rect_x_size
           im_rect_y_size im_rect_x_max im_rect_y_max x_min x_max y_min y_max
           y_min_first y_max_first y_min_last y_max_last rows].
      do 2 f_equal; lia.
Qed.
End Moved.

Lemma shift_char_0 self : shift_char 0 0 self = self.
Proof.
  destruct self. unfold shift_char.
  cbn [im_rect_x im_rect_y im_rect_x_size im_rect_y_size im_rect_x_max
       im_rect_y_max x_min x_max y_min y_max y_min_first y_max_first
       y_min_last y_max_last rows].
  now rewrite !Z.add_0_r.
Qed.

Lemma map_result_map_ok {A B : Type} (f f' : A -> result B) (g : B -> B) l :
  (forall x, In x l -> f' x = map_ok g (f x)) ->
  map_result f' l = map_ok (map g) (map_result f l).
Proof.
  induction l as [|x l IH]; intros H; cbn [map_result]; [reflexivity|].
  rewrite (H x (or_introl eq_refl)), IH by (intros; apply H; now right).
  destruct (f x) as [c|e]; cbn [map_ok bind]; [|reflexivity].
  now destruct (map_result f l).
Qed.

(** X7: the result of [pack_font] depends only on what reading the pixels
    inside the cells of the grid gives: two images whose accesses agree on
    the part of the region covered by whole cells give the same output or
    the same exception, whatever they show or raise elsewhere (outside the
    region, or in its unused right and bottom margins). Cell size positive,
    region and cell size below [2 ^ 53]. *)
Theorem output_ignores_outside_cells (im1 im2 : PIL.pixel_access)
  (cw ch x y w h : Z) :
  float_exact w cw -> float_exact h ch ->
  (forall px py,
     in_cell (x, y, w / cw * cw, h / ch * ch) px py -> im1 px py = im2 px py) ->
  PIL.pack_font im1 (cw, ch) (x, y, w, h) =
  PIL.pack_font im2 (cw, ch) (x, y, w, h).
Proof.
  intros Hfw Hfh Hagree.
  pose proof (float_exact_pos _ _ Hfw) as Hcw.
  pose proof (float_exact_pos _ _ Hfh) as Hch.
  unfold PIL.pack_font.
  assert (El : PIL.ch_list_of im1 (cw, ch) (x, y, w, h) =
               PIL.ch_list_of im2 (cw, ch) (x, y, w, h)).
  { rewrite !PIL_ch_list_of_grid by lia. apply map_result_ext_in.
    intros [cx cy] Hin. apply In_grid_cells in Hin as [Hx Hy].
    cbn [cell_rect fst snd].
    apply PIL_Char_init_ext; [lia|]. intros px py Hc. apply Hagree.
    exact (cell_in_covered cw ch x y w h cx cy px py Hcw Hch Hx Hy Hc). }
  now rewrite El.
Qed.

(** X7, instance: an image of 12x12 pixels with ink in the 4-pixel margin
    right of the one whole cell, and an image of 8x12 pixels that ends
    where the cell ends. *)
Lemma output_ignores_outside_cells_witness :
  PIL.pack_font (loaded_image 12 12 (dots_image [(0, 0); (9, 3)])) (8, 12)
    (0, 0, 12, 12) =
  PIL.pack_font (loaded_image 8 12 (dot_image 0 0)) (8, 12) (0, 0, 12, 12).
Proof.
  apply (output_ignores_outside_cells _ _ 8 12 0 0 12 12);
    [unfold float_exact; lia|unfold float_exact; lia|].
  change (12 / 8 * 8) with 8. change (12 / 12 * 12) with 12.
  intros px py Hc.
  rewrite (loaded_image_reads 12 12 (dots_image [(0, 0); (9, 3)]) 0 0 8 12
             ltac:(lia) ltac:(lia) ltac:(lia) ltac:(lia) px py Hc).
  rewrite (loaded_image_reads 8 12 (dot_image 0 0) 0 0 8 12
             ltac:(lia) ltac:(lia) ltac:(lia) ltac:(lia) px py Hc).
  destruct Hc as [Hx Hy]. f_equal.
  unfold dot_image, dots_image. cbn [existsb fst snd]. lia.
Defined.

Lemma is_blank_shift dx dy self :
  is_blank (shift_char dx dy self) = is_blank self.
Proof.
  unfold is_blank, shift_char. cbn [x_max x_min y_max y_min].
  replace (x_max self + dx <=? x_min self + dx)
    with (x_max self <=? x_min self) by lia.
  replace (y_max self + dy <=? y_min self + dy)
    with (y_max self <=? y_min self) by lia.
  reflexivity.
Qed.

Lemma encode_header_shift dx dy self :
  encode_header (shift_char dx dy self) = encode_header self.
Proof.
  unfold encode_header, header_byte0, header_byte1, shift_char.
  cbn [x_max x_min y_max y_min im_rect_y y_min_first y_max_first
       y_min_last y_max_last].
  replace (x_max self + dx - (x_min self + dx))
    with (x_max self - x_min self) by lia.
  replace (y_max self + dy - (y_min self + dy))
    with (y_max self - y_min self) by lia.
  replace (y_min self + dy - (im_rect_y self + dy))
    with (y_min self - im_rect_y self) by lia.
  replace (y_min_last self + dy - (im_rect_y self + dy))
    with (y_min_last self - im_rect_y self) by lia.
  replace (y_max_last self + dy - (im_rect_y self + dy))
    with (y_max_last self - im_rect_y self) by lia.
  replace (y_min_first self + dy - (im_rect_y self + dy))
    with (y_min_first self - im_rect_y self) by lia.
  replace (y_min_last self + dy =? y_max_last self + dy - 1)
    with (y_min_last self =? y_max_last self - 1) by lia.
  replace (y_min_first self + dy =? y_max_first self + dy - 1)
    with (y_min_first self =? y_max_first self - 1) by lia.
  reflexivity.
Qed.

Lemma encode_rows_shift dx dy self :
  encode_rows (shift_char dx dy self) = encode_rows self.
Proof.
  unfold encode_rows, shift_char. cbn [x_max x_min rows].
  replace (x_max self + dx - (x_min self + dx))
    with (x_max self - x_min self) by lia.
  reflexivity.
Qed.

Lemma pack_loop_shift dx dy hl l : forall st,
  for_each (pack_step hl) (map (shift_char dx dy) l) st =
  for_each (pack_step hl) l st.
Proof.
  induction l as [|c l IH]; intros [hs rs]; cbn [map for_each]; [reflexivity|].
  assert (E : pack_step hl (hs, rs) (shift_char dx dy c) =
              pack_step hl (hs, rs) c).
  { unfold pack_step.
    now rewrite is_blank_shift, encode_rows_shift, encode_header_shift. }
  rewrite E. destruct (pack_step hl (hs, rs) c); cbn [bind]; [apply IH|].
  reflexivity.
Qed.

Lemma pack_chars_shift dx dy l :
  pack_chars (map (shift_char dx dy) l) = pack_chars l.
Proof.
  rewrite !pack_chars_loop. unfold len. rewrite length_map.
  apply pack_loop_shift.
Qed.

(** X8: the output does not depend on where the region lies in the image:
    moving the image and the region by the same amount gives the same
    output or the same exception. *)
Theorem output_is_translation_invariant (im_pixels : pixels)
  (cw ch x y w h dx dy : Z) :
  0 < cw -> 0 < ch ->
  pack_font (shift_image dx dy im_pixels) (cw, ch) (x + dx, y + dy, w, h) =
  pack_font im_pixels (cw, ch) (x, y, w, h).
Proof.
  intros Hcw Hch. unfold pack_font.
  assert (El : ch_list_of (shift_image dx dy im_pixels) (cw, ch)
                 (x + dx, y + dy, w, h) =
               map_ok (map (shift_char dx dy))
                 (ch_list_of im_pixels (cw, ch) (x, y, w, h))).
  { rewrite !ch_list_of_grid by lia.
    apply map_result_map_ok.
    intros [cx cy] _. cbn [cell_rect fst snd].
    replace (x + dx + cx * cw) with (x + cx * cw + dx) by lia.
    replace (y + dy + cy * ch) with (y + cy * ch + dy) by lia.
    apply Char_init_moved; [|lia].
    intros px py _. unfold shift_image.
    now replace (px + dx - dx) with px by lia;
        replace (py + dy - dy) with py by lia. }
  rewrite El.
  destruct (ch_list_of im_pixels (cw, ch) (x, y, w, h)) as [l|e];
    cbn [map_ok bind]; [|reflexivity].
  now rewrite pack_chars_shift.
Qed.

(** X8, instance: the one-pixel glyph, moved by (100, 24). *)
Lemma output_is_translation_invariant_witness :
  pack_font (shift_image 100 24 (dot_image 0 0)) (8, 12) (100, 24, 8, 12) =
  Ok [17; 144; 4; 0; 1].
Proof.
  refine (eq_trans
            (output_is_translation_invariant (dot_image 0 0) 8 12 0 0 8 12
               100 24 ltac:(lia) ltac:(lia)) _).
  vm_compute. reflexivity.
Defined.

(** ** What a reader can rely on in a glyph record *)

(** X9: in the flag byte of every non-blank glyph the trailing-kern flag
    (bit 6) never comes without the reduced-gap-before flag (bit 5), and the
    leading-kern flag (bit 4) never comes without the reduced-gap-after flag
    (bit 7). *)
Theorem kern_flags_imply_gap_flags (im_pixels : pixels) (rx ry sx sy : Z)
  (ch : Char) :
  0 <= sx ->
  Char_init im_pixels (rx, ry, sx, sy) = Ok ch ->
  is_blank ch = false ->
  (Z.testbit (header_byte1 ch) 6 = true ->
   Z.testbit (header_byte1 ch) 5 = true) /\
  (Z.testbit (header_byte1 ch) 4 = true ->
   Z.testbit (header_byte1 ch) 7 = true).
Proof.
  intros Hsx E Hnb.
  destruct (Char_init_nonblank_inv im_pixels rx ry sx sy ch Hsx E Hnb)
    as (xm & xM & ym & yM & mf & Mf & ml & Ml & Hbox & _ & _ & Hw & Hh
        & Ho & ->).
  pose proof (tight_box_bounds _ _ _ _ _ _ _ _ _ Hbox) as Hb.
  set (c := mkChar rx ry sx sy (rx + sx) (ry + sy) xm xM ym yM mf Mf ml Ml
              (map (build_row im_pixels xm xM) (range ym yM))).
  destruct (header_layout c) as (_ & _ & _ & H4 & H5 & H6 & H7);
    [cbn [c x_max x_min y_max y_min im_rect_y]; lia..|].
  rewrite H4, H5, H6, H7.
  cbn [c y_min_first y_max_first y_min_last y_max_last im_rect_y]. split; lia.
Qed.

(** X9, instance: a glyph whose left edge is one pixel in row 10. *)
Lemma kern_flags_imply_gap_flags_witness :
  Char_init (dots_image [(0, 10); (1, 9)]) (0, 0, 8, 12) =
    Ok (mkChar 0 0 8 12 8 12 0 2 9 11 10 11 9 10 [2; 1]) /\
  Z.testbit (header_byte1 (mkChar 0 0 8 12 8 12 0 2 9 11 10 11 9 10 [2; 1])) 6
    = true /\
  Z.testbit (header_byte1 (mkChar 0 0 8 12 8 12 0 2 9 11 10 11 9 10 [2; 1])) 5
    = true.
Proof.
  assert (E : Char_init (dots_image [(0, 10); (1, 9)]) (0, 0, 8, 12) =
              Ok (mkChar 0 0 8 12 8 12 0 2 9 11 10 11 9 10 [2; 1]))
    by (vm_compute; reflexivity).
  split; [exact E|]. split; [reflexivity|].
  exact (proj1 (kern_flags_imply_gap_flags _ 0 0 8 12 _ ltac:(lia) E eq_refl)
           eq_refl).
Defined.

(** X10: the header of a non-blank glyph describes a box that lies inside
    its cell: the width nibble is between 1 and the cell width, the height
    nibble at least 1, and the y-offset nibble plus the height nibble is at
    most the cell height. *)
Theorem ink_box_within_cell (im_pixels : pixels) (rx ry sx sy : Z) (ch : Char) :
  0 <= sx ->
  Char_init im_pixels (rx, ry, sx, sy) = Ok ch ->
  is_blank ch = false ->
  1 <= Z.land (header_byte0 ch) 15 <= sx /\
  1 <= Z.shiftr (header_byte0 ch) 4 /\
  Z.land (header_byte1 ch) 15 + Z.shiftr (header_byte0 ch) 4 <= sy /\
  Z.land (header_byte0 ch) 15 = x_max ch - x_min ch /\
  Z.shiftr (header_byte0 ch) 4 = y_max ch - y_min ch /\
  Z.land (header_byte1 ch) 15 = y_min ch - im_rect_y ch.
Proof.
  intros Hsx E Hnb.
  destruct (Char_init_nonblank_inv im_pixels rx ry sx sy ch Hsx E Hnb)
    as (xm & xM & ym & yM & mf & Mf & ml & Ml & Hbox & _ & _ & Hw & Hh
        & Ho & ->).
  pose proof (tight_box_bounds _ _ _ _ _ _ _ _ _ Hbox) as Hb.
  set (c := mkChar rx ry sx sy (rx + sx) (ry + sy) xm xM ym yM mf Mf ml Ml
              (map (build_row im_pixels xm xM) (range ym yM))).
  destruct (header_layout c) as (_ & Hsize & Hoff & _);
    [cbn [c x_max x_min y_max y_min im_rect_y]; lia..|].
  unfold decode_size in Hsize. injection Hsize as H0 H1.
  rewrite H0, H1, Hoff. cbn [c x_max x_min y_max y_min im_rect_y].
  rewrite !Z.max_r by lia. repeat split; lia.
Qed.

(** X10, instance: a 2x2 glyph three rows down in an 8x12 cell. *)
Lemma ink_box_within_cell_witness :
  Char_init (dots_image [(3, 3); (4, 4)]) (0, 0, 8, 12) =
    Ok (mkChar 0 0 8 12 8 12 3 5 3 5 3 4 4 5 [1; 2]) /\
  Z.land (header_byte1 (mkChar 0 0 8 12 8 12 3 5 3 5 3 4 4 5 [1; 2])) 15 +
  Z.shiftr (header_byte0 (mkChar 0 0 8 12 8 12 3 5 3 5 3 4 4 5 [1; 2])) 4
    <= 12.
Proof.
  assert (E : Char_init (dots_image [(3, 3); (4, 4)]) (0, 0, 8, 12) =
              Ok (mkChar 0 0 8 12 8 12 3 5 3 5 3 4 4 5 [1; 2]))
    by (vm_compute; reflexivity).
  split; [exact E|].
  exact (proj1 (proj2 (proj2 (ink_box_within_cell _ 0 0 8 12 _ ltac:(lia) E
                                eq_refl)))).
Defined.

(** X11: the rows of a non-blank glyph are tight: every row is below
    [2 ^ width], the first and the last row are not zero, some row has bit 0
    set and some row has bit [width - 1] set. *)
Theorem rows_are_tight (im_pixels : pixels) (rx ry sx sy : Z) (ch : Char) :
  0 <= sx ->
  Char_init im_pixels (rx, ry, sx, sy) = Ok ch ->
  is_blank ch = false ->
  (forall v, In v (rows ch) -> 0 <= v < 2 ^ (x_max ch - x_min ch)) /\
  nth 0 (rows ch) 0 <> 0 /\
  nth (Z.to_nat (y_max ch - y_min ch - 1)) (rows ch) 0 <> 0 /\
  (exists v, In v (rows ch) /\ Z.testbit v 0 = true) /\
  (exists v, In v (rows ch) /\ Z.testbit v (x_max ch - x_min ch - 1) = true).
Proof.
  intros Hsx E Hnb.
  destruct (Char_init_nonblank_inv im_pixels rx ry sx sy ch Hsx E Hnb)
    as (xm & xM & ym & yM & mf & Mf & ml & Ml & Hbox & _ & _ & Hw & Hh
        & Ho & ->).
  pose proof (tight_box_bounds _ _ _ _ _ _ _ _ _ Hbox) as Hb.
  cbn [rows x_max x_min y_max y_min].
  destruct Hbox as ((y1 & Hc1 & Hi1) & (y2 & Hc2 & Hi2) & (x3 & Hc3 & Hi3)
                    & (x4 & Hc4 & Hi4) & Hcov).
  pose proof (Hcov _ _ (conj Hc1 Hi1)) as B1.
  pose proof (Hcov _ _ (conj Hc2 Hi2)) as B2.
  pose proof (Hcov _ _ (conj Hc3 Hi3)) as B3.
  pose proof (Hcov _ _ (conj Hc4 Hi4)) as B4.
  assert (Hbit : forall px py, xm <= px < xM -> ym <= py < yM ->
            im_pixels px py = true ->
            Z.testbit (nth (Z.to_nat (py - ym))
                         (map (build_row im_pixels xm xM) (range ym yM)) 0)
              (px - xm) = true).
  { intros px py Hx Hy Hi. rewrite rows_nth by lia.
    rewrite build_row_bit by lia.
    replace (px - xm <? xM - xm) with true by lia.
    replace (xm + (px - xm)) with px by lia.
    replace (ym + (py - ym)) with py by lia. exact Hi. }
  assert (Hin : forall py, ym <= py < yM ->
            In (nth (Z.to_nat (py - ym))
                  (map (build_row im_pixels xm xM) (range ym yM)) 0)
               (map (build_row im_pixels xm xM) (range ym yM))).
  { intros py Hy. apply nth_In. rewrite length_map, range_length. lia. }
  split; [|split; [|split; [|split]]].
  - intros v Hv. apply (rows_bound im_pixels xm xM ym yM v); [lia|exact Hv].
  - intros H0. pose proof (Hbit x3 ym ltac:(lia) ltac:(lia) Hi3) as Hb3.
    replace (ym - ym) with 0 in Hb3 by lia. cbn [Z.to_nat] in Hb3.
    rewrite H0, Z.bits_0 in Hb3. discriminate.
  - intros H0. pose proof (Hbit x4 (yM - 1) ltac:(lia) ltac:(lia) Hi4) as Hb4.
    replace (yM - 1 - ym) with (yM - ym - 1) in Hb4 by lia.
    rewrite H0, Z.bits_0 in Hb4. discriminate.
  - eexists. split; [apply (Hin y1); lia|].
    pose proof (Hbit xm y1 ltac:(lia) ltac:(lia) Hi1) as Hb1.
    now replace (xm - xm) with 0 in Hb1 by lia.
  - eexists. split; [apply (Hin y2); lia|].
    pose proof (Hbit (xM - 1) y2 ltac:(lia) ltac:(lia) Hi2) as Hb2.
    now replace (xM - 1 - xm) with (xM - xm - 1) in Hb2 by lia.
Qed.

(** X11, instance: the 9x2 glyph with rows [0x001] and [0x100]. *)
Lemma rows_are_tight_witness :
  Char_init (dots_image [(0, 0); (8, 1)]) (0, 0, 12, 12) =
    Ok (mkChar 0 0 12 12 12 12 0 9 0 2 0 1 1 2 [1; 256]) /\
  (forall v, In v [1; 256] -> 0 <= v < 2 ^ (9 - 0)) /\
  nth 0 [1; 256] 0 <> 0.
Proof.
  assert (E : Char_init (dots_image [(0, 0); (8, 1)]) (0, 0, 12, 12) =
              Ok (mkChar 0 0 12 12 12 12 0 9 0 2 0 1 1 2 [1; 256]))
    by (vm_compute; reflexivity).
  destruct (rows_are_tight _ 0 0 12 12 _ ltac:(lia) E eq_refl)
    as (H1 & H2 & _).
  split; [exact E|]. split; [exact H1|exact H2].
Defined.

(** ** How large a font can get *)

Lemma ch_list_of_elements im_pixels cw ch x y w h ch_list :
  0 < cw -> 0 < ch ->
  ch_list_of im_pixels (cw, ch) (x, y, w, h) = Ok ch_list ->
  length ch_list = (Z.to_nat (w / cw) * Z.to_nat (h / ch))%nat /\
  forall c, In c ch_list ->
    exists cx cy,
      0 <= cx < w / cw /\ 0 <= cy < h / ch /\
      Char_init im_pixels (x + cx * cw, y + cy * ch, cw, ch) = Ok c.
Proof.
  intros Hcw Hch E. rewrite ch_list_of_grid in E by lia.
  apply map_result_Ok_inv in E. split.
  - rewrite <- (Forall2_length E). apply grid_cells_length.
  - intros c Hc.
    destruct (Forall2_In_right _ _ _ E c Hc) as ([cx cy] & Hin & Hinit).
    apply In_grid_cells in Hin as [Hx Hy]. now exists cx, cy.
Qed.

(** An extracted glyph takes at most 12 rows of 2 bytes. *)
Lemma extracted_bitmap_bound im_pixels rx ry sx sy ch :
  0 <= sx ->
  Char_init im_pixels (rx, ry, sx, sy) = Ok ch ->
  len (bitmap_bytes ch) <= 24.
Proof.
  intros Hsx E. unfold bitmap_bytes.
  destruct (is_blank ch) eqn:Hb; [unfold len; cbn; lia|].
  destruct (Char_init_nonblank_inv im_pixels rx ry sx sy ch Hsx E Hb)
    as (xm & xM & ym & yM & mf & Mf & ml & Ml & Hbox & _ & _ & Hw & Hh
        & _ & ->).
  pose proof (tight_box_bounds _ _ _ _ _ _ _ _ _ Hbox) as Hbd.
  destruct (encode_rows_cases im_pixels rx ry sx sy xm xM ym yM mf Mf ml Ml
              ltac:(lia) Hw) as [Hn Hwd].
  destruct (Z_le_gt_dec (xM - xm) 8) as [H8|H8].
  - rewrite (Hn H8). unfold len. rewrite length_map, range_length. lia.
  - rewrite (Hwd ltac:(lia)). unfold len.
    rewrite flat_map_pair_length, length_map, range_length. lia.
Qed.

Lemma bitmap_len_firstn_bound l :
  (forall c, In c l -> len (bitmap_bytes c) <= 24) ->
  forall i, bitmap_len (firstn i l) <= 24 * Z.of_nat (min i (length l)).
Proof.
  induction l as [|c l IH]; intros H i.
  - rewrite firstn_nil. cbn [bitmap_len]. lia.
  - destruct i as [|i]; [cbn [firstn bitmap_len]; lia|].
    cbn [firstn bitmap_len length Nat.min].
    specialize (IH (fun c' Hc' => H c' (or_intror Hc')) i).
    pose proof (H c (or_introl eq_refl)). lia.
Qed.

(** With cells fewer than 256 rows tall and at most 2340 of them, packing
    the extracted glyphs always succeeds. *)
Lemma pack_font_fits im_pixels cw ch x y w h ch_list :
  0 < cw -> 0 < ch < 256 ->
  ch_list_of im_pixels (cw, ch) (x, y, w, h) = Ok ch_list ->
  28 * len ch_list <= 65536 ->
  exists out,
    pack_font im_pixels (cw, ch) (x, y, w, h) = Ok out /\
    4 * len ch_list <= len out <= 28 * len ch_list.
Proof.
  intros Hcw Hch El Hcap.
  destruct (ch_list_of_elements _ _ _ _ _ _ _ _ Hcw (proj1 Hch) El)
    as [_ Hel].
  assert (Hb : forall c, In c ch_list -> len (bitmap_bytes c) <= 24).
  { intros c Hc. destruct (Hel c Hc) as (cx & cy & _ & _ & Hinit).
    exact (extracted_bitmap_bound _ _ _ _ _ _ (Z.lt_le_incl _ _ Hcw) Hinit). }
  destruct (pack_font_total im_pixels cw ch x y w h ch_list Hcw Hch El)
    as (out & Eo & Hlen).
  - intros i c Hi _.
    assert (i < length ch_list)%nat by (apply nth_error_Some; congruence).
    pose proof (bitmap_len_firstn_bound ch_list Hb i). unfold len in *. lia.
  - exists out. split; [exact Eo|]. rewrite Hlen.
    pose proof (bitmap_len_firstn_bound ch_list Hb (length ch_list)) as Hall.
    rewrite firstn_all in Hall. pose proof (bitmap_len_nonneg ch_list).
    unfold len in *. lia.
Qed.

(** X12: for cells fewer than 256 rows tall, a grid of at most 2340 cells
    never runs out of offset range: whenever extraction returns its glyphs,
    [pack_font] writes its output, and the output is between 4 and 28 bytes
    per glyph long. Region not negative, region and cell size below
    [2 ^ 53]. *)
Theorem small_fonts_always_pack (im_pixels : PIL.pixel_access)
  (cw ch x y w h : Z) (ch_list : list Char) :
  float_exact w cw -> float_exact h ch -> ch < 256 -> 0 <= w -> 0 <= h ->
  28 * ((w / cw) * (h / ch)) <= 65536 ->
  PIL.ch_list_of im_pixels (cw, ch) (x, y, w, h) = Ok ch_list ->
  len ch_list = (w / cw) * (h / ch) /\
  exists out,
    PIL.pack_font im_pixels (cw, ch) (x, y, w, h) = Ok out /\
    4 * len ch_list <= len out <= 28 * len ch_list.
Proof.
  intros Hfw Hfh H256 Hw Hh Hcap El.
  pose proof (float_exact_pos _ _ Hfw) as Hcw.
  pose proof (float_exact_pos _ _ Hfh) as Hch.
  pose proof (PIL_ch_list_of_Ok_ideal _ _ _ _ _ _ _ _ Hcw Hch El) as El'.
  destruct (ch_list_of_elements _ _ _ _ _ _ _ _ Hcw Hch El') as [Hlen _].
  assert (Hn : len ch_list = (w / cw) * (h / ch)).
  { unfold len. rewrite Hlen.
    assert (0 <= w / cw) by (apply Z.div_pos; lia).
    assert (0 <= h / ch) by (apply Z.div_pos; lia).
    rewrite Nat2Z.inj_mul, !Z2Nat.id by assumption. reflexivity. }
  split; [exact Hn|].
  unfold PIL.pack_font. rewrite El. cbn [bind].
  destruct (pack_font_fits (ink_of im_pixels) cw ch x y w h ch_list Hcw
              (conj Hch H256) El' ltac:(lia)) as (out & Eo & Hout).
  unfold pack_font in Eo. rewrite El' in Eo. cbn [bind] in Eo.
  exists out. split; [exact Eo|exact Hout].
Qed.

(** X12, instance: three 8x12 cells of a loaded image, ink in the middle
    one. *)
Lemma small_fonts_always_pack_witness :
  exists out,
    PIL.pack_font (loaded_image 24 12 (dot_image 8 0)) (8, 12) (0, 0, 24, 12) =
      Ok out /\
    4 * 3 <= len out <= 28 * 3.
Proof.
  assert (El : PIL.ch_list_of (loaded_image 24 12 (dot_image 8 0)) (8, 12)
                 (0, 0, 24, 12) =
               Ok [Char_attrs (0, 0, 8, 12);
                   mkChar 8 0 8 12 16 12 8 9 0 1 0 1 0 1 [1];
                   Char_attrs (16, 0, 8, 12)]) by (vm_compute; reflexivity).
  exact (proj2 (small_fonts_always_pack (loaded_image 24 12 (dot_image 8 0))
                  8 12 0 0 24 12 _
                  ltac:(unfold float_exact; lia) ltac:(unfold float_exact; lia)
                  ltac:(lia) ltac:(lia) ltac:(lia)
                  ltac:(vm_compute; discriminate) El)).
Defined.

(** X13: a region narrower or lower than one cell holds no glyph: no pixel
    is read, and whatever the image, [pack_font] returns the empty byte
    string. Cell size positive, region and cell size below [2 ^ 53]. *)
Theorem region_below_one_cell (im_pixels : PIL.pixel_access)
  (cw ch x y w h : Z) :
  float_exact w cw -> float_exact h ch -> w < cw \/ h < ch ->
  PIL.ch_list_of im_pixels (cw, ch) (x, y, w, h) = Ok [] /\
  PIL.pack_font im_pixels (cw, ch) (x, y, w, h) = Ok [].
Proof.
  intros Hfw Hfh Hsmall.
  pose proof (float_exact_pos _ _ Hfw) as Hcw.
  pose proof (float_exact_pos _ _ Hfh) as Hch.
  assert (Hgrid : grid_cells (w / cw) (h / ch) = []).
  { apply length_zero_iff_nil. rewrite grid_cells_length.
    destruct Hsmall as [Hs|Hs].
    - assert (w / cw < 1) by (apply Z.div_lt_upper_bound; lia).
      replace (Z.to_nat (w / cw)) with 0%nat by lia. reflexivity.
    - assert (h / ch < 1) by (apply Z.div_lt_upper_bound; lia).
      replace (Z.to_nat (h / ch)) with 0%nat by lia. lia. }
  assert (El : PIL.ch_list_of im_pixels (cw, ch) (x, y, w, h) = Ok []).
  { rewrite PIL_ch_list_of_grid by lia. now rewrite Hgrid. }
  split; [exact El|]. unfold PIL.pack_font. rewrite El. reflexivity.
Qed.

(** X13, instance: a region 7 pixels wide under 8x12 cells, on an image
    none of whose pixels can be read. *)
Lemma region_below_one_cell_witness :
  PIL.pack_font (fun _ _ => Raise IndexError) (8, 12) (0, 0, 7, 120) = Ok [].
Proof.
  exact (proj2 (region_below_one_cell (fun _ _ => Raise IndexError)
                  8 12 0 0 7 120
                  ltac:(unfold float_exact; lia) ltac:(unfold float_exact; lia)
                  ltac:(left; lia))).
Defined.

(** X14: the record of a blank glyph, for a cell of positive width and of
    height from 1 to 15: byte 0 is zero, and byte 1 holds the cell height in
    its low nibble with the reduced-gap-after flag set, the
    reduced-gap-before flag set when the height exceeds 5, and no kerning
    flag. *)
Theorem blank_glyph_header (im_pixels : pixels) (rx ry sx sy : Z) (ch : Char) :
  0 <= sx -> 0 < sy < 16 ->
  Char_init im_pixels (rx, ry, sx, sy) = Ok ch ->
  is_blank ch = true ->
  encode_header ch = Ok [0; sy + 128 + (if sy >? 5 then 32 else 0)] /\
  Z.land (header_byte1 ch) 15 = sy /\
  Z.testbit (header_byte1 ch) 4 = false /\
  Z.testbit (header_byte1 ch) 5 = (sy >? 5) /\
  Z.testbit (header_byte1 ch) 6 = false /\
  Z.testbit (header_byte1 ch) 7 = true.
Proof.
  intros Hsx Hsy E Hb.
  destruct (is_blank_iff_no_ink im_pixels rx ry sx sy ch Hsx E) as [_ Ha].
  rewrite (Ha Hb). clear E Ha Hb ch.
  set (c := Char_attrs (rx, ry, sx, sy)).
  destruct (header_layout c) as (Hh & _ & Hoff & H4 & H5 & H6 & H7);
    [cbn [c Char_attrs x_max x_min y_max y_min im_rect_y]; lia..|].
  assert (H0 : header_byte0 c = 0).
  { unfold header_byte0. cbn [c Char_attrs x_max x_min y_max y_min].
    now rewrite !Z.max_l by lia. }
  assert (H1 : header_byte1 c = sy + 128 + (if sy >? 5 then 32 else 0)).
  { unfold header_byte1.
    cbn [c Char_attrs y_min im_rect_y y_min_first y_max_first y_min_last
         y_max_last].
    replace (ry + sy - ry) with sy by lia. replace (ry - ry) with 0 by lia.
    replace (ry + sy =? ry - 1) with false by lia.
    rewrite !andb_false_r. rewrite Z.max_r by lia.
    assert (Hall : forallb (fun v =>
              Z.lor (Z.lor (Z.lor (Z.lor v (Z.shiftl (Z.b2z false) 4))
                (Z.shiftl (Z.b2z (v >? 5)) 5)) (Z.shiftl (Z.b2z false) 6))
                (Z.shiftl (Z.b2z (0 <? 9)) 7) =?
              v + 128 + (if v >? 5 then 32 else 0)) (range 1 16) = true)
      by (vm_compute; reflexivity).
    apply Z.eqb_eq. exact (forallb_range _ _ _ sy Hall ltac:(lia)). }
  rewrite Hh, H0, H1 at 1. split; [reflexivity|].
  rewrite Hoff, H4, H5, H6, H7.
  cbn [c Char_attrs y_min im_rect_y y_min_first y_max_first y_min_last
       y_max_last].
  replace (ry + sy - ry) with sy by lia. replace (ry - ry) with 0 by lia.
  replace (ry + sy =? ry - 1) with false by lia.
  rewrite !andb_false_r. repeat split; lia.
Qed.

(** X14, instance: the blank glyph of an 8x12 cell has the header [00 AC]. *)
Lemma blank_glyph_header_witness :
  encode_header (Char_attrs (0, 24, 8, 12)) = Ok [0; 172].
Proof.
  exact (proj1 (blank_glyph_header blank_image 0 24 8 12
                  (Char_attrs (0, 24, 8, 12)) ltac:(lia) ltac:(lia)
                  eq_refl eq_refl)).
Defined.

(** ** Every way [pack_font] can fail *)

Lemma bytes_Raise_inv b e : bytes b = Raise e -> e = ValueError_bytes.
Proof. unfold bytes. destruct (forallb is_byte b); congruence. Qed.

Lemma pack_step_Raise_inv hl hs rs c e :
  pack_step hl (hs, rs) c = Raise e ->
  (is_blank c = false /\ encode_rows c = Raise e) \/ e = ValueError_bytes.
Proof.
  unfold pack_step. destruct (is_blank c); cbn [negb bind].
  - destruct (encode_header c) as [hd|e'] eqn:Hh; cbn [bind].
    + destruct (bytes [Z.land 0 255; Z.shiftr 0 8]) as [o|e'] eqn:Ho;
        cbn [bind]; [discriminate|].
      intros [= <-]. right. exact (bytes_Raise_inv _ _ Ho).
    + intros [= <-]. right. exact (bytes_Raise_inv _ _ Hh).
  - destruct (encode_rows c) as [r|e'] eqn:Hr; cbn [bind].
    + destruct (encode_header c) as [hd|e'] eqn:Hh; cbn [bind].
      * destruct (bytes [Z.land (len rs + hl) 255; Z.shiftr (len rs + hl) 8])
          as [o|e'] eqn:Ho; cbn [bind]; [discriminate|].
        intros [= <-]. right. exact (bytes_Raise_inv _ _ Ho).
      * intros [= <-]. right. exact (bytes_Raise_inv _ _ Hh).
    + intros [= <-]. now left.
Qed.

Lemma pack_loop_Raise_inv hl l e : forall st,
  for_each (pack_step hl) l st = Raise e ->
  (exists c, In c l /\ is_blank c = false /\ encode_rows c = Raise e) \/
  e = ValueError_bytes.
Proof.
  induction l as [|c l IH]; intros [hs rs] E; cbn [for_each] in E;
    [discriminate|].
  destruct (pack_step hl (hs, rs) c) as [st'|e'] eqn:Hstep; cbn [bind] in E.
  - destruct (IH st' E) as [(c' & Hin & Hb & Hr)|He]; [left|now right].
    exists c'. split; [now right|]. now split.
  - injection E as ->.
    destruct (pack_step_Raise_inv _ _ _ _ _ Hstep) as [[Hb Hr]|He];
      [left|now right].
    exists c. split; [now left|]. now split.
Qed.

Lemma extracted_rows_encode im_pixels rx ry sx sy ch :
  0 <= sx ->
  Char_init im_pixels (rx, ry, sx, sy) = Ok ch ->
  is_blank ch = false ->
  exists r, encode_rows ch = Ok r.
Proof.
  intros Hsx E Hb.
  destruct (Char_init_nonblank_inv im_pixels rx ry sx sy ch Hsx E Hb)
    as (xm & xM & ym & yM & mf & Mf & ml & Ml & Hbox & _ & _ & Hw & _ & _
        & ->).
  pose proof (tight_box_bounds _ _ _ _ _ _ _ _ _ Hbox) as Hbd.
  destruct (encode_rows_cases im_pixels rx ry sx sy xm xM ym yM mf Mf ml Ml
              ltac:(lia) Hw) as [Hn Hwd].
  destruct (Z_le_gt_dec (xM - xm) 8) as [H8|H8]; eexists;
    [apply Hn; exact H8|apply Hwd; lia].
Qed.

(** Packing extracted glyphs can only fail in [bytes]. *)
Lemma pack_extracted_Raise im_pixels cw ch x y w h ch_list e :
  0 < cw -> 0 < ch ->
  ch_list_of im_pixels (cw, ch) (x, y, w, h) = Ok ch_list ->
  pack_chars ch_list = Raise e -> e = ValueError_bytes.
Proof.
  intros Hcw Hch El Ep. rewrite pack_chars_loop in Ep.
  destruct (pack_loop_Raise_inv _ _ _ _ Ep) as [(c & Hc & Hb & Hr)|He];
    [exfalso|exact He].
  destruct (ch_list_of_elements _ _ _ _ _ _ _ _ Hcw Hch El) as [_ Hel].
  destruct (Hel c Hc) as (cx & cy & _ & _ & Hinit).
  destruct (extracted_rows_encode _ _ _ _ _ _ (Z.lt_le_incl _ _ Hcw) Hinit Hb)
    as [r Hok].
  congruence.
Qed.

(** X16: for a positive cell size, with the region and the cell size below
    [2 ^ 53], [pack_font] fails in these ways only: during extraction,
    reading a pixel of a cell of the grid raises, or [__init__] raises its
    size error or fails an assertion; or, with all glyphs extracted,
    [bytes] refuses a header byte or an offset byte. It never divides by
    zero, [struct.pack] never refuses a row, and the assertion on the header
    length never fails. *)
Theorem pack_font_failures (im_pixels : PIL.pixel_access) (cw ch x y w h : Z)
  (e : exception) :
  float_exact w cw -> float_exact h ch ->
  PIL.pack_font im_pixels (cw, ch) (x, y, w, h) = Raise e ->
  (PIL.ch_list_of im_pixels (cw, ch) (x, y, w, h) = Raise e /\
   (e = AssertionError \/ (exists gw gh, e = ValueError_size gw gh) \/
    exists px py,
      in_cell (x, y, w / cw * cw, h / ch * ch) px py /\
      im_pixels px py = Raise e)) \/
  (exists ch_list,
     PIL.ch_list_of im_pixels (cw, ch) (x, y, w, h) = Ok ch_list /\
     pack_chars ch_list = Raise e /\
     e = ValueError_bytes).
Proof.
  intros Hfw Hfh E.
  pose proof (float_exact_pos _ _ Hfw) as Hcw.
  pose proof (float_exact_pos _ _ Hfh) as Hch.
  unfold PIL.pack_font in E.
  destruct (PIL.ch_list_of im_pixels (cw, ch) (x, y, w, h)) as [l|e'] eqn:El;
    cbn [bind] in E.
  - right. exists l. split; [reflexivity|].
    destruct (pack_chars l) as [st|e'] eqn:Ep; cbn [bind] in E;
      [discriminate|].
    injection E as ->. split; [reflexivity|].
    exact (pack_extracted_Raise _ _ _ _ _ _ _ _ _ Hcw Hch
             (PIL_ch_list_of_Ok_ideal _ _ _ _ _ _ _ _ Hcw Hch El) Ep).
  - left. injection E as ->. split; [reflexivity|].
    rewrite PIL_ch_list_of_grid in El by lia.
    apply map_result_Raise_inv in El as ([cx cy] & Hin & Hinit).
    apply In_grid_cells in Hin as [Hx Hy].
    cbn [cell_rect fst snd] in Hinit.
    destruct (PIL_Char_init_cases im_pixels (x + cx * cw) (y + cy * ch) cw ch
                (Z.lt_le_incl _ _ Hcw))
      as [[_ E']|(px & py & e' & Hc & Hp & E')].
    + rewrite E' in Hinit.
      destruct (proj2 (proj2 (Char_init_errors (ink_of im_pixels) _ _ cw ch
                                (Z.lt_le_incl _ _ Hcw))) e Hinit) as [H|H];
        auto.
    + right. right. exists px, py. split; [|congruence].
      exact (cell_in_covered cw ch x y w h cx cy px py Hcw Hch Hx Hy Hc).
Qed.

(** X16, instance: a region that reaches past the right edge of a loaded
    image of 8x12 pixels: reading the first pixel of the second cell
    raises. *)
Lemma pack_font_failures_witness :
  PIL.pack_font (loaded_image 8 12 blank_image) (8, 12) (0, 0, 16, 12) =
    Raise IndexError /\
  exists px py,
    in_cell (0, 0, 16 / 8 * 8, 12 / 12 * 12) px py /\
    loaded_image 8 12 blank_image px py = Raise IndexError.
Proof.
  assert (E : PIL.pack_font (loaded_image 8 12 blank_image) (8, 12)
                (0, 0, 16, 12) = Raise IndexError) by (vm_compute; reflexivity).
  split; [exact E|].
  destruct (pack_font_failures _ 8 12 0 0 16 12 _
              ltac:(unfold float_exact; lia) ltac:(unfold float_exact; lia) E)
    as [[_ [H|[(gw & gh & H)|H]]]|(l & _ & _ & H)]; try discriminate H.
  exact H.
Defined.

Lemma lor_keeps_high_bit a b j :
  Z.testbit a j = true -> Z.testbit (Z.lor a b) j = true.
Proof. intros H. now rewrite Z.lor_spec, H. Qed.

(** X17: a cell 256 or more rows tall cannot hold a blank glyph: the blank
    glyph's y-offset is the cell height, which does not fit in the flag
    byte, so [pack_font] raises the [ValueError] of [bytes] and writes
    nothing. *)
Theorem tall_blank_cell_fails (im_pixels : pixels) (cw ch x y w h : Z)
  (ch_list : list Char) (c : Char) :
  0 < cw -> 256 <= ch ->
  ch_list_of im_pixels (cw, ch) (x, y, w, h) = Ok ch_list ->
  In c ch_list -> is_blank c = true ->
  256 <= header_byte1 c /\
  encode_header c = Raise ValueError_bytes /\
  pack_font im_pixels (cw, ch) (x, y, w, h) = Raise ValueError_bytes.
Proof.
  intros Hcw Hch El Hc Hb.
  assert (Hpos : 0 < ch) by lia.
  destruct (ch_list_of_elements _ _ _ _ _ _ _ _ Hcw Hpos El) as [_ Hel].
  destruct (Hel c Hc) as (cx & cy & _ & _ & Hinit).
  destruct (is_blank_iff_no_ink im_pixels _ _ cw ch c (Z.lt_le_incl _ _ Hcw)
              Hinit) as [_ Ha].
  assert (Hbig : 256 <= header_byte1 c).
  { rewrite (Ha Hb).
    destruct (Z_lt_ge_dec (header_byte1 (Char_attrs
                (x + cx * cw, y + cy * ch, cw, ch))) 256) as [Hlt|Hge];
      [exfalso|lia].
    assert (Hnn : 0 <= header_byte1 (Char_attrs
                         (x + cx * cw, y + cy * ch, cw, ch))).
    { unfold header_byte1.
      repeat (apply Z.lor_nonneg; split;
              [|apply Z.shiftl_nonneg; destruct (_ : bool); cbn; lia]).
      lia. }
    pose proof (Z.bit_log2 ch Hpos) as Hbit.
    assert (Hlog : 8 <= Z.log2 ch)
      by (apply Z.log2_le_pow2; [exact Hpos|exact Hch]).
    assert (Hset : Z.testbit (header_byte1 (Char_attrs
                      (x + cx * cw, y + cy * ch, cw, ch))) (Z.log2 ch) = true).
    { unfold header_byte1. do 4 apply lor_keeps_high_bit.
      cbn [Char_attrs y_min im_rect_y].
      replace (y + cy * ch + ch - (y + cy * ch)) with ch by lia.
      now rewrite Z.max_r by lia. }
    rewrite (testbit_above _ 8 (Z.log2 ch)) in Hset
      by (try change (2 ^ 8) with 256; lia).
    discriminate. }
  assert (Hhd : encode_header c = Raise ValueError_bytes).
  { unfold encode_header, bytes. cbn [forallb].
    replace (is_byte (header_byte1 c)) with false
      by (unfold is_byte; lia).
    now rewrite andb_false_r. }
  split; [exact Hbig|]. split; [exact Hhd|].
  unfold pack_font. rewrite El. cbn [bind].
  destruct (pack_chars ch_list) as [[hs rs]|e] eqn:Ep; cbn [bind].
  - exfalso. rewrite pack_chars_loop in Ep.
    assert (Hok : forall l st st', for_each (pack_step (4 * len ch_list)) l st
                     = Ok st' -> In c l -> False).
    { induction l as [|c0 l IH]; intros st st' E Hin; [destruct Hin|].
      cbn [for_each] in E.
      destruct (pack_step (4 * len ch_list) st c0) as [st1|e1] eqn:Hs;
        cbn [bind] in E; [|discriminate].
      destruct Hin as [<-|Hin]; [|exact (IH _ _ E Hin)].
      apply pack_step_header_ok in Hs. congruence. }
    exact (Hok _ _ _ Ep Hc).
  - f_equal. exact (pack_extracted_Raise _ _ _ _ _ _ _ _ _ Hcw Hpos El Ep).
Qed.

(** X17, instance: one blank cell 256 rows tall. *)
Lemma tall_blank_cell_fails_witness :
  pack_font blank_image (1, 256) (0, 0, 1, 256) = Raise ValueError_bytes.
Proof.
  assert (El : ch_list_of blank_image (1, 256) (0, 0, 1, 256) =
               Ok [Char_attrs (0, 0, 1, 256)]) by (vm_compute; reflexivity).
  exact (proj2 (proj2 (tall_blank_cell_fails blank_image 1 256 0 0 1 256 _ _
                         ltac:(lia) ltac:(lia) El (or_introl eq_refl)
                         eq_refl))).
Defined.
